(** * dijkstrasp: Prim's minimum spanning tree and the shortest path on it

    A shallow embedding of [src/spmain/sp.go].  Go [int]s are [Z]; slices are
    lists indexed through [slice_get] and [slice_set], which raise Go's
    run-time panic outside the slice; the [PriorityQueue], a Go
    [map[int]*Item], is a [gmap Z Item]; the [*Edge] objects shared by the
    spanning tree, the adjacency list and [edgeTo] live in an explicit store
    of edges addressed by locations; the plotting grid, a slice of 90000
    strings, is the finite map of the cells written so far together with
    its length.  Functions return an [outcome]: a value, a run-time panic,
    or the end of the bound given to a loop.  [float64] is a class of
    operations, instantiated by exact rational arithmetic for the runs on
    concrete inputs. *)

From Stdlib Require Import ZArith QArith Lia Ascii.
From stdpp Require Import base option list gmap strings pretty.

Open Scope Z_scope.

(** ** Results of running Go code *)

(** The run-time panics the program can raise. *)
Inductive panic : Type :=
| IndexOutOfRange        (* index out of range [i] with length n *)
| SliceBoundsOutOfRange  (* slice bounds out of range *)
| NilPointerDereference. (* invalid memory address or nil pointer dereference *)

(** A run ends with a value, with a panic, or is cut by the bound on the
    number of loop iterations that the model explores. *)
Inductive outcome (A : Type) : Type :=
| Done (a : A)
| Panic (p : panic)
| OutOfFuel.
Arguments Done {A} a.
Arguments Panic {A} p.
Arguments OutOfFuel {A}.

#[global] Instance outcome_ret : MRet outcome := fun A a => Done a.
#[global] Instance outcome_bind : MBind outcome := fun A B f m =>
  match m with
  | Done a => f a
  | Panic p => Panic p
  | OutOfFuel => OutOfFuel
  end.

#[global] Instance outcome_fmap : FMap outcome := fun A B f m =>
  match m with
  | Done a => Done (f a)
  | Panic p => Panic p
  | OutOfFuel => OutOfFuel
  end.

(** ** Slices *)

(** [s[i]] *)
Definition slice_get {A} (s : list A) (i : Z) : outcome A :=
  if decide (0 ≤ i) then
    match s !! Z.to_nat i with
    | Some x => Done x
    | None => Panic IndexOutOfRange
    end
  else Panic IndexOutOfRange.

(** [s[i] = x] *)
Definition slice_set {A} (s : list A) (i : Z) (x : A) : outcome (list A) :=
  if decide (0 ≤ i < Z.of_nat (length s)) then Done (<[Z.to_nat i := x]> s)
  else Panic IndexOutOfRange.

(** [s[1:]] *)
Definition slice_from1 {A} (s : list A) : outcome (list A) :=
  match s with
  | [] => Panic SliceBoundsOutOfRange
  | _ :: s' => Done s'
  end.

(** [len(s)] *)
Definition len {A} (s : list A) : Z := Z.of_nat (length s).

(** ** float64 *)

(** The operations of Go's [float64] that the program uses.  The theorems
    below hold for every implementation of them; the concrete runs use
    [Q_float64], exact rational arithmetic, on inputs where every value is a
    small integer or stays clear of a rounding boundary. *)
Class Float64 : Type := {
  float64 : Type;
  MaxFloat64 : float64;                  (* math.MaxFloat64 *)
  float_of_int : Z → float64;            (* float64(n) and integer constants *)
  f_half : float64;                      (* the constant .5 *)
  f_add : float64 → float64 → float64;
  f_sub : float64 → float64 → float64;
  f_mul : float64 → float64 → float64;
  f_div : float64 → float64 → float64;
  f_lt : float64 → float64 → bool;       (* x < y *)
  f_eq : float64 → float64 → bool;       (* x == y *)
  hypot : float64 → float64 → float64;   (* math.Hypot, behind cmplx.Abs *)
  int_of_float : float64 → Z;            (* int(x): truncation toward zero *)
  fmt_2f : float64 → string;             (* fmt.Sprintf("%.2f", x) *)
}.

(** [complex128]: real and imaginary part. *)
Abbreviation complex128 := (float64 * float64)%type.

Definition c_sub `{Float64} (a b : complex128) : complex128 :=
  (f_sub a.1 b.1, f_sub a.2 b.2).

(** [cmplx.Abs] *)
Definition c_abs `{Float64} (z : complex128) : float64 := hypot z.1 z.2.

(** ** Edges and the store of edge objects *)

Module Edge.
(** [type Edge struct { v int; w int }] *)
Record t : Type := mk { v : Z; w : Z }.

(** [e.v, e.w = e.w, e.v] *)
Definition swap (e : t) : t := {| v := w e; w := v e |}.
End Edge.

(** A [*Edge] is [nil] or the location of an edge object. *)
Abbreviation loc := nat (only parsing).
Abbreviation store := (list Edge.t) (only parsing).

(** [&Edge{...}]: a fresh object. *)
Definition alloc (h : store) (e : Edge.t) : loc * store := (length h, h ++ [e]).

(** Reading through a [*Edge]. *)
Definition deref (h : store) (p : option loc) : outcome Edge.t :=
  match p with
  | None => Panic NilPointerDereference
  | Some l =>
    match h !! l with
    | Some e => Done e
    | None => Panic NilPointerDereference
    end
  end.

(** ** container/heap *)

(** The functions of Go's package container/heap that the program calls,
    written after the source of the library: [up] and [down] restore the
    heap order along one path, [Init], [Push], [Pop] and [Fix] use them. *)
Module heap.
(** [heap.Interface] (with [sort.Interface]): the methods the heap
    functions call on the container. *)
Class Interface (H X : Type) : Type := {
  Len : H → Z;
  Less : H → Z → Z → outcome bool;
  Swap : H → Z → Z → outcome H;
  Push : H → X → outcome H;
  Pop : H → outcome (X * H);
}.

Section functions.
Context {H X : Type} `{!Interface H X}.

(** The loop of [up]: [j] moves to its parent while it is less. *)
Fixpoint up_loop (fuel : nat) (h : H) (j : Z) : outcome H :=
  match fuel with
  | O => OutOfFuel
  | S fuel =>
    let i := (j - 1) `quot` 2 in (* parent *)
    if decide (i = j) then Done h
    else
      lt ← Less h j i;
      if negb lt then Done h
      else h ← Swap h i j; up_loop fuel h i
  end.

Definition up (h : H) (j : Z) : outcome H := up_loop (S (Z.to_nat j)) h j.

(** The loop of [down]; the result says whether [i0] moved. *)
Fixpoint down_loop (fuel : nat) (h : H) (i0 i n : Z) : outcome (H * bool) :=
  match fuel with
  | O => OutOfFuel
  | S fuel =>
    let j1 := 2 * i + 1 in
    if decide (j1 >= n ∨ j1 < 0) then Done (h, bool_decide (i > i0))
    else
      let j2 := j1 + 1 in
      right ← (if decide (j2 < n) then Less h j2 j1 else Done false);
      let j := if (right : bool) then j2 else j1 in
      lt ← Less h j i;
      if negb lt then Done (h, bool_decide (i > i0))
      else h ← Swap h i j; down_loop fuel h i0 j n
  end.

Definition down (h : H) (i0 n : Z) : outcome (H * bool) :=
  down_loop (S (Z.to_nat n)) h i0 i0 n.

(** [for i := n/2 - 1; i >= 0; i-- { down(h, i, n) }], counted by the
    number [k] of indices left, [i = k - 1]. *)
Fixpoint Init_loop (k : nat) (h : H) (n : Z) : outcome H :=
  match k with
  | O => Done h
  | S k' => '(h, _) ← down h (Z.of_nat k') n; Init_loop k' h n
  end.

Definition Init (h : H) : outcome H :=
  let n := Len h in
  Init_loop (Z.to_nat (n `quot` 2)) h n.

(** [heap.Push] *)
Definition push (h : H) (x : X) : outcome H :=
  h ← Push h x; up h (Len h - 1).

(** [heap.Pop] *)
Definition pop (h : H) : outcome (X * H) :=
  let n := Len h - 1 in
  h ← Swap h 0 n;
  '(h, _) ← down h 0 n;
  Pop h.

(** [heap.Fix] *)
Definition Fix (h : H) (i : Z) : outcome H :=
  '(h, moved) ← down h i (Len h);
  if negb moved then up h i else Done h.
End functions.
End heap.

(** ** The priority queue *)

Module Item.
(** [type Item struct { Edge; index int; distance float64 }], over the
    type [F] of the distance. *)
Record over (F : Type) : Type := mk { edge : Edge.t; index : Z; distance : F }.
Arguments mk {F} _ _ _.
Arguments edge {F} _.
Arguments index {F} _.
Arguments distance {F} _.

Abbreviation t := (over float64).

Definition with_index {F} (it : over F) (i : Z) : over F :=
  {| edge := edge it; index := i; distance := distance it |}.
Definition with_distance {F} (it : over F) (d : F) : over F :=
  {| edge := edge it; index := index it; distance := d |}.

(** The promoted fields of the embedded [Edge]. *)
Definition v {F} (it : over F) : Z := Edge.v (edge it).
Definition w {F} (it : over F) : Z := Edge.w (edge it).
End Item.

(** [type PriorityQueue map[int]*Item].  Every item is referenced from the
    queue only, so the map holds the items themselves; the key of an item is
    its position in the heap. *)
Abbreviation PriorityQueue := (gmap Z Item.t).

Module PriorityQueue.
Section methods.
Context `{Float64}.

Definition Len (pq : PriorityQueue) : Z := Z.of_nat (size pq).

(** [pq[i].distance < pq[j].distance] *)
Definition Less (pq : PriorityQueue) (i j : Z) : outcome bool :=
  match pq !! i, pq !! j with
  | Some a, Some b => Done (f_lt (Item.distance a) (Item.distance b))
  | _, _ => Panic NilPointerDereference
  end.

(** [pq[i], pq[j] = pq[j], pq[i]; pq[i].index = i; pq[j].index = j] *)
Definition Swap (pq : PriorityQueue) (i j : Z) : outcome PriorityQueue :=
  match pq !! i, pq !! j with
  | Some a, Some b =>
    Done (<[j := Item.with_index a j]> (<[i := Item.with_index b i]> pq))
  | _, _ => Panic NilPointerDereference
  end.

(** [n := len( *pq); item.index = n; ( *pq)[n] = item] *)
Definition Push (pq : PriorityQueue) (item : Item.t) : outcome PriorityQueue :=
  let n := Len pq in
  Done (<[n := Item.with_index item n]> pq).

(** [item := old[n-1]; item.index = -1; delete( *pq, n-1); return item] *)
Definition Pop (pq : PriorityQueue) : outcome (Item.t * PriorityQueue) :=
  let n := Len pq in
  match pq !! (n - 1) with
  | Some item => Done (Item.with_index item (-1), delete (n - 1) pq)
  | None => Panic NilPointerDereference
  end.

#[global] Instance interface : heap.Interface PriorityQueue Item.t :=
  {| heap.Len := Len; heap.Less := Less; heap.Swap := Swap;
     heap.Push := Push; heap.Pop := Pop |}.

(** [item.distance = distance; heap.Fix(pq, item.index)], for the item
    that the caller read from the queue under key [k]. *)
Definition update (pq : PriorityQueue) (k : Z) (distance : float64)
  : outcome PriorityQueue :=
  match pq !! k with
  | Some item =>
    heap.Fix (<[k := Item.with_distance item distance]> pq) (Item.index item)
  | None => Panic NilPointerDereference
  end.
End methods.
End PriorityQueue.

(** ** Constants, errors and the plot *)

Definition rows : Z := 300.      (* #rows in grid *)
Definition columns : Z := rows.  (* #columns in grid *)
Definition xlabels : Z := 11.    (* # labels on x axis *)
Definition ylabels : Z := 11.    (* # labels on y axis *)

(** The [error] values the program returns. *)
Inductive error : Type :=
| ErrNotSet                  (* source and/or target vertices not set *)
| ErrAtoi (s : string) (range : bool)
                             (* strconv.Atoi on s: invalid syntax, or value out of range *)
| ErrInvalidVertices         (* source and/or target vertices are invalid *)
| ErrNotFound (target : Z).  (* distance to vertex %d not found *)

(** [strconv.Itoa] *)
Definition Itoa (n : Z) : string := pretty n.

Definition quote : string := String (Ascii.ascii_of_nat 34) EmptyString.
Definition backslash : string := String (Ascii.ascii_of_nat 92) EmptyString.

(** A digit of the hexadecimal notation, in lower case. *)
Definition lowerhex (d : nat) : ascii :=
  Ascii.ascii_of_nat (if decide (d < 10)%nat then 48 + d else 87 + d).

(** What [strconv.Quote] writes for one byte below 0x80: a backslash before
    the quote and the backslash, the printable bytes as they are, the
    escape sequences of Go for the control characters that have one (a, b,
    f, n, r, t, v) and x with two hexadecimal digits for the others.  A
    byte from 0x80 on is copied, which is what Quote does with the bytes
    of a printable rune in valid UTF-8; the escapes that Quote writes for
    the other bytes from 0x80 on need the tables of package unicode and
    are not part of this model, which is used for strings of bytes below
    0x80 ([ascii_only]). *)
Definition quote_byte (c : ascii) : string :=
  let n := Ascii.nat_of_ascii c in
  let one := String c EmptyString in
  if decide (n = 34 ∨ n = 92)%nat then backslash +:+ one
  else if decide (32 ≤ n < 127)%nat then one
  else if decide (n = 7)%nat then backslash +:+ "a"
  else if decide (n = 8)%nat then backslash +:+ "b"
  else if decide (n = 12)%nat then backslash +:+ "f"
  else if decide (n = 10)%nat then backslash +:+ "n"
  else if decide (n = 13)%nat then backslash +:+ "r"
  else if decide (n = 9)%nat then backslash +:+ "t"
  else if decide (n = 11)%nat then backslash +:+ "v"
  else if decide (n < 32 ∨ n = 127)%nat then
    backslash +:+ "x" +:+
    String (lowerhex (n / 16)) (String (lowerhex (n mod 16)) EmptyString)
  else one.

Fixpoint quote_bytes (s : string) : string :=
  match s with
  | EmptyString => EmptyString
  | String c s' => quote_byte c +:+ quote_bytes s'
  end.

(** [strconv.Quote] *)
Definition Quote (s : string) : string := quote +:+ quote_bytes s +:+ quote.

(** [err.Error()]; for the error of strconv.Atoi it is the method Error of
    [*strconv.NumError]. *)
Definition Error (e : error) : string :=
  match e with
  | ErrNotSet => "source and/or target vertices not set"
  | ErrAtoi s range =>
    "strconv.Atoi: parsing " +:+ Quote s +:+
    (if range then ": value out of range" else ": invalid syntax")
  | ErrInvalidVertices => "source and/or target vertices are invalid"
  | ErrNotFound target => "distance to vertex " +:+ Itoa target +:+ " not found"
  end.

Module Grid.
(** The plotting grid, a [[]string] of fixed length that is written one
    cell at a time: the cells written so far and the length.  A cell
    that was never written holds the empty string. *)
Record t : Type := mk { cells : gmap Z string; length : Z }.

(** [make([]string, n)] *)
Definition make (n : Z) : t := mk ∅ n.

(** [grid[i]] *)
Definition get (g : t) (i : Z) : outcome string :=
  if decide (0 ≤ i < length g) then Done (default "" (cells g !! i))
  else Panic IndexOutOfRange.

(** [grid[i] = x] *)
Definition set (g : t) (i : Z) (x : string) : outcome t :=
  if decide (0 ≤ i < length g) then Done (mk (<[i := x]> (cells g)) (length g))
  else Panic IndexOutOfRange.
End Grid.

Module PlotT.
(** [type PlotT struct], the data of the HTML template. *)
Record t : Type := mk {
  Grid : Grid.t;            (* plotting grid *)
  Status : string;          (* status of the plot *)
  Xlabel : list string;     (* x-axis labels *)
  Ylabel : list string;     (* y-axis labels *)
  Distance : string;        (* Prim MST total distance *)
  Vertices : string;        (* number of vertices *)
  Xmin : string;
  Xmax : string;
  Ymin : string;
  Ymax : string;
  StartLocation : string;   (* Prim MST start vertex location *)
  SourceLocation : string;  (* source vertex of the SP, x,y coordinates *)
  TargetLocation : string;  (* target vertex of the SP, x,y coordinates *)
  Source : string;          (* source vertex of the SP *)
  Target : string;          (* target vertex of the SP *)
  DistanceSP : string;      (* shortest path distance *)
}.

(** [&PlotT{}] *)
Definition zero : t := mk (Grid.make 0) "" [] [] "" "" "" "" "" "" "" "" "" "" "" "".

Definition set_Grid (g : Grid.t) (p : t) : t :=
  mk g (Status p) (Xlabel p) (Ylabel p) (Distance p) (Vertices p) (Xmin p)
     (Xmax p) (Ymin p) (Ymax p) (StartLocation p) (SourceLocation p)
     (TargetLocation p) (Source p) (Target p) (DistanceSP p).
Definition set_Status (s : string) (p : t) : t :=
  mk (Grid p) s (Xlabel p) (Ylabel p) (Distance p) (Vertices p) (Xmin p)
     (Xmax p) (Ymin p) (Ymax p) (StartLocation p) (SourceLocation p)
     (TargetLocation p) (Source p) (Target p) (DistanceSP p).
(** [TargetLocation] and [Target] *)
Definition set_target (l s : string) (p : t) : t :=
  mk (Grid p) (Status p) (Xlabel p) (Ylabel p) (Distance p) (Vertices p)
     (Xmin p) (Xmax p) (Ymin p) (Ymax p) (StartLocation p) (SourceLocation p)
     l (Source p) s (DistanceSP p).
(** [SourceLocation] and [Source] *)
Definition set_source (l s : string) (p : t) : t :=
  mk (Grid p) (Status p) (Xlabel p) (Ylabel p) (Distance p) (Vertices p)
     (Xmin p) (Xmax p) (Ymin p) (Ymax p) (StartLocation p) l
     (TargetLocation p) s (Target p) (DistanceSP p).
Definition set_DistanceSP (s : string) (p : t) : t :=
  mk (Grid p) (Status p) (Xlabel p) (Ylabel p) (Distance p) (Vertices p)
     (Xmin p) (Xmax p) (Ymin p) (Ymax p) (StartLocation p) (SourceLocation p)
     (TargetLocation p) (Source p) (Target p) s.
End PlotT.

Module Endpoints.
(** [type Endpoints struct]: the bounds of the Euclidean graph, over the
    type [F] of the coordinates. *)
Record over (F : Type) : Type := mk { xmin : F; xmax : F; ymin : F; ymax : F }.
Arguments mk {F} _ _ _ _.
Arguments xmin {F} _.
Arguments xmax {F} _.
Arguments ymin {F} _.
Arguments ymax {F} _.

Abbreviation t := (over float64).
End Endpoints.

(** ** Rasterization shared by plotMST and plotSP *)

Section raster.
Context `{Float64}.

(** [xscale = (columns - 1) / (xmax - xmin)] *)
Definition xscale (ep : Endpoints.t) : float64 :=
  f_div (float_of_int (columns - 1)) (f_sub (Endpoints.xmax ep) (Endpoints.xmin ep)).

(** [yscale = (rows - 1) / (ymax - ymin)] *)
Definition yscale (ep : Endpoints.t) : float64 :=
  f_div (float_of_int (rows - 1)) (f_sub (Endpoints.ymax ep) (Endpoints.ymin ep)).

(** [lenEP := cmplx.Abs(endEP - beginEP)] *)
Definition lenEP (ep : Endpoints.t) : float64 :=
  c_abs (c_sub (Endpoints.xmax ep, Endpoints.ymax ep)
               (Endpoints.xmin ep, Endpoints.ymin ep)).

(** [row := int((ymax-y)*yscale + .5)] *)
Definition row_of (ep : Endpoints.t) (y : float64) : Z :=
  int_of_float (f_add (f_mul (f_sub (Endpoints.ymax ep) y) (yscale ep)) f_half).

(** [col := int((x-xmin)*xscale + .5)] *)
Definition col_of (ep : Endpoints.t) (x : float64) : Z :=
  int_of_float (f_add (f_mul (f_sub x (Endpoints.xmin ep)) (xscale ep)) f_half).

(** The index [row*columns+col] of the cell of the point (x, y). *)
Definition cell_of (ep : Endpoints.t) (x y : float64) : Z :=
  row_of ep y * columns + col_of ep x.

(** [ncells := int(columns * lenEdge / lenEP)] *)
Definition ncells_of (ep : Endpoints.t) (lenEdge : float64) : Z :=
  int_of_float (f_div (f_mul (float_of_int columns) lenEdge) (lenEP ep)).

(** The loop that draws an edge: [n] iterations are left, the sample is
    at (x, y). *)
Fixpoint draw_loop (ep : Endpoints.t) (label : string) (n : nat)
    (x y stepX stepY : float64) (grid : Grid.t) : outcome Grid.t :=
  match n with
  | O => Done grid
  | S n' =>
    grid ← Grid.set grid (cell_of ep x y) label;
    draw_loop ep label n' (f_add x stepX) (f_add y stepY) stepX stepY grid
  end.

(** The body of the loop over the edges, common to plotMST and plotSP:
    add the length of the edge from [start] to [end_] to [distance], draw
    its [ncells] samples with [label], then mark both ends "vertex". *)
Definition draw_edge (ep : Endpoints.t) (label : string)
    (start end_ : complex128) (distance : float64) (grid : Grid.t)
    : outcome (float64 * Grid.t) :=
  let lenEdge := c_abs (c_sub end_ start) in
  let distance := f_add distance lenEdge in
  let ncells := ncells_of ep lenEdge in
  let stepX := f_div (f_sub end_.1 start.1) (float_of_int ncells) in
  let stepY := f_div (f_sub end_.2 start.2) (float_of_int ncells) in
  grid ← draw_loop ep label (Z.to_nat ncells) start.1 start.2 stepX stepY grid;
  grid ← Grid.set grid (cell_of ep start.1 start.2) "vertex";
  grid ← Grid.set grid (cell_of ep end_.1 end_.2) "vertex";
  Done (distance, grid).

(** The five writes that highlight the vertex at (x, y): the cell, the
    cells below and above, the cells right and left. *)
Definition highlight (ep : Endpoints.t) (label : string) (x y : float64)
    (grid : Grid.t) : outcome Grid.t :=
  let row := row_of ep y in
  let col := col_of ep x in
  grid ← Grid.set grid (row * columns + col) label;
  grid ← Grid.set grid ((row + 1) * columns + col) label;
  grid ← Grid.set grid ((row - 1) * columns + col) label;
  grid ← Grid.set grid (row * columns + col + 1) label;
  Grid.set grid (row * columns + col - 1) label.

(** [fmt.Sprintf("(%.2f, %.2f)", x, y)] *)
Definition fmt_location (x y : float64) : string :=
  "(" +:+ fmt_2f x +:+ ", " +:+ fmt_2f y +:+ ")".

(** [for i := range labels { labels[i] = fmt.Sprintf("%.2f", x); x += incr }] *)
Fixpoint axis_labels (n : nat) (x incr : float64) : list string :=
  match n with
  | O => []
  | S n' => fmt_2f x :: axis_labels n' (f_add x incr) incr
  end.
End raster.

(** ** Prim's minimum spanning tree *)

Module PrimMST.
(** [type PrimMST struct], over the type [F] of float64.  [mst] is the
    [MST], a slice of [*Edge].  [plot] is the [*PlotT] that plotMST
    creates. *)
Record over (F : Type) : Type := mk {
  graph : list (list F);
  location : list (F * F);
  mst : list (option loc);
  endpoints : Endpoints.over F;
  plot : option PlotT.t;
}.
Arguments mk {F} _ _ _ _ _.
Arguments graph {F} _.
Arguments location {F} _.
Arguments mst {F} _.
Arguments endpoints {F} _.
Arguments plot {F} _.

Abbreviation t := (over float64).

(** The variables of findMST: the store of edge objects, [p.mst],
    [marked], [distTo] and the queue. *)
Record vars_over (F : Type) : Type := mkvars {
  edges : store;
  tree : list (option loc);
  marked : list bool;
  distTo : list F;
  pq : gmap Z (Item.over F);
}.
Arguments mkvars {F} _ _ _ _ _.
Arguments edges {F} _.
Arguments tree {F} _.
Arguments marked {F} _.
Arguments distTo {F} _.
Arguments pq {F} _.

Abbreviation vars := (vars_over float64).

Section methods.
Context `{Float64}.

(** *** findDistances *)

(** The entry [graph[i][j]] after the three loops of findDistances: the
    loop over [j > i] writes the distance computed at (i, j) to both
    [graph[i][j]] and [graph[j][i]], the last loop fills the diagonal. *)
Definition distance_entry (loc : list complex128) (i j : nat) : float64 :=
  if decide (i = j) then MaxFloat64
  else
    let '(a, b) := if decide (i < j)%nat then (i, j) else (j, i) in
    match loc !! a, loc !! b with
    | Some za, Some zb => c_abs (c_sub za zb)
    | _, _ => float_of_int 0
    end.

Definition findDistances (p : t) : option error * t :=
  let verts := length (location p) in
  let g := (λ i, (λ j, distance_entry (location p) i j) <$> seq 0 verts)
           <$> seq 0 verts in
  (None, mk g (location p) (mst p) (endpoints p) (plot p)).

(** *** findMST *)

(** The body of [for w, dist := range p.graph[v]] in [visit], over the
    rest [row] of [p.graph[v]] from index [w] on. *)
Fixpoint visit_range (v : Z) (row : list float64) (w : Z) (s : vars)
    : outcome vars :=
  match row with
  | [] => Done s
  | dist :: row' =>
    m ← slice_get (marked s) w;
    if (m : bool) then visit_range v row' (w + 1) s
    else
      dw ← slice_get (distTo s) w;
      if f_lt dist dw then
        (* Edge to w is new best connection from MST to w *)
        let '(l, edges') := alloc (edges s) (Edge.mk v w) in
        tree' ← slice_set (tree s) w (Some l);
        distTo' ← slice_set (distTo s) w dist;
        (* Check if already in the queue and update *)
        pq' ← match pq s !! w with
               | Some _ => PriorityQueue.update (pq s) w dist
               | None => heap.push (pq s) (Item.mk (Edge.mk v w) 0 dist)
               end;
        visit_range v row' (w + 1) (mkvars edges' tree' (marked s) distTo' pq')
      else visit_range v row' (w + 1) s
  end.

(** The closure [visit] *)
Definition visit (g : list (list float64)) (v : Z) (s : vars) : outcome vars :=
  marked' ← slice_set (marked s) v true;
  row ← slice_get g v;
  visit_range v row 0 (mkvars (edges s) (tree s) marked' (distTo s) (pq s)).

(** [for pq.Len() > 0 { item := heap.Pop(&pq); visit(item.w) }].  The
    list [popped] records the vertices handed to [visit], in order; it
    is not a variable of the source. *)
Fixpoint findMST_loop (fuel : nat) (g : list (list float64)) (s : vars)
    (popped : list Z) : outcome (vars * list Z) :=
  match fuel with
  | O => OutOfFuel
  | S fuel =>
    if decide (PriorityQueue.Len (pq s) > 0) then
      '(item, pq') ← heap.pop (pq s);
      s ← visit g (Item.w item)
            (mkvars (edges s) (tree s) (marked s) (distTo s) pq');
      findMST_loop fuel g s (popped ++ [Item.w item])
    else Done (s, popped)
  end.

(** findMST, from the store [h] of edge objects.  The result is the
    returned [error], the store, the receiver and the popped vertices. *)
Definition findMST (fuel : nat) (h : store) (p : t)
    : outcome (option error * store * t * list Z) :=
  let vertices := length (location p) in
  let mst0 := replicate vertices None in
  let marked0 := replicate vertices false in
  let distTo0 := replicate vertices MaxFloat64 in
  let pq0 : PriorityQueue := ∅ in
  (* Starting index is 0, distance is MaxFloat64, put it in the queue *)
  distTo0 ← slice_set distTo0 0 MaxFloat64;
  let pq0 := <[0 := Item.mk (Edge.mk 0 0) 0 MaxFloat64]> pq0 in
  pq0 ← heap.Init pq0;
  '(s, popped) ← findMST_loop fuel (graph p) (mkvars h mst0 marked0 distTo0 pq0) [];
  Done (None, edges s,
        mk (graph p) (location p) (tree s) (endpoints p) (plot p), popped).

(** *** plotMST *)

(** [for _, e := range p.mst[1:]]: the edges are drawn in slot order. *)
Fixpoint plot_edges (h : store) (p : t) (es : list (option loc))
    (distance : float64) (grid : Grid.t) : outcome (float64 * Grid.t) :=
  match es with
  | [] => Done (distance, grid)
  | e :: es' =>
    e ← deref h e;
    beginEdge ← slice_get (location p) (Edge.v e);
    endEdge ← slice_get (location p) (Edge.w e);
    '(distance, grid) ← draw_edge (endpoints p) "edge" beginEdge endEdge distance grid;
    plot_edges h p es' distance grid
  end.

Definition plotMST (h : store) (p : t) : outcome (option error * t) :=
  let ep := endpoints p in
  let grid := Grid.make (rows * columns) in
  es ← slice_from1 (mst p);
  '(distance, grid) ← plot_edges h p es (float_of_int 0) grid;
  (* Mark the MST start vertex *)
  z ← slice_get (location p) 0;
  grid ← highlight ep "startvertexMSS" z.1 z.2 grid;
  let incrx := f_div (f_sub (Endpoints.xmax ep) (Endpoints.xmin ep))
                     (float_of_int (xlabels - 1)) in
  let incry := f_div (f_sub (Endpoints.ymax ep) (Endpoints.ymin ep))
                     (float_of_int (ylabels - 1)) in
  let pl :=
    PlotT.mk grid ""
      (axis_labels (Z.to_nat xlabels) (Endpoints.xmin ep) incrx)
      (axis_labels (Z.to_nat ylabels) (Endpoints.ymin ep) incry)
      (fmt_2f distance)
      (Itoa (len (location p)))
      (fmt_2f (Endpoints.xmin ep)) (fmt_2f (Endpoints.xmax ep))
      (fmt_2f (Endpoints.ymin ep)) (fmt_2f (Endpoints.ymax ep))
      (fmt_location z.1 z.2) "" "" "" "" "" in
  Done (None, mk (graph p) (location p) (mst p) ep (Some pl)).
End methods.
End PrimMST.

(** ** strconv.Atoi and the request *)

(** The value of a string of decimal digits read after [n]; [None] at a
    character that is not a digit. *)
Fixpoint digits (s : string) (n : Z) : option Z :=
  match s with
  | EmptyString => Some n
  | String c s' =>
    let d := Z.of_nat (Ascii.nat_of_ascii c) - 48 in
    if decide (0 ≤ d ≤ 9) then digits s' (n * 10 + d) else None
  end.

(** The two errors of package strconv that a conversion to an integer
    returns. *)
Inductive strconv_error : Type := ErrSyntax | ErrRange.

(** The loop of [strconv.ParseUint] for base 10 and 64 bits, [n] the value
    read so far: a character that is not a digit is a syntax error with
    the value 0; a value that does not fit uint64 is a range error with
    the largest uint64, found at the digit that overflows, before the
    characters after it are looked at. *)
Fixpoint ParseUint_loop (s : string) (n : Z) : Z * option strconv_error :=
  match s with
  | EmptyString => (n, None)
  | String c s' =>
    let d := Z.of_nat (Ascii.nat_of_ascii c) - 48 in
    if decide (0 ≤ d ≤ 9) then
      if decide (n >= (2 ^ 64 - 1) `div` 10 + 1) then (2 ^ 64 - 1, Some ErrRange)
      else
        let n1 := n * 10 + d in
        if decide (n1 > 2 ^ 64 - 1) then (2 ^ 64 - 1, Some ErrRange)
        else ParseUint_loop s' n1
    else (0, Some ErrSyntax)
  end.

(** [strconv.ParseUint(s, 10, 0)] *)
Definition ParseUint (s : string) : Z * option strconv_error :=
  match s with
  | EmptyString => (0, Some ErrSyntax)
  | _ => ParseUint_loop s 0
  end.

(** [strconv.ParseInt(s, 10, 0)] on a 64-bit platform: the sign, then
    ParseUint; a syntax error returns 0, a value outside [int] returns the
    nearest bound with a range error. *)
Definition ParseInt (s : string) : Z * option strconv_error :=
  match s with
  | EmptyString => (0, Some ErrSyntax)
  | _ =>
    let '(neg, body) :=
      match s with
      | String "+"%char s' => (false, s')
      | String "-"%char s' => (true, s')
      | _ => (false, s)
      end in
    let '(un, err) := ParseUint body in
    match err with
    | Some ErrSyntax => (0, Some ErrSyntax)
    | _ =>
      let cutoff := 2 ^ 63 in
      if decide (neg = false ∧ un >= cutoff) then (cutoff - 1, Some ErrRange)
      else if decide (neg = true ∧ un > cutoff) then (- cutoff, Some ErrRange)
      else (if (neg : bool) then - un else un, None)
    end
  end.

(** [strconv.Atoi] on a 64-bit platform.  A string of 1 to 18 bytes is read
    by the loop of Atoi itself: an optional sign and at least one decimal
    digit, anything else a syntax error with the value 0.  Every other
    string goes through ParseInt, whose error is returned as an error of
    Atoi. *)
Definition Atoi (s : string) : Z * option error :=
  let sLen := Z.of_nat (String.length s) in
  if decide (0 < sLen < 19) then
    let '(neg, body) :=
      match s with
      | String "-"%char s' => (true, s')
      | String "+"%char s' => (false, s')
      | _ => (false, s)
      end in
    match body with
    | EmptyString => (0, Some (ErrAtoi s false))
    | _ =>
      match digits body 0 with
      | None => (0, Some (ErrAtoi s false))
      | Some n => (if (neg : bool) then - n else n, None)
      end
    end
  else
    let '(i64, err) := ParseInt s in
    (i64, (λ e, ErrAtoi s match e with ErrRange => true | ErrSyntax => false end)
          <$> err).

Module Request.
(** The two values of the posted form that findSP reads with
    [r.PostFormValue]; a missing value is the empty string. *)
Record t : Type := mk { sourcevert : string; targetvert : string }.
End Request.

(** ** Dijkstra's shortest path on the spanning tree *)

Module DijksraSP.
(** [type DijksraSP struct], over the type [F] of float64. *)
Record over (F : Type) : Type := mk {
  edgeTo : list (option loc);   (* edge to vertex w *)
  distTo : list F;              (* distance to w from source *)
  adj : list (list loc);        (* adjacency list *)
  mst : list (option loc);      (* reference PrimMST *)
  graph : list (list F);        (* reference PrimMST *)
  location : list (F * F);      (* reference PrimMST *)
  plot : option PlotT.t;        (* reference PrimMST *)
  source : Z;
  target : Z;
  endpoints : Endpoints.over F;
}.
Arguments mk {F} _ _ _ _ _ _ _ _ _ _.
Arguments edgeTo {F} _.
Arguments distTo {F} _.
Arguments adj {F} _.
Arguments mst {F} _.
Arguments graph {F} _.
Arguments location {F} _.
Arguments plot {F} _.
Arguments source {F} _.
Arguments target {F} _.
Arguments endpoints {F} _.

Abbreviation t := (over float64).

Definition set_source {F} (x : Z) (d : over F) : over F :=
  mk (edgeTo d) (distTo d) (adj d) (mst d) (graph d) (location d) (plot d)
     x (target d) (endpoints d).
Definition set_target {F} (x : Z) (d : over F) : over F :=
  mk (edgeTo d) (distTo d) (adj d) (mst d) (graph d) (location d) (plot d)
     (source d) x (endpoints d).
Definition set_plot {F} (pl : option PlotT.t) (d : over F) : over F :=
  mk (edgeTo d) (distTo d) (adj d) (mst d) (graph d) (location d) pl
     (source d) (target d) (endpoints d).
(** [edgeTo], [distTo] and [adj] *)
Definition set_search {F} (eT : list (option loc)) (dT : list F)
    (a : list (list loc)) (d : over F) : over F :=
  mk eT dT a (mst d) (graph d) (location d) (plot d)
     (source d) (target d) (endpoints d).

(** What findSP changes while it searches: the edge objects,
    [dsp.edgeTo], [dsp.distTo] and the queue. *)
Record vars_over (F : Type) : Type := mkvars {
  edges : store;
  vedgeTo : list (option loc);
  vdistTo : list F;
  pq : gmap Z (Item.over F);
}.
Arguments mkvars {F} _ _ _ _.
Arguments edges {F} _.
Arguments vedgeTo {F} _.
Arguments vdistTo {F} _.
Arguments pq {F} _.

Abbreviation vars := (vars_over float64).

Section methods.
Context `{Float64}.

(** *** findSP *)

(** [for _, e := range dsp.mst[1:]]: every edge of the tree is appended
    to the lists of both its ends. *)
Fixpoint build_adj (h : store) (es : list (option loc)) (a : list (list loc))
    : outcome (list (list loc)) :=
  match es with
  | [] => Done a
  | e :: es' =>
    ed ← deref h e;
    let l := default O e in
    av ← slice_get a (Edge.v ed);
    a ← slice_set a (Edge.v ed) (av ++ [l]);
    aw ← slice_get a (Edge.w ed);
    a ← slice_set a (Edge.w ed) (aw ++ [l]);
    build_adj h es' a
  end.

(** The body of [for _, e := range dsp.adj[v]] in [relax]. *)
Fixpoint relax_range (g : list (list float64)) (v : Z) (es : list loc)
    (s : vars) : outcome vars :=
  match es with
  | [] => Done s
  | l :: es' =>
    e ← deref (edges s) (Some l);
    (* Determine v and w on the edge *)
    let '(w, edges') :=
      if decide (Edge.w e = v)
      then (Edge.v e, <[l := Edge.swap e]> (edges s))
      else (Edge.w e, edges s) in
    dv ← slice_get (vdistTo s) v;
    gv ← slice_get g v;
    gvw ← slice_get gv w;
    let newDistance := f_add dv gvw in
    dw ← slice_get (vdistTo s) w;
    if f_lt newDistance dw then
      (* Edge to w is new best connection from source to w *)
      edgeTo' ← slice_set (vedgeTo s) w (Some l);
      dv ← slice_get (vdistTo s) v;
      gv ← slice_get g v;
      gvw ← slice_get gv w;
      distTo' ← slice_set (vdistTo s) w (f_add dv gvw);
      (* Check if already in the queue and update *)
      pq' ← match pq s !! w with
             | Some _ => PriorityQueue.update (pq s) w newDistance
             | None => heap.push (pq s) (Item.mk (Edge.mk v w) 0 newDistance)
             end;
      relax_range g v es' (mkvars edges' edgeTo' distTo' pq')
    else relax_range g v es' (mkvars edges' (vedgeTo s) (vdistTo s) (pq s))
  end.

(** The closure [relax] *)
Definition relax (g : list (list float64)) (a : list (list loc)) (v : Z)
    (s : vars) : outcome vars :=
  es ← slice_get a v;
  relax_range g v es s.

(** [for pq.Len() > 0 { heap.Pop(&pq) }] *)
Fixpoint drain (fuel : nat) (q : PriorityQueue) : outcome PriorityQueue :=
  if decide (PriorityQueue.Len q > 0) then
    match fuel with
    | O => OutOfFuel
    | S fuel => '(_, q) ← heap.pop q; drain fuel q
    end
  else Done q.

(** The loop of findSP, until the target is popped or the queue is
    empty. *)
Fixpoint findSP_loop (fuel : nat) (g : list (list float64))
    (a : list (list loc)) (tgt : Z) (s : vars) : outcome vars :=
  match fuel with
  | O => OutOfFuel
  | S fuel =>
    if decide (PriorityQueue.Len (pq s) > 0) then
      '(item, pq') ← heap.pop (pq s);
      if decide (Item.w item = tgt) then
        (* empty the priority queue to avoid memory leak *)
        pq' ← drain (size pq') pq';
        Done (mkvars (edges s) (vedgeTo s) (vdistTo s) pq')
      else
        s ← relax g a (Item.w item)
              (mkvars (edges s) (vedgeTo s) (vdistTo s) pq');
        findSP_loop fuel g a tgt s
    else Done s
  end.

(** findSP past the check of the endpoints: the search from
    [dsp.source]. *)
Definition findSP_search (fuel : nat) (h : store) (dsp : t)
    : outcome (option error * store * t) :=
  let n := length (location dsp) in
  let edgeTo0 := replicate n None in
  let distTo0 := replicate n MaxFloat64 in
  let pq0 : PriorityQueue := ∅ in
  (* Create the adjacency list *)
  es ← slice_from1 (mst dsp);
  a ← build_adj h es (replicate n []);
  (* Starting index is source, distance to itself is 0 *)
  distTo0 ← slice_set distTo0 (source dsp) (float_of_int 0);
  let pq0 :=
    <[0 := Item.mk (Edge.mk (source dsp) (source dsp)) 0 (float_of_int 0)]> pq0 in
  pq0 ← heap.Init pq0;
  s ← findSP_loop fuel (graph dsp) a (target dsp) (mkvars h edgeTo0 distTo0 pq0);
  Done (None, edges s, set_search (vedgeTo s) (vdistTo s) a dsp).

(** findSP, from the store [h] of edge objects; the result is the
    returned [error], the store and the receiver. *)
Definition findSP (fuel : nat) (h : store) (dsp : t) (r : Request.t)
    : outcome (option error * store * t) :=
  let sourceVert := Request.sourcevert r in
  let targetVert := Request.targetvert r in
  if decide (String.length sourceVert = O ∨ String.length targetVert = O)
  then Done (Some ErrNotSet, h, dsp)
  else
    let '(src, err) := Atoi sourceVert in
    let dsp := set_source src dsp in
    match err with
    | Some e => Done (Some e, h, dsp)
    | None =>
      let '(tgt, err) := Atoi targetVert in
      let dsp := set_target tgt dsp in
      match err with
      | Some e => Done (Some e, h, dsp)
      | None =>
        let vertices := len (location dsp) in
        if decide (source dsp = target dsp ∨ source dsp < 0 ∨ target dsp < 0 ∨
                   source dsp > vertices - 1 ∨ target dsp > vertices - 1)
        then Done (Some ErrInvalidVertices, h, dsp)
        else findSP_search fuel h dsp
      end
    end.

(** *** plotSP *)

(** The loop that walks from the target back to the source: draw the
    edge [e], stop if it starts at the source, else step to the edge
    into [e.v], turned so that it ends in [e.v].  The result is the
    store, the distance, the grid and [firstEdge]. *)
Fixpoint walk (fuel : nat) (dsp : t) (h : store) (e : option loc)
    (distance : float64) (grid : option Grid.t)
    : outcome (store * float64 * Grid.t * option loc) :=
  match fuel with
  | O => OutOfFuel
  | S fuel =>
    ed ← deref h e;
    let v := Edge.v ed in
    let w := Edge.w ed in
    start ← slice_get (location dsp) v;
    end_ ← slice_get (location dsp) w;
    grid ← match grid with
            | Some grid => Done grid
            | None => Panic NilPointerDereference
            end;
    '(distance, grid) ← draw_edge (endpoints dsp) "edgeSP" start end_ distance grid;
    (* exit the loop if source is reached, we have the SP *)
    if decide (Edge.v ed = source dsp) then Done (h, distance, grid, e)
    else
      (* move forward to the next edge *)
      e ← slice_get (edgeTo dsp) v;
      ed ← deref h e;
      let h := if decide (Edge.w ed ≠ v)
               then <[default O e := Edge.swap ed]> h else h in
      walk fuel dsp h e distance (Some grid)
  end.

(** plotSP, with [dsp.plot] the plot of plotMST; the result is the
    returned [error], the store and the receiver. *)
Definition plotSP (fuel : nat) (h : store) (dsp : t)
    : outcome (option error * store * t) :=
  (* check if the target was found in findSP *)
  guard ← (if decide (len (distTo dsp) = 0) then Done true
           else d ← slice_get (distTo dsp) (target dsp); Done (f_eq d MaxFloat64));
  if (guard : bool) then Done (Some (ErrNotFound (target dsp)), h, dsp)
  else
    let ep := endpoints dsp in
    e ← slice_get (edgeTo dsp) (target dsp);
    '(h, distance, grid, firstEdge) ←
      walk fuel dsp h e (float_of_int 0) (PlotT.Grid <$> plot dsp);
    (* Mark the end vertices of the shortest path *)
    e ← slice_get (edgeTo dsp) (target dsp);
    ed ← deref h e;
    z ← slice_get (location dsp) (Edge.w ed);
    pl ← match plot dsp with
          | Some pl => Done pl
          | None => Panic NilPointerDereference
          end;
    grid ← highlight ep "vertexSP2" z.1 z.2 grid;
    let pl := PlotT.set_target (fmt_location z.1 z.2) (Itoa (Edge.w ed)) pl in
    fe ← deref h firstEdge;
    z ← slice_get (location dsp) (Edge.v fe);
    grid ← highlight ep "vertexSP1" z.1 z.2 grid;
    let pl := PlotT.set_source (fmt_location z.1 z.2) (Itoa (Edge.v fe)) pl in
    let pl := PlotT.set_DistanceSP (fmt_2f distance) pl in
    Done (None, h, set_plot (Some (PlotT.set_Grid grid pl)) dsp).
End methods.
End DijksraSP.

(** ** The handler *)

(** [strings.Join(status, ", ")] *)
Fixpoint Join (status : list string) : string :=
  match status with
  | [] => ""
  | [s] => s
  | s :: rest => s +:+ ", " +:+ Join rest
  end.

(** [status = append(status, err.Error())] when [err != nil] *)
Definition record_error (status : list string) (err : option error) : list string :=
  match err with
  | Some e => status ++ [Error e]
  | None => status
  end.

(** handleDijkstraSP after generateVertices has set the locations and the
    bounds (reading the file and the random generator are left out): the
    calls in the order of the source, on one store of edge objects, the
    errors collected in [status].  The result is the plot handed to the
    template. *)
Definition handleDijkstraSP `{Float64} (fuel : nat) (location : list complex128)
    (ep : Endpoints.t) (r : Request.t) : outcome PlotT.t :=
  let primmst := PrimMST.mk [] location [] ep None in
  let status : list string := [] in
  let '(err, primmst) := PrimMST.findDistances primmst in
  let status := record_error status err in
  '(err, h, primmst, _) ← PrimMST.findMST fuel [] primmst;
  let status := record_error status err in
  let dijkstrasp :=
    DijksraSP.mk [] [] [] (PrimMST.mst primmst) (PrimMST.graph primmst)
      (PrimMST.location primmst) None 0 0 (PrimMST.endpoints primmst) in
  '(err, h, dijkstrasp) ← DijksraSP.findSP fuel h dijkstrasp r;
  let status := record_error status err in
  '(err, primmst) ← PrimMST.plotMST h primmst;
  let status := record_error status err in
  let dijkstrasp := DijksraSP.set_plot (PrimMST.plot primmst) dijkstrasp in
  '(err, h, dijkstrasp) ← DijksraSP.plotSP fuel h dijkstrasp;
  let status := record_error status err in
  pl ← match DijksraSP.plot dijkstrasp with
        | Some pl => Done pl
        | None => Panic NilPointerDereference
        end;
  Done (PlotT.set_Status
          (if decide (len status > 0) then Join status
           else "Enter Source and Target Vertices (0-V-1) for another SP") pl).

(** handleDijkstraSP with the outcome of generateVertices given: the
    locations and the bounds it left in the receiver and, when it returned
    an error, the message of that error, which is the first entry of
    [status].  Without a message this is [handleDijkstraSP]. *)
Definition handleDijkstraSP_after `{Float64} (generated : option string)
    (fuel : nat) (location : list complex128) (ep : Endpoints.t) (r : Request.t)
    : outcome PlotT.t :=
  let primmst := PrimMST.mk [] location [] ep None in
  let status : list string := [] in
  let status := match generated with
                | Some message => status ++ [message]
                | None => status
                end in
  let '(err, primmst) := PrimMST.findDistances primmst in
  let status := record_error status err in
  '(err, h, primmst, _) ← PrimMST.findMST fuel [] primmst;
  let status := record_error status err in
  let dijkstrasp :=
    DijksraSP.mk [] [] [] (PrimMST.mst primmst) (PrimMST.graph primmst)
      (PrimMST.location primmst) None 0 0 (PrimMST.endpoints primmst) in
  '(err, h, dijkstrasp) ← DijksraSP.findSP fuel h dijkstrasp r;
  let status := record_error status err in
  '(err, primmst) ← PrimMST.plotMST h primmst;
  let status := record_error status err in
  let dijkstrasp := DijksraSP.set_plot (PrimMST.plot primmst) dijkstrasp in
  '(err, h, dijkstrasp) ← DijksraSP.plotSP fuel h dijkstrasp;
  let status := record_error status err in
  pl ← match DijksraSP.plot dijkstrasp with
        | Some pl => Done pl
        | None => Panic NilPointerDereference
        end;
  Done (PlotT.set_Status
          (if decide (len status > 0) then Join status
           else "Enter Source and Target Vertices (0-V-1) for another SP") pl).

(** ** Exact arithmetic as float64, for the concrete runs *)

Module QFloat.
Definition add (a b : Q) : Q := Qred (Qplus a b).
Definition sub (a b : Q) : Q := Qred (Qminus a b).
Definition mul (a b : Q) : Q := Qred (Qmult a b).
Definition div (a b : Q) : Q := Qred (Qdiv a b).
Definition lt (a b : Q) : bool :=
  match Qcompare a b with Lt => true | _ => false end.
Definition eq (a b : Q) : bool := Qeq_bool a b.

(** Truncation toward zero. *)
Definition to_int (q : Q) : Z := Qnum q `quot` Zpos (Qden q).

(** The square root of [a*a + b*b], rounded down to a multiple of
    [2^-64 / den]; exact when [a*a + b*b] is the square of a rational. *)
Definition hypot (a b : Q) : Q :=
  let s := Qred (Qplus (Qmult a a) (Qmult b b)) in
  let k := (2 ^ 64)%positive in
  Qred (Qmake (Z.sqrt (Qnum s * Zpos (Qden s) * Zpos k * Zpos k)) (Qden s * k)).

(** Two decimals, the last one rounded half up on the absolute value. *)
Definition fmt_2f (q : Q) : string :=
  let r := (2 * 100 * Z.abs (Qnum q) + Zpos (Qden q)) `div` (2 * Zpos (Qden q)) in
  let frac := r `mod` 100 in
  (if decide (Qnum q < 0 ∧ 0 < r) then "-" else "") +:+
  pretty (r `div` 100) +:+ "." +:+
  (if decide (frac < 10) then "0" else "") +:+ pretty frac.

(** The largest finite float64, [2^1024 - 2^971]. *)
Definition MaxFloat64 : Q := inject_Z (2 ^ 1024 - 2 ^ 971).
End QFloat.

#[global] Instance Q_float64 : Float64 := {|
  float64 := Q;
  MaxFloat64 := QFloat.MaxFloat64;
  float_of_int := inject_Z;
  f_half := Qmake 1 2;
  f_add := QFloat.add;
  f_sub := QFloat.sub;
  f_mul := QFloat.mul;
  f_div := QFloat.div;
  f_lt := QFloat.lt;
  f_eq := QFloat.eq;
  hypot := QFloat.hypot;
  int_of_float := QFloat.to_int;
  fmt_2f := QFloat.fmt_2f;
|}.

(** ** Notions used to state the properties *)

Section notions.
Context `{Float64}.

(** The guard of plotSP: the distance slice is empty, or the distance of
    the target equals MaxFloat64. *)
Definition target_not_found (dsp : DijksraSP.t) : Prop :=
  len (DijksraSP.distTo dsp) = 0 ∨
  ∃ d, slice_get (DijksraSP.distTo dsp) (DijksraSP.target dsp) = Done d ∧
       f_eq d MaxFloat64 = true.

(** The receivers of the handler: [primmst] after findDistances and
    [dijkstrasp] after the assignments that share the tree with it. *)
Definition primmst_of (location : list complex128) (ep : Endpoints.t) : PrimMST.t :=
  (PrimMST.findDistances (PrimMST.mk [] location [] ep None)).2.

Definition dijkstrasp_of (primmst : PrimMST.t) : DijksraSP.t :=
  DijksraSP.mk [] [] [] (PrimMST.mst primmst) (PrimMST.graph primmst)
    (PrimMST.location primmst) None 0 0 (PrimMST.endpoints primmst).
End notions.

(** [e'] connects the vertices that [e] connects: it is [e], or [e] with
    its fields [v] and [w] exchanged. *)
Definition same_ends (e e' : Edge.t) : Prop := e' = e ∨ e' = Edge.swap e.

(** Every edge object of [h] is still there in [h'] and connects the same
    two vertices. *)
Definition ends_kept (h h' : store) : Prop :=
  ∀ l e, h !! l = Some e → ∃ e', h' !! l = Some e' ∧ same_ends e e'.

Section raster_notions.
Context `{Float64}.

(** The cells that [draw_loop] writes, in order. *)
Fixpoint sample_cells (ep : Endpoints.t) (n : nat) (x y stepX stepY : float64)
    : list Z :=
  match n with
  | O => []
  | S n' =>
    cell_of ep x y :: sample_cells ep n' (f_add x stepX) (f_add y stepY) stepX stepY
  end.

(** The cells of the samples of the edge from [start] to [end_]. *)
Definition edge_samples (ep : Endpoints.t) (start end_ : complex128) : list Z :=
  let ncells := ncells_of ep (c_abs (c_sub end_ start)) in
  sample_cells ep (Z.to_nat ncells) start.1 start.2
    (f_div (f_sub end_.1 start.1) (float_of_int ncells))
    (f_div (f_sub end_.2 start.2) (float_of_int ncells)).

(** The cells of the samples of the edge [ed] between the locations of
    its ends. *)
Definition edge_cells (ep : Endpoints.t) (location : list complex128)
    (ed : Edge.t) : list Z :=
  match slice_get location (Edge.v ed), slice_get location (Edge.w ed) with
  | Done a, Done b => edge_samples ep a b
  | _, _ => []
  end.

(** The five cells that [highlight] writes for the vertex at (x, y). *)
Definition highlight_cells (ep : Endpoints.t) (x y : float64) : list Z :=
  let row := row_of ep y in
  let col := col_of ep x in
  [row * columns + col; (row + 1) * columns + col; (row - 1) * columns + col;
   row * columns + col + 1; row * columns + col - 1].

(** The vertex at [z] is an end of the edge [ed]. *)
Definition is_end (location : list complex128) (ed : Edge.t) (z : complex128)
    : Prop :=
  slice_get location (Edge.v ed) = Done z ∨ slice_get location (Edge.w ed) = Done z.

(** The statement that every end of every edge of the tree, slots 1 and
    up, has its cell labeled "vertex" in the grid of the plot. *)
Definition ends_labeled_vertex (h : store) (p : PrimMST.t) (pl : PlotT.t) : Prop :=
  ∀ (k : nat) (l : loc) (ed : Edge.t) (z : complex128),
    (1 ≤ k)%nat → PrimMST.mst p !! k = Some (Some l) → h !! l = Some ed →
    is_end (PrimMST.location p) ed z →
    Grid.get (PlotT.Grid pl) (cell_of (PrimMST.endpoints p) z.1 z.2) = Done "vertex".
End raster_notions.

Section queue_notions.
Context `{Float64}.

(** The shape of the queue that the heap functions rely on and keep: the
    items sit under the keys 0 .. Len-1 and every item records its key in
    [index]; moreover the vertex [w] of every item satisfies [P]. *)
Definition pq_items (P : Z → Prop) (pq : PriorityQueue) : Prop :=
  (∀ k, is_Some (pq !! k) ↔ 0 ≤ k < PriorityQueue.Len pq) ∧
  (∀ k it, pq !! k = Some it → Item.index it = k ∧ P (Item.w it)).

(** A queue of that shape whose items are for vertices below [n]. *)
Definition pq_wf (n : Z) (pq : PriorityQueue) : Prop :=
  pq_items (λ w, 0 ≤ w < n) pq.

(** [<] on float64 is a strict order (so it is for IEEE 754, also in the
    presence of NaN). *)
Definition lt_strict : Prop :=
  (∀ x, f_lt x x = false) ∧
  (∀ x y z, f_lt x y = true → f_lt y z = true → f_lt x z = true).
End queue_notions.

Section mst_notions.
Context `{Float64}.

(** The matrix has [n] rows of [n] entries. *)
Definition square (n : nat) (g : list (list float64)) : Prop :=
  length g = n ∧ ∀ row, row ∈ g → length row = n.

(** The variables of findMST have the sizes that the [n] vertices ask
    for, and the queue is well formed. *)
Definition vars_wf (n : nat) (s : PrimMST.vars) : Prop :=
  length (PrimMST.marked s) = n ∧ length (PrimMST.distTo s) = n ∧
  length (PrimMST.tree s) = n ∧ pq_wf (Z.of_nat n) (PrimMST.pq s).

(** The edge from [vw.1] to the unmarked vertex [vw.2] would still lower
    [distTo[vw.2]]. *)
Definition pending (g : list (list float64)) (marked : list bool)
    (distTo : list float64) (vw : nat * nat) : bool :=
  match marked !! vw.2, g !! vw.1 ≫= (.!! vw.2), distTo !! vw.2 with
  | Some false, Some d, Some dw => f_lt d dw
  | _, _, _ => false
  end.

(** The number of elements of [l] on which [P] holds. *)
Fixpoint count {A} (P : A → bool) (l : list A) : nat :=
  match l with
  | [] => O
  | x :: l' => (if P x then 1 else 0) + count P l'
  end.

(** What bounds the rest of the loop of findMST: the items in the queue
    and the pending pairs of vertices. *)
Definition work (g : list (list float64)) (n : nat) (s : PrimMST.vars) : Z :=
  PriorityQueue.Len (PrimMST.pq s) +
  Z.of_nat (count (pending g (PrimMST.marked s) (PrimMST.distTo s))
                  (list_prod (seq 0 n) (seq 0 n))).

(** The edges that the slots of the tree point to. *)
Definition tree_edges (h : store) (tree : list (option loc)) : list (option Edge.t) :=
  (λ p : option loc, p ≫= (h !!.)) <$> tree.
End mst_notions.

(** Two runs end the same way: with related values, with the same panic,
    or both cut. *)
Definition outcome_rel {A B} (R : A → B → Prop) (o1 : outcome A) (o2 : outcome B) : Prop :=
  match o1, o2 with
  | Done a, Done b => R a b
  | Panic p, Panic q => p = q
  | OutOfFuel, OutOfFuel => True
  | _, _ => False
  end.

Section sim_notions.
Context `{Float64}.

(** Every pointer of the tree points into the store. *)
Definition tree_valid (h : store) (tree : list (option loc)) : Prop :=
  ∀ i l, tree !! i = Some (Some l) → (l < length h)%nat.

(** Two states of findMST that differ in the store and in the pointers
    only: the slots of the trees point to equal edges. *)
Definition vars_sim (s1 s2 : PrimMST.vars) : Prop :=
  PrimMST.marked s1 = PrimMST.marked s2 ∧ PrimMST.distTo s1 = PrimMST.distTo s2 ∧
  PrimMST.pq s1 = PrimMST.pq s2 ∧
  tree_edges (PrimMST.edges s1) (PrimMST.tree s1)
  = tree_edges (PrimMST.edges s2) (PrimMST.tree s2) ∧
  tree_valid (PrimMST.edges s1) (PrimMST.tree s1) ∧
  tree_valid (PrimMST.edges s2) (PrimMST.tree s2).

(** Two results of findMST with the same error, equal edges in the slots
    of the trees and the same popped vertices. *)
Definition same_tree (r1 r2 : option error * store * PrimMST.t * list Z) : Prop :=
  r1.1.1.1 = r2.1.1.1 ∧
  tree_edges r1.1.1.2 (PrimMST.mst r1.1.2) = tree_edges r2.1.1.2 (PrimMST.mst r2.1.2) ∧
  r1.2 = r2.2.
End sim_notions.

Section tree_notions.
Context `{Float64}.

(** Every slot of the tree that is set points to an edge object that
    leads from a marked vertex, other than the vertex of the slot, to the
    vertex of the slot. *)
Definition tree_ok (n : nat) (s : PrimMST.vars) : Prop :=
  ∀ i l, PrimMST.tree s !! i = Some (Some l) →
    ∃ e, PrimMST.edges s !! l = Some e ∧ Edge.w e = Z.of_nat i ∧
         0 ≤ Edge.v e < Z.of_nat n ∧ Edge.v e ≠ Z.of_nat i ∧
         PrimMST.marked s !! Z.to_nat (Edge.v e) = Some true.

(** Every slot from 1 on is set. *)
Definition tree_full (n : nat) (tree : list (option loc)) : Prop :=
  ∀ i, (1 ≤ i < n)%nat → ∃ l, tree !! i = Some (Some l).

(** The entries of row 0 of the matrix off the diagonal are below
    MaxFloat64. *)
Definition root_row_finite (n : nat) (g : list (list float64)) : Prop :=
  ∀ gv i d, g !! O = Some gv → (1 ≤ i < n)%nat → gv !! i = Some d →
            f_lt d MaxFloat64 = true.
End tree_notions.

(** ** Concrete inputs *)

(** The vertex at the integer point (x, y). *)
Definition at_point (x y : Z) : Q * Q := (inject_Z x, inject_Z y).

(** The bounds (0, 0) - (299, 299): one cell of the grid per unit. *)
Definition bounds299 : Endpoints.over Q :=
  Endpoints.mk (inject_Z 0) (inject_Z 299) (inject_Z 0) (inject_Z 299).

(** Three vertices in a row, 10 apart. *)
Definition row3 : list (Q * Q) :=
  [at_point 10 150; at_point 20 150; at_point 30 150].

(** Four vertices in a row: vertex 3, the root 0, vertex 2, vertex 1, each
    20 from the next. *)
Definition row4 : list (Q * Q) :=
  [at_point 30 150; at_point 70 150; at_point 50 150; at_point 10 150].

(** Two vertices in the middle row of the grid. *)
Definition pair_mid : list (Q * Q) :=
  [at_point 30 150; at_point 70 150].

(** Two vertices at y = ymin, in the bottom row of the grid. *)
Definition pair_bottom : list (Q * Q) :=
  [at_point 30 0; at_point 70 0].

(** Two vertices, vertex 1 at y = ymin, in the bottom row of the grid. *)
Definition pair_target_bottom : list (Q * Q) :=
  [at_point 30 150; at_point 70 0].

(** Two vertices, the root at x = xmax, in the last column of the grid. *)
Definition pair_right : list (Q * Q) :=
  [at_point 299 150; at_point 250 150].

(** Five vertices; vertex 3 lies close to the segment from vertex 2 to
    vertex 4. *)
Definition five : list (Q * Q) :=
  [at_point 193 178; at_point 179 63; at_point 154 125; at_point 255 74;
   at_point 287 58].

(** The receivers of findMST for [row3] and [row4]. *)
Definition row3_start : PrimMST.over Q := primmst_of row3 bounds299.
Definition row4_start : PrimMST.over Q := primmst_of row4 bounds299.

(** No vertex. *)
Definition no_vertex : PrimMST.over Q := primmst_of [] bounds299.

(** The store and the receiver that findMST leaves for [row4], and the
    receiver of the shortest path that shares its tree. *)
Definition row4_store : store :=
  Eval vm_compute in
    match PrimMST.findMST 20 [] (primmst_of row4 bounds299) with
    | Done (_, h, _, _) => h
    | _ => []
    end.

Definition row4_prim : PrimMST.over Q :=
  Eval vm_compute in
    match PrimMST.findMST 20 [] (primmst_of row4 bounds299) with
    | Done (_, _, p, _) => p
    | _ => primmst_of row4 bounds299
    end.

Definition row4_dsp : DijksraSP.over Q := dijkstrasp_of row4_prim.

(** The query from vertex 2 to vertex 3 on [row4]: what findSP leaves, and
    the plot of plotMST after it. *)
Definition row4_23 : Request.t := Request.mk "2" "3".

Definition row4_23_store : store :=
  Eval vm_compute in
    match DijksraSP.findSP 20 row4_store row4_dsp row4_23 with
    | Done (_, h, _) => h
    | _ => []
    end.

Definition row4_23_dsp : DijksraSP.over Q :=
  Eval vm_compute in
    match DijksraSP.findSP 20 row4_store row4_dsp row4_23 with
    | Done (_, _, d) => d
    | _ => row4_dsp
    end.

Definition row4_23_prim : PrimMST.over Q :=
  Eval vm_compute in
    match PrimMST.plotMST row4_23_store row4_prim with
    | Done (_, p) => p
    | _ => row4_prim
    end.

(** The query from vertex 3 to vertex 2 on [row4]. *)
Definition row4_32 : Request.t := Request.mk "3" "2".

Definition row4_32_store : store :=
  Eval vm_compute in
    match DijksraSP.findSP 20 row4_store row4_dsp row4_32 with
    | Done (_, h, _) => h
    | _ => []
    end.

Definition row4_32_dsp : DijksraSP.over Q :=
  Eval vm_compute in
    match DijksraSP.findSP 20 row4_store row4_dsp row4_32 with
    | Done (_, _, d) => d
    | _ => row4_dsp
    end.

Definition row4_32_prim : PrimMST.over Q :=
  Eval vm_compute in
    match PrimMST.plotMST row4_32_store row4_prim with
    | Done (_, p) => p
    | _ => row4_prim
    end.

Definition row4_32_final : store * DijksraSP.over Q :=
  Eval vm_compute in
    match DijksraSP.plotSP 20 row4_32_store
            (DijksraSP.set_plot (PrimMST.plot row4_32_prim) row4_32_dsp) with
    | Done (_, h, d) => (h, d)
    | _ => ([], row4_32_dsp)
    end.

(** The receiver of plotMST for [pair_mid], after findMST. *)
Definition pair_mid_store : store :=
  Eval vm_compute in
    match PrimMST.findMST 20 [] (primmst_of pair_mid bounds299) with
    | Done (_, h, _, _) => h
    | _ => []
    end.

Definition pair_mid_prim : PrimMST.over Q :=
  Eval vm_compute in
    match PrimMST.findMST 20 [] (primmst_of pair_mid bounds299) with
    | Done (_, _, p, _) => p
    | _ => primmst_of pair_mid bounds299
    end.

Definition pair_mid_plotted : PrimMST.over Q :=
  Eval vm_compute in
    match PrimMST.plotMST pair_mid_store pair_mid_prim with
    | Done (_, p) => p
    | _ => pair_mid_prim
    end.

(** The receiver of plotMST for [five], after findMST, and its plot. *)
Definition five_store : store :=
  Eval vm_compute in
    match PrimMST.findMST 40 [] (primmst_of five bounds299) with
    | Done (_, h, _, _) => h
    | _ => []
    end.

Definition five_prim : PrimMST.over Q :=
  Eval vm_compute in
    match PrimMST.findMST 40 [] (primmst_of five bounds299) with
    | Done (_, _, p, _) => p
    | _ => primmst_of five bounds299
    end.

Definition five_plotted : PrimMST.over Q :=
  Eval vm_compute in
    match PrimMST.plotMST five_store five_prim with
    | Done (_, p) => p
    | _ => five_prim
    end.

Definition five_plot : PlotT.t :=
  Eval vm_compute in default PlotT.zero (PrimMST.plot five_plotted).

(** ** Notions for the properties of the single functions *)

(** The entry [g[i][j]] of a matrix, if there is one. *)
Definition entry {A} (g : list (list A)) (i j : nat) : option A :=
  g !! i ≫= (.!! j).

Section item_notions.
Context `{Float64}.

(** The queue holds an item for the vertex [w]. *)
Definition has_item (pq : PriorityQueue) (w : Z) : Prop :=
  ∃ k it, pq !! k = Some it ∧ Item.w it = w.
End item_notions.

(** A queue of one item, for the edge from vertex 0 to vertex 1, and an item
    for the edge from vertex 1 to vertex 2. *)
Definition queue_01 : gmap Z (Item.over Q) :=
  <[0 := Item.mk (Edge.mk 0 1) 0 (inject_Z 5)]> ∅.
Definition item_12 : Item.over Q := Item.mk (Edge.mk 1 2) 0 (inject_Z 3).

(** A queue of two items. *)
Definition queue_01_12 : gmap Z (Item.over Q) :=
  <[1 := Item.mk (Edge.mk 1 2) 1 (inject_Z 7)]> queue_01.

(** The plot of plotMST for [row4] on the store that findMST left. *)
Definition row4_plotted : PrimMST.over Q :=
  Eval vm_compute in
    match PrimMST.plotMST row4_store row4_prim with
    | Done (_, p) => p
    | _ => row4_prim
    end.

Definition row4_plot : PlotT.t :=
  Eval vm_compute in default PlotT.zero (PrimMST.plot row4_plotted).

(** A query on [row4] with a source that is no vertex. *)
Definition row4_71 : Request.t := Request.mk "7" "1".

(** A query on [row4] with a target that does not fit int, the digits
    followed by a letter. *)
Definition row4_big : Request.t := Request.mk "1" "99999999999999999999x".

(** The string holds bytes below 0x80 only. *)
Fixpoint ascii_only (s : string) : Prop :=
  match s with
  | EmptyString => True
  | String c s' => (Ascii.nat_of_ascii c < 128)%nat ∧ ascii_only s'
  end.

(** ** findDistances, loop by loop *)

Section distances_loops.
Context `{Float64}.

(** [g[i][j] = x] *)
Definition matrix_set (g : list (list float64)) (i j : Z) (x : float64)
    : outcome (list (list float64)) :=
  row ← slice_get g i;
  row ← slice_set row j x;
  slice_set g i row.

(** [for j := i + 1; j < verts; j++ { ... }], with [k] iterations left. *)
Fixpoint distances_inner (loc : list complex128) (i : Z) (k : nat) (j : Z)
    (g : list (list float64)) : outcome (list (list float64)) :=
  match k with
  | O => Done g
  | S k' =>
    zi ← slice_get loc i;
    zj ← slice_get loc j;
    let distance := c_abs (c_sub zi zj) in
    g ← matrix_set g i j distance;
    g ← matrix_set g j i distance;
    distances_inner loc i k' (j + 1) g
  end.

(** [for i := 0; i < verts; i++ { for j := i + 1; ... }], with [k]
    iterations left. *)
Fixpoint distances_outer (loc : list complex128) (verts : Z) (k : nat) (i : Z)
    (g : list (list float64)) : outcome (list (list float64)) :=
  match k with
  | O => Done g
  | S k' =>
    g ← distances_inner loc i (Z.to_nat (verts - (i + 1))) (i + 1) g;
    distances_outer loc verts k' (i + 1) g
  end.

(** [for i := 0; i < verts; i++ { p.graph[i][i] = math.MaxFloat64 }] *)
Fixpoint distances_diagonal (k : nat) (i : Z) (g : list (list float64))
    : outcome (list (list float64)) :=
  match k with
  | O => Done g
  | S k' =>
    g ← matrix_set g i i MaxFloat64;
    distances_diagonal k' (i + 1) g
  end.

(** findDistances as the source writes it: the matrix of zeros that the
    two [make] give, then the writes of the three loops, each a write
    through an index that can be out of range. *)
Definition findDistances_loops (p : PrimMST.t) : outcome (option error * PrimMST.t) :=
  let verts := len (PrimMST.location p) in
  let g := replicate (Z.to_nat verts)
             (replicate (Z.to_nat verts) (float_of_int 0)) in
  g ← distances_outer (PrimMST.location p) verts (Z.to_nat verts) 0 g;
  g ← distances_diagonal (Z.to_nat verts) 0 g;
  Done (None, PrimMST.mk g (PrimMST.location p) (PrimMST.mst p)
                (PrimMST.endpoints p) (PrimMST.plot p)).

(** The matrix of [n] rows and columns with the entry [f i j] at (i, j). *)
Definition tabulate (n : nat) (f : nat → nat → float64) : list (list float64) :=
  (λ i, (λ j, f i j) <$> seq 0 n) <$> seq 0 n.

(** The entry at (a, b) when the loops over the pairs have reached the
    pair (i, j): the distance if the pair of a and b came before it, zero
    otherwise. *)
Definition entry_before (loc : list complex128) (i j a b : nat) : float64 :=
  if decide (a = b) then float_of_int 0
  else
    let '(lo, hi) := if decide (a < b)%nat then (a, b) else (b, a) in
    if decide (lo < i ∨ (lo = i ∧ hi < j))%nat then
      match loc !! lo, loc !! hi with
      | Some za, Some zb => c_abs (c_sub za zb)
      | _, _ => float_of_int 0
      end
    else float_of_int 0.

(** The entry at (a, b) when the loop over the diagonal has reached
    [i]. *)
Definition entry_diagonal (loc : list complex128) (n i a b : nat) : float64 :=
  if decide (a = b ∧ a < i)%nat then MaxFloat64
  else entry_before loc n n a b.
End distances_loops.

(** ** Notions for the tree of findMST *)

(** The vertices handed to visit before the first visit of [w]; all of
    them if [w] was never visited. *)
Fixpoint visited_before (popped : list Z) (w : Z) : list Z :=
  match popped with
  | [] => []
  | u :: popped' => if decide (u = w) then [] else u :: visited_before popped' w
  end.

(** From the vertex [w] the edges in the slots of the tree lead to the
    root, vertex 0: [w] is the root, or the slot of [w] holds an edge from
    a vertex that does. *)
Inductive reaches_root (h : store) (tree : list (option loc)) : Z → Prop :=
| reaches_root_here : reaches_root h tree 0
| reaches_root_step (w : Z) (l : loc) (e : Edge.t) :
    0 ≤ w → tree !! Z.to_nat w = Some (Some l) → h !! l = Some e →
    Edge.w e = w → reaches_root h tree (Edge.v e) → reaches_root h tree w.

Section prim_notions.
Context `{Float64}.

(** What findMST keeps for the [n] vertices of the matrix [g], with [P]
    the vertices handed to visit so far and [Q u i] saying that the entry
    of row [u] for the vertex [i] has been compared with [distTo[i]]:
    - the vertices in [P] are vertices, and they are the marked ones;
    - a slot of the tree that is set for the vertex [i] points to an
      edge object from a vertex [v] in [P] to [i], and [distTo[i]] is the
      entry of the matrix for that edge; once [i] is marked, [v] was
      visited before [i], and no vertex visited before [i] is nearer to
      [i] than [v];
    - for a vertex [i] that is not marked, no entry that has been
      compared is less than [distTo[i]]. *)
Definition prim_inv (g : list (list float64)) (n : nat) (s : PrimMST.vars)
    (P : list Z) (Q : Z → nat → Prop) : Prop :=
  (∀ u, u ∈ P → 0 ≤ u < Z.of_nat n) ∧
  (∀ i, (i < n)%nat → PrimMST.marked s !! i = Some true ↔ Z.of_nat i ∈ P) ∧
  (∀ i l, PrimMST.tree s !! i = Some (Some l) →
     ∃ e d, PrimMST.edges s !! l = Some e ∧ Edge.w e = Z.of_nat i ∧
            Edge.v e ≠ Z.of_nat i ∧ Edge.v e ∈ P ∧
            entry g (Z.to_nat (Edge.v e)) i = Some d ∧
            PrimMST.distTo s !! i = Some d ∧
            (PrimMST.marked s !! i = Some true →
             Edge.v e ∈ visited_before P (Z.of_nat i) ∧
             ∀ u du, u ∈ visited_before P (Z.of_nat i) →
                     entry g (Z.to_nat u) i = Some du → f_lt du d = false)) ∧
  (∀ i u dw du, PrimMST.marked s !! i = Some false → Q u i →
     PrimMST.distTo s !! i = Some dw → entry g (Z.to_nat u) i = Some du →
     f_lt du dw = false).

(** Every vertex below [n] was handed to visit or has an item in the
    queue. *)
Definition all_reached (n : nat) (s : PrimMST.vars) (P : list Z) : Prop :=
  ∀ i, (i < n)%nat → Z.of_nat i ∈ P ∨ has_item (PrimMST.pq s) (Z.of_nat i).

(** The edge objects of [h0] are still there, unchanged, and the slots
    of the tree point to objects allocated after them, no two slots to
    the same object. *)
Definition fresh_tree (h0 : store) (s : PrimMST.vars) : Prop :=
  h0 `prefix_of` PrimMST.edges s ∧
  (∀ i l, PrimMST.tree s !! i = Some (Some l) →
          (length h0 ≤ l < length (PrimMST.edges s))%nat) ∧
  (∀ i j l, PrimMST.tree s !! i = Some (Some l) →
            PrimMST.tree s !! j = Some (Some l) → i = j).
End prim_notions.

(** The store and the receiver that a second run of findMST leaves for
    [row4]. *)
Definition row4_again_store : store :=
  Eval vm_compute in
    match PrimMST.findMST 20 row4_store row4_prim with
    | Done (_, h, _, _) => h
    | _ => []
    end.

Definition row4_again_prim : PrimMST.over Q :=
  Eval vm_compute in
    match PrimMST.findMST 20 row4_store row4_prim with
    | Done (_, _, p, _) => p
    | _ => row4_prim
    end.

(** ** Notions for the search of findSP *)

(** The pointer [l] is in a slot of the tree, from slot 1 on. *)
Definition tree_pointer (mst : list (option loc)) (l : loc) : Prop :=
  ∃ k, (1 ≤ k)%nat ∧ mst !! k = Some (Some l).

(** The edge object at [l] in the store has the vertex [i] as one of its
    ends. *)
Definition edge_touches (h : store) (l : loc) (i : Z) : Prop :=
  ∃ ed, h !! l = Some ed ∧ (Edge.v ed = i ∨ Edge.w ed = i).

(** The pointer [l] is in one of the lists of the adjacency list. *)
Definition in_adj (a : list (list loc)) (l : loc) : Prop :=
  ∃ v es, a !! v = Some es ∧ l ∈ es.

(** ** Notions for the labels of the grid *)

(** The labels that plotMST writes, and those that plotSP writes. *)
Definition mst_labels : list string := ["edge"; "vertex"; "startvertexMSS"].
Definition sp_labels : list string := ["edgeSP"; "vertex"; "vertexSP2"; "vertexSP1"].

(** Every cell of the grid that was written is inside the slice and holds
    one of the labels of [L]. *)
Definition labelled (L : list string) (g : Grid.t) : Prop :=
  ∀ c x, Grid.cells g !! c = Some x → 0 ≤ c < Grid.length g ∧ x ∈ L.

(** The plot that the handler returns for the query from vertex 3 to
    vertex 2 on [row4]. *)
Definition row4_32_plot : PlotT.t :=
  Eval vm_compute in
    match handleDijkstraSP 20 row4 bounds299 row4_32 with
    | Done pl => pl
    | _ => PlotT.zero
    end.

(** ** Notions for the order of the heap *)

Section heap_notions.
Context `{Float64}.

(** [<] on float64 is a strict weak order: a strict order in which
    being not less is transitive (so it is on the floats that are not
    NaN). *)
Definition lt_weak : Prop :=
  lt_strict ∧
  ∀ x y z, f_lt x y = false → f_lt y z = false → f_lt x z = false.

(** [x] is a number: it compares equal to itself, as every float64 but
    NaN does. *)
Definition is_number (x : float64) : Prop := f_eq x x = true.

(** [<] on float64 as IEEE 754 has it, NaN included: a strict order; a
    value that is less than another is a number; and being not less is
    transitive through a number ([x < y] and [y < z] both false give
    [x < z] false when [y] is not NaN). *)
Definition lt_ieee : Prop :=
  lt_strict ∧
  (∀ x y, f_lt x y = true → is_number x) ∧
  ∀ x y z, is_number y → f_lt x y = false → f_lt y z = false → f_lt x z = false.

(** Every distance in the queue satisfies [ok]. *)
Definition distances_in (ok : float64 → Prop) (pq : PriorityQueue) : Prop :=
  ∀ k it, pq !! k = Some it → ok (Item.distance it).

(** No distance in the queue is NaN. *)
Definition no_NaN (pq : PriorityQueue) : Prop := distances_in is_number pq.

(** The distance of the item under the key [k]. *)
Definition dist_at (pq : PriorityQueue) (k : Z) : option float64 :=
  Item.distance <$> pq !! k.

(** [c] is a child of [i] in the heap. *)
Definition child (i c : Z) : Prop := c = 2 * i + 1 ∨ c = 2 * i + 2.

(** The distance under [c] is not less than the distance under [i]. *)
Definition ord (D : Z → option float64) (i c : Z) : Prop :=
  ∀ a b, D c = Some a → D i = Some b → f_lt a b = false.

(** The heap order on the keys below [m]: no item is less than its
    parent. *)
Definition heap_ordered_below (m : Z) (pq : PriorityQueue) : Prop :=
  ∀ i c, 0 ≤ i → child i c → c < m → ord (dist_at pq) i c.

Definition heap_ordered (pq : PriorityQueue) : Prop :=
  heap_ordered_below (PriorityQueue.Len pq) pq.

(** No item of the queue has a distance less than that of [x]. *)
Definition least (x : Item.t) (pq : PriorityQueue) : Prop :=
  ∀ k it, pq !! k = Some it → f_lt (Item.distance it) (Item.distance x) = false.

(** The queue holds an item with the edge and the distance of [x]. *)
Definition holds (pq : PriorityQueue) (x : Item.t) : Prop :=
  ∃ k it, pq !! k = Some it ∧ Item.edge it = Item.edge x ∧
          Item.distance it = Item.distance x.
End heap_notions.

(** The variables of findMST for [row4] when the loop is entered: the
    queue holds the item of the root. *)
Definition row4_first : PrimMST.vars_over Q :=
  PrimMST.mkvars [] (replicate 4 None) (replicate 4 false)
    (replicate 4 QFloat.MaxFloat64)
    (<[0 := Item.mk (Edge.mk 0 0) 0 QFloat.MaxFloat64]> ∅).

(** The variables of findMST for [row4] after the first turn of the loop,
    when the root has been popped and visited: the queue holds the items of
    the vertices 2, 1 and 3. *)
Definition row4_second : PrimMST.vars_over Q :=
  Eval vm_compute in
    match
      '(item, pq') ← heap.pop (Interface0 := PriorityQueue.interface (H := Q_float64))
                        (PrimMST.pq row4_first);
      PrimMST.visit (PrimMST.graph row4_start) (Item.w item)
        (PrimMST.mkvars (PrimMST.edges row4_first) (PrimMST.tree row4_first)
           (PrimMST.marked row4_first) (PrimMST.distTo row4_first) pq')
    with
    | Done s => s
    | _ => row4_first
    end.

(** Five vertices: in the tree vertex 0 has the neighbours 2, 3 and 4, at
    the distances 10, 30 and 40, and vertex 1 lies behind vertex 2, at 8
    from it. *)
Definition fork5 : list (Q * Q) :=
  [at_point 100 150; at_point 118 150; at_point 110 150; at_point 100 180;
   at_point 100 110].

Definition fork5_store : store :=
  Eval vm_compute in
    match PrimMST.findMST 40 [] (primmst_of fork5 bounds299) with
    | Done (_, h, _, _) => h
    | _ => []
    end.

Definition fork5_prim : PrimMST.over Q :=
  Eval vm_compute in
    match PrimMST.findMST 40 [] (primmst_of fork5 bounds299) with
    | Done (_, _, p, _) => p
    | _ => primmst_of fork5 bounds299
    end.

Definition fork5_dsp : DijksraSP.over Q := dijkstrasp_of fork5_prim.

(** The adjacency list that findSP builds for [fork5]. *)
Definition fork5_adj : list (list loc) :=
  Eval vm_compute in
    match es ← slice_from1 (DijksraSP.mst fork5_dsp);
          DijksraSP.build_adj fork5_store es (replicate 5 [])
    with
    | Done a => a
    | _ => []
    end.

(** The variables of findSP for a query from vertex 0 on [fork5]: when the
    item of the source has been popped; when the edges at the source have
    been relaxed and the item of vertex 2 has been popped, the items of the
    vertices 3 and 4 left in the queue; and when the edges at vertex 2
    have been relaxed. *)
Definition fork5_source_popped : DijksraSP.vars_over Q :=
  DijksraSP.mkvars fork5_store (replicate 5 None)
    (<[0%nat := inject_Z 0]> (replicate 5 QFloat.MaxFloat64)) ∅.

Definition fork5_popped : DijksraSP.vars_over Q :=
  Eval vm_compute in
    match
      s ← DijksraSP.relax (DijksraSP.graph fork5_dsp) fork5_adj 0 fork5_source_popped;
      '(_, pq') ← heap.pop (Interface0 := PriorityQueue.interface (H := Q_float64))
                     (DijksraSP.pq s);
      Done (DijksraSP.mkvars (DijksraSP.edges s) (DijksraSP.vedgeTo s)
              (DijksraSP.vdistTo s) pq')
    with
    | Done s => s
    | _ => fork5_source_popped
    end.

Definition fork5_relaxed : DijksraSP.vars_over Q :=
  Eval vm_compute in
    match DijksraSP.relax (DijksraSP.graph fork5_dsp) fork5_adj 2 fork5_popped with
    | Done s => s
    | _ => fork5_popped
    end.

(** ** Notions for the distances of findSP *)

Section walk_notions.
Context `{Float64}.

(** An edge object of the tree, from slot 1 on, connects [v] and [w]. *)
Definition tree_edge (h : store) (mst : list (option loc)) (v w : Z) : Prop :=
  ∃ l ed, tree_pointer mst l ∧ h !! l = Some ed ∧
          ((Edge.v ed = v ∧ Edge.w ed = w) ∨ (Edge.v ed = w ∧ Edge.w ed = v)).

(** [d] is the length of a walk from [source] to [w] along edges of the
    tree: the entries of the matrix for the edges of the walk, added to 0
    in the order of the walk. *)
Inductive walk_length (g : list (list float64)) (h : store)
    (mst : list (option loc)) (source : Z) : Z → float64 → Prop :=
| walk_length_source : walk_length g h mst source source (float_of_int 0)
| walk_length_step (v w : Z) (dv gvw : float64) :
    walk_length g h mst source v dv → tree_edge h mst v w →
    0 ≤ v → 0 ≤ w → entry g (Z.to_nat v) (Z.to_nat w) = Some gvw →
    walk_length g h mst source w (f_add dv gvw).

(** What the search of findSP keeps, for the store [h] it started from:
    the edge objects connect the vertices they connected; a distance is
    MaxFloat64 or the length of a walk from the source; the vertex of
    every item in the queue has the length of a walk as its distance. *)
Definition search_inv (g : list (list float64)) (h : store)
    (mst : list (option loc)) (source : Z) (s : DijksraSP.vars) : Prop :=
  ends_kept h (DijksraSP.edges s) ∧
  (∀ w d, DijksraSP.vdistTo s !! w = Some d →
          d = MaxFloat64 ∨ walk_length g h mst source (Z.of_nat w) d) ∧
  (∀ k it, DijksraSP.pq s !! k = Some it →
     ∃ d, 0 ≤ Item.w it ∧ DijksraSP.vdistTo s !! Z.to_nat (Item.w it) = Some d ∧
          walk_length g h mst source (Item.w it) d).
End walk_notions.

(** * Properties *)

(** ** Reasoning about outcomes *)

Arguments slice_get : simpl never.
Arguments slice_set : simpl never.
Arguments slice_from1 : simpl never.
Arguments deref : simpl never.
Arguments Grid.set : simpl never.
Arguments Grid.get : simpl never.
Arguments heap.pop : simpl never.
Arguments heap.push : simpl never.
Arguments heap.Init : simpl never.
Arguments heap.Fix : simpl never.
Arguments PriorityQueue.update : simpl never.
Arguments PriorityQueue.Len : simpl never.
Arguments heap.Len : simpl never.
Arguments heap.Less : simpl never.
Arguments heap.Swap : simpl never.
Arguments heap.Push : simpl never.
Arguments heap.Pop : simpl never.
Arguments heap.up : simpl never.
Arguments heap.down : simpl never.
Arguments draw_edge : simpl never.
Arguments highlight : simpl never.

Lemma bind_Done {A B} (m : outcome A) (f : A → outcome B) (b : B) :
  m ≫= f = Done b → ∃ a, m = Done a ∧ f a = Done b.
Proof. destruct m; simpl; [eauto | discriminate | discriminate]. Qed.

(** Splits a hypothesis [x ← m; k = Done b] into [m = Done a] and
    [k a = Done b]. *)
Ltac bind_inv H :=
  let a := fresh "a" in
  let Ha := fresh "Ha" in
  apply bind_Done in H as (a & Ha & H);
  repeat match type of H with
         | (match ?x with pair _ _ => _ end) = _ => is_var x; destruct x
         end.

Lemma slice_get_Done {A} (s : list A) (i : Z) (x : A) :
  slice_get s i = Done x ↔ 0 ≤ i ∧ s !! Z.to_nat i = Some x.
Proof.
  unfold slice_get. case_decide.
  - destruct (s !! Z.to_nat i) eqn:E; split.
    + intros [= ->]. done.
    + intros [_ [= ->]]. done.
    + discriminate.
    + intros [_ [=]].
  - split; [discriminate | lia].
Qed.

Lemma slice_set_Done {A} (s s' : list A) (i : Z) (x : A) :
  slice_set s i x = Done s' ↔
  0 ≤ i < len s ∧ s' = <[Z.to_nat i := x]> s.
Proof.
  unfold slice_set, len. case_decide; split.
  - intros [= <-]. done.
  - intros [_ ->]. done.
  - discriminate.
  - intros [? _]. lia.
Qed.


(** ** The endpoints check of findSP and the errors of the engine *)

Lemma Atoi_ok_nonempty (s : string) (n : Z) :
  Atoi s = (n, None) → String.length s ≠ O.
Proof. destruct s; [discriminate | simpl; lia]. Qed.

Section engine_errors.
Context `{Float64}.

(** The search returns no error, and it sets [distTo] to a slice that
    was written at [source], hence is not empty. *)
Lemma findSP_search_Done (fuel : nat) (h h' : store) (dsp dsp' : DijksraSP.t)
    (e : option error) :
  DijksraSP.findSP_search fuel h dsp = Done (e, h', dsp') →
  e = None ∧ DijksraSP.mst dsp' = DijksraSP.mst dsp ∧
  DijksraSP.source dsp' = DijksraSP.source dsp ∧
  DijksraSP.target dsp' = DijksraSP.target dsp ∧
  DijksraSP.plot dsp' = DijksraSP.plot dsp.
Proof.
  unfold DijksraSP.findSP_search. cbv zeta. intros Hrun.
  do 5 bind_inv Hrun. injection Hrun as <- <- <-. done.
Qed.

(** The four ways findSP returns. *)
Lemma findSP_Done (fuel : nat) (h h' : store) (dsp dsp' : DijksraSP.t)
    (r : Request.t) (e : option error) :
  DijksraSP.findSP fuel h dsp r = Done (e, h', dsp') →
  (∃ err, e = Some err ∧ h' = h ∧
          DijksraSP.distTo dsp' = DijksraSP.distTo dsp ∧
          DijksraSP.edgeTo dsp' = DijksraSP.edgeTo dsp ∧
          DijksraSP.mst dsp' = DijksraSP.mst dsp ∧
          DijksraSP.plot dsp' = DijksraSP.plot dsp) ∨
  (e = None ∧
   DijksraSP.findSP_search fuel h
     (DijksraSP.set_target (Atoi (Request.targetvert r)).1
        (DijksraSP.set_source (Atoi (Request.sourcevert r)).1 dsp))
   = Done (e, h', dsp')).
Proof.
  unfold DijksraSP.findSP. cbv zeta. case_decide.
  { intros [= <- <- <-]. left. eauto 10. }
  destruct (Atoi (Request.sourcevert r)) as [src [e1|]].
  { intros [= <- <- <-]. left. eauto 10. }
  destruct (Atoi (Request.targetvert r)) as [tgt [e2|]].
  { intros [= <- <- <-]. left. eauto 10. }
  case_decide.
  { intros [= <- <- <-]. left. eauto 10. }
  intros Hrun. right. split; [| exact Hrun].
  by apply findSP_search_Done in Hrun as [-> _].
Qed.

(** C5. For source and target strings that strconv.Atoi reads as the
    integers s and t, findSP returns the error "source and/or target
    vertices are invalid" exactly when s = t, or s is outside [0, N), or
    t is outside [0, N), N being the number of vertices; for distinct
    endpoints in range it returns no such error. *)
Theorem findSP_invalid_endpoints_iff (fuel : nat) (h : store)
    (dsp : DijksraSP.t) (r : Request.t) (s t : Z) :
  Atoi (Request.sourcevert r) = (s, None) →
  Atoi (Request.targetvert r) = (t, None) →
  let N := len (DijksraSP.location dsp) in
  (∃ h' dsp', DijksraSP.findSP fuel h dsp r = Done (Some ErrInvalidVertices, h', dsp'))
  ↔ (s = t ∨ ¬ (0 ≤ s < N) ∨ ¬ (0 ≤ t < N)).
Proof.
  intros Hs Ht N.
  pose proof (Atoi_ok_nonempty _ _ Hs) as Hs0.
  pose proof (Atoi_ok_nonempty _ _ Ht) as Ht0.
  unfold DijksraSP.findSP. cbv zeta.
  rewrite decide_False by tauto.
  rewrite Hs, Ht. simpl.
  case_decide as Hchk.
  - split; [intros _ | eauto]. subst N. lia.
  - split.
    + intros (h' & dsp' & Hrun).
      apply findSP_search_Done in Hrun as [[=] _].
    + intros Hbad. exfalso. apply Hchk. subst N. lia.
Qed.

(** When its guard holds plotSP returns the error at once. *)
Lemma plotSP_guard (fuel : nat) (h : store) (dsp : DijksraSP.t) :
  target_not_found dsp →
  DijksraSP.plotSP fuel h dsp
  = Done (Some (ErrNotFound (DijksraSP.target dsp)), h, dsp).
Proof.
  unfold DijksraSP.plotSP. intros [Hempty | (d & Hd & Hmax)].
  - rewrite decide_True by done. reflexivity.
  - case_decide; [reflexivity |]. rewrite Hd. simpl. rewrite Hmax. reflexivity.
Qed.

(** C10. If the distance slice is empty, or the distance of the target
    still equals MaxFloat64, plotSP returns, whatever the bound on its
    loop, the error "distance to vertex ... not found", and nothing has
    changed: the edge objects and the receiver are those it was called
    with, so the plot of the receiver has the grid and every field it had,
    and no cell of a shortest path was written. *)
Theorem plotSP_error_changes_nothing (fuel : nat) (h : store) (dsp : DijksraSP.t) :
  target_not_found dsp →
  ∃ h' dsp',
    DijksraSP.plotSP fuel h dsp
    = Done (Some (ErrNotFound (DijksraSP.target dsp)), h', dsp') ∧
    h' = h ∧ dsp' = dsp ∧
    (PlotT.Grid <$> DijksraSP.plot dsp') = (PlotT.Grid <$> DijksraSP.plot dsp) ∧
    DijksraSP.plot dsp' = DijksraSP.plot dsp.
Proof.
  intros Hguard. exists h, dsp. by rewrite (plotSP_guard fuel h dsp Hguard).
Qed.

Lemma findMST_Done (fuel : nat) (h h' : store) (p p' : PrimMST.t)
    (e : option error) (popped : list Z) :
  PrimMST.findMST fuel h p = Done (e, h', p', popped) →
  e = None ∧ PrimMST.graph p' = PrimMST.graph p ∧
  PrimMST.location p' = PrimMST.location p ∧
  PrimMST.endpoints p' = PrimMST.endpoints p ∧ PrimMST.plot p' = PrimMST.plot p.
Proof.
  unfold PrimMST.findMST. cbv zeta. intros Hrun.
  do 3 bind_inv Hrun. injection Hrun as <- <- <- <-. done.
Qed.

Lemma plotMST_Done (h : store) (p p' : PrimMST.t) (e : option error) :
  PrimMST.plotMST h p = Done (e, p') →
  e = None ∧ ∃ pl, PrimMST.plot p' = Some pl ∧ PlotT.DistanceSP pl = "" ∧
                   PlotT.Source pl = "" ∧ PlotT.Target pl = "".
Proof.
  unfold PrimMST.plotMST. cbv zeta. intros Hrun.
  do 4 bind_inv Hrun. injection Hrun as <- <-. split; [done |]. eexists. split; [reflexivity |]. done.
Qed.

(** C4. In a run of the handler, when findSP has returned and the distance
    of the target is still MaxFloat64, plotSP returns the error "distance
    to vertex ... not found", and the handler hands it on: the status of
    the plot is that message, not the message of a success, and the plot
    carries no shortest-path distance. *)
Theorem target_at_sentinel_is_reported (fuel : nat) (location : list complex128)
    (ep : Endpoints.t) (r : Request.t)
    (e0 e1 e2 : option error) (h0 h1 : store) (p0 p1 : PrimMST.t)
    (popped : list Z) (d1 : DijksraSP.t) (d : float64) :
  PrimMST.findMST fuel [] (primmst_of location ep) = Done (e0, h0, p0, popped) →
  DijksraSP.findSP fuel h0 (dijkstrasp_of p0) r = Done (e1, h1, d1) →
  PrimMST.plotMST h1 p0 = Done (e2, p1) →
  slice_get (DijksraSP.distTo d1) (DijksraSP.target d1) = Done d →
  f_eq d MaxFloat64 = true →
  DijksraSP.plotSP fuel h1 (DijksraSP.set_plot (PrimMST.plot p1) d1)
  = Done (Some (ErrNotFound (DijksraSP.target d1)), h1,
          DijksraSP.set_plot (PrimMST.plot p1) d1) ∧
  ∃ pl, handleDijkstraSP fuel location ep r = Done pl ∧
        PlotT.Status pl = Error (ErrNotFound (DijksraSP.target d1)) ∧
        PlotT.DistanceSP pl = "".
Proof.
  intros Hmst Hsp Hplot Hd Hmax.
  assert (DijksraSP.plotSP fuel h1 (DijksraSP.set_plot (PrimMST.plot p1) d1)
          = Done (Some (ErrNotFound (DijksraSP.target d1)), h1,
                  DijksraSP.set_plot (PrimMST.plot p1) d1)) as HplotSP.
  { apply (plotSP_guard fuel h1 (DijksraSP.set_plot (PrimMST.plot p1) d1)).
    right. exists d. done. }
  split; [exact HplotSP |].
  pose proof (findMST_Done _ _ _ _ _ _ _ Hmst) as (-> & _).
  pose proof (plotMST_Done _ _ _ _ Hplot) as (-> & pl & Hpl & HdSP & _).
  assert (e1 = None) as ->.
  { apply findSP_Done in Hsp as [(err & _ & _ & HdT & _) | [-> _]]; [| done].
    simpl in HdT. rewrite HdT in Hd.
    apply slice_get_Done in Hd as [_ Hd]. discriminate. }
  unfold handleDijkstraSP, primmst_of, dijkstrasp_of, PrimMST.findDistances in *.
  cbv beta iota zeta in *. cbn [snd] in Hmst.
  rewrite Hmst. cbn [mbind outcome_bind]. rewrite Hsp. cbn [mbind outcome_bind].
  rewrite Hplot. cbn [mbind outcome_bind]. rewrite HplotSP. cbn [mbind outcome_bind].
  cbn [DijksraSP.plot DijksraSP.set_plot]. rewrite Hpl. cbn [mbind outcome_bind].
  eexists. split; [reflexivity |]. split; [reflexivity | exact HdSP].
Qed.
End engine_errors.

(** ** The effect of a shortest-path query on the edges of the tree *)

Lemma same_ends_refl (e : Edge.t) : same_ends e e.
Proof. by left. Qed.

Lemma swap_swap (e : Edge.t) : Edge.swap (Edge.swap e) = e.
Proof. by destruct e. Qed.

Lemma same_ends_trans (e1 e2 e3 : Edge.t) :
  same_ends e1 e2 → same_ends e2 e3 → same_ends e1 e3.
Proof.
  intros [-> | ->] [-> | ->]; unfold same_ends; rewrite ?swap_swap; auto.
Qed.

Lemma ends_kept_refl (h : store) : ends_kept h h.
Proof. intros l e Hl. exists e. split; [done | apply same_ends_refl]. Qed.

Lemma ends_kept_trans (h1 h2 h3 : store) :
  ends_kept h1 h2 → ends_kept h2 h3 → ends_kept h1 h3.
Proof.
  intros H12 H23 l e Hl.
  destruct (H12 l e Hl) as (e2 & Hl2 & He2).
  destruct (H23 l e2 Hl2) as (e3 & Hl3 & He3).
  exists e3. split; [done | by eapply same_ends_trans].
Qed.

(** The one write to an edge object: both fields exchanged. *)
Lemma ends_kept_swap (h : store) (l : loc) (e : Edge.t) :
  h !! l = Some e → ends_kept h (<[l := Edge.swap e]> h).
Proof.
  intros Hl l' e' Hl'. destruct (decide (l' = l)) as [-> | Hne].
  - exists (Edge.swap e). rewrite list_lookup_insert_eq by (by eapply lookup_lt_Some).
    split; [done |]. right. congruence.
  - exists e'. rewrite list_lookup_insert_ne by done. split; [done | by left].
Qed.

Lemma deref_Done (h : store) (p : option loc) (e : Edge.t) :
  deref h p = Done e ↔ ∃ l, p = Some l ∧ h !! l = Some e.
Proof.
  unfold deref. destruct p as [l |].
  - destruct (h !! l) eqn:E; split.
    + intros [= ->]. eauto.
    + intros (l' & [= <-] & Hl). congruence.
    + discriminate.
    + intros (l' & [= <-] & Hl). congruence.
  - split; [discriminate | intros (l & [=] & _)].
Qed.

Section frame.
Context `{Float64}.

Lemma relax_range_ends (g : list (list float64)) (v : Z) (es : list loc)
    (s s' : DijksraSP.vars) :
  DijksraSP.relax_range g v es s = Done s' →
  ends_kept (DijksraSP.edges s) (DijksraSP.edges s').
Proof.
  revert s. induction es as [| l es IH]; intros s Hrun; simpl in Hrun.
  { injection Hrun as <-. apply ends_kept_refl. }
  bind_inv Hrun. apply deref_Done in Ha as (l' & [= <-] & Hl).
  destruct (decide (Edge.w a = v)) as [Hw | Hw].
  - do 4 bind_inv Hrun. destruct (f_lt _ _).
    + do 6 bind_inv Hrun. apply IH in Hrun. simpl in Hrun.
      eapply ends_kept_trans; [by apply ends_kept_swap | done].
    + apply IH in Hrun. simpl in Hrun.
      eapply ends_kept_trans; [by apply ends_kept_swap | done].
  - do 4 bind_inv Hrun. destruct (f_lt _ _).
    + do 6 bind_inv Hrun. apply IH in Hrun. done.
    + apply IH in Hrun. done.
Qed.

Lemma findSP_loop_ends (fuel : nat) (g : list (list float64))
    (a : list (list loc)) (tgt : Z) (s s' : DijksraSP.vars) :
  DijksraSP.findSP_loop fuel g a tgt s = Done s' →
  ends_kept (DijksraSP.edges s) (DijksraSP.edges s').
Proof.
  revert s. induction fuel as [| fuel IH]; intros s Hrun; simpl in Hrun;
    [discriminate |].
  case_decide.
  - bind_inv Hrun. case_decide.
    + bind_inv Hrun. injection Hrun as <-. apply ends_kept_refl.
    + bind_inv Hrun. unfold DijksraSP.relax in Ha0. bind_inv Ha0.
      apply relax_range_ends in Ha0. apply IH in Hrun.
      by eapply ends_kept_trans.
  - injection Hrun as <-. apply ends_kept_refl.
Qed.

Lemma findSP_ends (fuel : nat) (h h' : store) (dsp dsp' : DijksraSP.t)
    (r : Request.t) (e : option error) :
  DijksraSP.findSP fuel h dsp r = Done (e, h', dsp') →
  DijksraSP.mst dsp' = DijksraSP.mst dsp ∧ ends_kept h h'.
Proof.
  intros Hrun. apply findSP_Done in Hrun as [(err & _ & -> & _ & _ & Hmst & _) | [_ Hrun]].
  { split; [done | apply ends_kept_refl]. }
  split.
  { by apply findSP_search_Done in Hrun as (_ & -> & _). }
  unfold DijksraSP.findSP_search in Hrun. cbv zeta in Hrun.
  do 5 bind_inv Hrun. injection Hrun as <- <-.
  by apply findSP_loop_ends in Ha3.
Qed.

Lemma walk_ends (fuel : nat) (dsp : DijksraSP.t) (h h' : store)
    (e firstEdge : option loc) (distance distance' : float64)
    (grid : option Grid.t) (grid' : Grid.t) :
  DijksraSP.walk fuel dsp h e distance grid = Done (h', distance', grid', firstEdge) →
  ends_kept h h'.
Proof.
  revert h e distance grid.
  induction fuel as [| fuel IH]; intros h e distance grid Hrun; simpl in Hrun;
    [discriminate |].
  do 5 bind_inv Hrun. case_decide.
  - injection Hrun as <- _ _ _. apply ends_kept_refl.
  - do 2 bind_inv Hrun. apply deref_Done in Ha5 as (l & -> & Hl).
    apply IH in Hrun. case_decide; [| done].
    eapply ends_kept_trans; [| exact Hrun]. by apply ends_kept_swap.
Qed.

Lemma plotSP_ends (fuel : nat) (h h' : store) (dsp dsp' : DijksraSP.t)
    (e : option error) :
  DijksraSP.plotSP fuel h dsp = Done (e, h', dsp') →
  DijksraSP.mst dsp' = DijksraSP.mst dsp ∧ ends_kept h h'.
Proof.
  unfold DijksraSP.plotSP. intros Hrun. bind_inv Hrun. destruct a.
  { injection Hrun as <- <- <-. split; [done | apply ends_kept_refl]. }
  cbv zeta in Hrun. do 10 bind_inv Hrun. injection Hrun as <- <- <-.
  split; [done |]. by apply walk_ends in Ha1.
Qed.

(** C9. A shortest-path query, findSP followed by plotSP on the plot of
    plotMST, writes to the edge objects of the tree only by exchanging the
    fields v and w of an edge: the slice mst holds the same pointers after
    the query, and the edge that a slot points to connects the same two
    vertices as before the query, in the same or in the opposite
    orientation. *)
Theorem query_keeps_tree_ends (fuel fuel' : nat) (h h1 h2 : store)
    (dsp d1 d2 : DijksraSP.t) (r : Request.t) (pl : option PlotT.t)
    (e1 e2 : option error) :
  DijksraSP.findSP fuel h dsp r = Done (e1, h1, d1) →
  DijksraSP.plotSP fuel' h1 (DijksraSP.set_plot pl d1) = Done (e2, h2, d2) →
  DijksraSP.mst d2 = DijksraSP.mst dsp ∧
  ∀ (i : nat) (l : loc) (e : Edge.t),
    DijksraSP.mst dsp !! i = Some (Some l) → h !! l = Some e →
    ∃ e', h2 !! l = Some e' ∧
          ((Edge.v e' = Edge.v e ∧ Edge.w e' = Edge.w e) ∨
           (Edge.v e' = Edge.w e ∧ Edge.w e' = Edge.v e)).
Proof.
  intros Hfind Hplot.
  apply findSP_ends in Hfind as [Hmst1 Hk1].
  apply plotSP_ends in Hplot as [Hmst2 Hk2].
  split; [by rewrite Hmst2 |].
  intros i l e _ Hl.
  destruct (ends_kept_trans _ _ _ Hk1 Hk2 l e Hl) as (e' & Hl' & [-> | ->]).
  - exists e. auto.
  - exists (Edge.swap e). auto.
Qed.
End frame.

(** ** The labels of the cells after plotMST *)

Lemma Grid_set_Done (g g' : Grid.t) (i : Z) (x : string) :
  Grid.set g i x = Done g' ↔
  0 ≤ i < Grid.length g ∧ g' = Grid.mk (<[i := x]> (Grid.cells g)) (Grid.length g).
Proof.
  unfold Grid.set. case_decide; split.
  - intros [= <-]. done.
  - intros [_ ->]. done.
  - discriminate.
  - intros [? _]. lia.
Qed.

(** What one write does to the cell [c]. *)
Lemma Grid_set_cell (g g' : Grid.t) (i c : Z) (x : string) :
  Grid.set g i x = Done g' →
  Grid.length g' = Grid.length g ∧
  Grid.cells g' !! c = if decide (i = c) then Some x else Grid.cells g !! c.
Proof.
  intros [Hi ->]%Grid_set_Done. simpl. split; [done |].
  by rewrite lookup_insert.
Qed.

Lemma Grid_set_other (g g' : Grid.t) (i c : Z) (x : string) :
  Grid.set g i x = Done g' → i ≠ c → Grid.cells g' !! c = Grid.cells g !! c.
Proof.
  intros Hset Hne. apply (Grid_set_cell _ _ _ c) in Hset as [_ ->].
  by rewrite decide_False.
Qed.

Lemma Grid_set_same (g g' : Grid.t) (i : Z) (x : string) :
  Grid.set g i x = Done g' → Grid.cells g' !! i = Some x ∧ 0 ≤ i < Grid.length g'.
Proof.
  intros Hset. pose proof Hset as [Hi _]%Grid_set_Done.
  apply (Grid_set_cell _ _ _ i) in Hset as [-> ->].
  by rewrite decide_True.
Qed.

Lemma Grid_get_written (g : Grid.t) (c : Z) (x : string) :
  Grid.cells g !! c = Some x → 0 ≤ c < Grid.length g → Grid.get g c = Done x.
Proof. intros Hc Hr. unfold Grid.get. rewrite decide_True by done. by rewrite Hc. Qed.

Lemma Grid_set_in (g : Grid.t) (i : Z) (x : string) :
  0 ≤ i < Grid.length g →
  Grid.set g i x = Done (Grid.mk (<[i := x]> (Grid.cells g)) (Grid.length g)).
Proof. intros Hi. unfold Grid.set. by rewrite decide_True. Qed.

Lemma Grid_set_out (g : Grid.t) (i : Z) (x : string) :
  ¬ (0 ≤ i < Grid.length g) → Grid.set g i x = Panic IndexOutOfRange.
Proof. intros Hi. unfold Grid.set. by rewrite decide_False. Qed.

Section raster_facts.
Context `{Float64}.

(** A cell keeps the label "vertex" through the samples of an edge that
    do not fall on it. *)
Lemma draw_loop_cell (ep : Endpoints.t) (label : string) (n : nat)
    (x y stepX stepY : float64) (grid grid' : Grid.t) (c : Z) :
  draw_loop ep label n x y stepX stepY grid = Done grid' →
  c ∉ sample_cells ep n x y stepX stepY →
  Grid.length grid' = Grid.length grid ∧
  Grid.cells grid' !! c = Grid.cells grid !! c.
Proof.
  revert x y grid. induction n as [| n IH]; intros x y grid Hrun Hc; simpl in *.
  { by injection Hrun as <-. }
  bind_inv Hrun. apply not_elem_of_cons in Hc as [Hne Hc].
  destruct (IH _ _ _ Hrun Hc) as [-> ->].
  split; [by apply (Grid_set_cell _ _ _ c) in Ha as [-> _] |].
  by eapply Grid_set_other.
Qed.

Lemma draw_loop_length (ep : Endpoints.t) (label : string) (n : nat)
    (x y stepX stepY : float64) (grid grid' : Grid.t) :
  draw_loop ep label n x y stepX stepY grid = Done grid' →
  Grid.length grid' = Grid.length grid.
Proof.
  revert x y grid. induction n as [| n IH]; intros x y grid Hrun; simpl in *.
  { by injection Hrun as <-. }
  bind_inv Hrun. rewrite (IH _ _ _ Hrun).
  by apply (Grid_set_cell _ _ _ 0) in Ha as [-> _].
Qed.

(** After an edge is drawn the cells of both its ends are "vertex". *)
Lemma draw_edge_ends (ep : Endpoints.t) (label : string) (start end_ : complex128)
    (distance distance' : float64) (grid grid' : Grid.t) (z : complex128) :
  draw_edge ep label start end_ distance grid = Done (distance', grid') →
  z = start ∨ z = end_ →
  Grid.cells grid' !! cell_of ep z.1 z.2 = Some "vertex" ∧
  0 ≤ cell_of ep z.1 z.2 < Grid.length grid'.
Proof.
  unfold draw_edge. cbv zeta. intros Hrun Hz. do 3 bind_inv Hrun.
  injection Hrun as _ <-.
  pose proof (Grid_set_same _ _ _ _ Ha1) as [Hend Hendr].
  destruct Hz as [-> | ->]; [| done].
  pose proof (Grid_set_same _ _ _ _ Ha0) as [Hstart Hstartr].
  apply (Grid_set_cell _ _ _ (cell_of ep start.1 start.2)) in Ha1 as [Hlen ->].
  split; [| lia]. by case_decide.
Qed.

(** An edge whose samples do not fall on a cell labeled "vertex" leaves
    it so. *)
Lemma draw_edge_keeps_vertex (ep : Endpoints.t) (label : string)
    (start end_ : complex128) (distance distance' : float64)
    (grid grid' : Grid.t) (c : Z) :
  draw_edge ep label start end_ distance grid = Done (distance', grid') →
  c ∉ edge_samples ep start end_ →
  Grid.cells grid !! c = Some "vertex" →
  Grid.cells grid' !! c = Some "vertex" ∧ Grid.length grid' = Grid.length grid.
Proof.
  unfold draw_edge, edge_samples. cbv zeta. intros Hrun Hc Hv. do 3 bind_inv Hrun.
  injection Hrun as _ <-.
  destruct (draw_loop_cell _ _ _ _ _ _ _ _ _ c Ha Hc) as [Hl0 Hc0].
  apply (Grid_set_cell _ _ _ c) in Ha0 as [Hl1 Hc1].
  apply (Grid_set_cell _ _ _ c) in Ha1 as [Hl2 Hc2].
  split; [| congruence].
  rewrite Hc2. case_decide; [done |]. rewrite Hc1. case_decide; [done |].
  by rewrite Hc0.
Qed.

Lemma plot_edges_keeps_vertex (h : store) (p : PrimMST.t)
    (es : list (option loc)) (distance distance' : float64)
    (grid grid' : Grid.t) (c : Z) :
  PrimMST.plot_edges h p es distance grid = Done (distance', grid') →
  (∀ (j : nat) (l : loc) (ed : Edge.t),
     es !! j = Some (Some l) → h !! l = Some ed →
     c ∉ edge_cells (PrimMST.endpoints p) (PrimMST.location p) ed) →
  Grid.cells grid !! c = Some "vertex" →
  Grid.cells grid' !! c = Some "vertex" ∧ Grid.length grid' = Grid.length grid.
Proof.
  revert distance grid.
  induction es as [| e es IH]; intros distance grid Hrun Hfree Hv; simpl in Hrun.
  { by injection Hrun as _ <-. }
  do 4 bind_inv Hrun.
  apply deref_Done in Ha as (l & -> & Hl).
  assert (c ∉ edge_samples (PrimMST.endpoints p) a0 a1) as Hc.
  { specialize (Hfree O l a eq_refl Hl). unfold edge_cells in Hfree.
    by rewrite Ha0, Ha1 in Hfree. }
  destruct (draw_edge_keeps_vertex _ _ _ _ _ _ _ _ c Ha2 Hc Hv) as [Hv' Hlen].
  destruct (IH _ _ Hrun) as [Hv'' Hlen']; [| done | split; [done | congruence]].
  intros j l' ed' Hj. by apply (Hfree (S j)).
Qed.

(** The cell of an end of the edge in slot [k] of [es] is "vertex" after
    all of [es] has been drawn, provided no sample of a later edge falls
    on it. *)
Lemma plot_edges_end (h : store) (p : PrimMST.t) (es : list (option loc))
    (distance distance' : float64) (grid grid' : Grid.t)
    (k : nat) (l : loc) (ed : Edge.t) (z : complex128) :
  PrimMST.plot_edges h p es distance grid = Done (distance', grid') →
  es !! k = Some (Some l) → h !! l = Some ed →
  is_end (PrimMST.location p) ed z →
  let c := cell_of (PrimMST.endpoints p) z.1 z.2 in
  (∀ (j : nat) (l' : loc) (ed' : Edge.t),
     (k < j)%nat → es !! j = Some (Some l') → h !! l' = Some ed' →
     c ∉ edge_cells (PrimMST.endpoints p) (PrimMST.location p) ed') →
  Grid.cells grid' !! c = Some "vertex" ∧ 0 ≤ c < Grid.length grid'.
Proof.
  intros Hrun Hk Hl Hz c Hfree. revert distance grid k Hrun Hk Hfree.
  induction es as [| e es IH]; intros distance grid k Hrun Hk Hfree;
    [by destruct k |].
  simpl in Hrun. do 4 bind_inv Hrun.
  destruct k as [| k]; simpl in Hk.
  - injection Hk as ->. apply deref_Done in Ha as (l0 & [= <-] & Hl0).
    assert (a = ed) as -> by congruence.
    assert (z = a0 ∨ z = a1) as Hz'.
    { destruct Hz as [Hz | Hz]; [left | right]; congruence. }
    destruct (draw_edge_ends _ _ _ _ _ _ _ _ z Ha2 Hz') as [Hv Hr].
    destruct (plot_edges_keeps_vertex _ _ _ _ _ _ _ c Hrun) as [Hv' Hlen];
      [| done | split; [done | lia]].
    intros j l' ed' Hj. apply (Hfree (S j)); [lia | done].
  - apply (IH _ _ k Hrun Hk).
    intros j l' ed' Hlt Hj. apply (Hfree (S j)); [lia | done].
Qed.

Lemma highlight_other (ep : Endpoints.t) (label : string) (x y : float64)
    (grid grid' : Grid.t) (c : Z) :
  highlight ep label x y grid = Done grid' →
  c ∉ highlight_cells ep x y →
  Grid.cells grid' !! c = Grid.cells grid !! c ∧
  Grid.length grid' = Grid.length grid.
Proof.
  unfold highlight, highlight_cells. cbv zeta. intros Hrun Hc.
  do 4 bind_inv Hrun.
  repeat (apply not_elem_of_cons in Hc as [? Hc]).
  apply (Grid_set_cell _ _ _ c) in Ha as [Hl0 Hc0], Ha0 as [Hl1 Hc1],
    Ha1 as [Hl2 Hc2], Ha2 as [Hl3 Hc3], Hrun as [Hl4 Hc4].
  rewrite decide_False in Hc0 by done. rewrite decide_False in Hc1 by done.
  rewrite decide_False in Hc2 by done. rewrite decide_False in Hc3 by done.
  rewrite decide_False in Hc4 by done.
  split; congruence.
Qed.

(** The highlight of a vertex in the bottom row: the write to the cell
    below it is out of range. *)
Lemma highlight_bottom_row_panics (ep : Endpoints.t) (label : string)
    (x y : float64) (grid : Grid.t) :
  Grid.length grid = rows * columns → 0 ≤ col_of ep x < columns →
  row_of ep y = rows - 1 →
  highlight ep label x y grid = Panic IndexOutOfRange.
Proof.
  intros Hlen Hcol Hrow. unfold highlight. cbv zeta. rewrite Hrow.
  unfold columns, rows in *.
  rewrite Grid_set_in by lia. cbn [mbind outcome_bind].
  rewrite Grid_set_out by (cbn [Grid.length]; lia). reflexivity.
Qed.

(** The highlight of a vertex in the top row: the index of the cell above
    it is negative. *)
Lemma highlight_top_row_panics (ep : Endpoints.t) (label : string)
    (x y : float64) (grid : Grid.t) :
  Grid.length grid = rows * columns → 0 ≤ col_of ep x < columns →
  row_of ep y = 0 →
  highlight ep label x y grid = Panic IndexOutOfRange.
Proof.
  intros Hlen Hcol Hrow. unfold highlight. cbv zeta. rewrite Hrow.
  unfold columns, rows in *.
  rewrite Grid_set_in by lia. cbn [mbind outcome_bind].
  rewrite Grid_set_in by (cbn [Grid.length]; lia). cbn [mbind outcome_bind].
  rewrite Grid_set_out by (cbn [Grid.length]; lia). reflexivity.
Qed.

(** C7, as the code has it.  After plotMST the cell of an end of the tree
    edge in slot k >= 1 is labeled "vertex", provided no sample of an edge
    in a later slot falls on that cell and the cell is not one of the five
    cells of the highlight of the root, vertex 0. *)
Theorem end_cell_labeled_vertex (h : store) (p p' : PrimMST.t) (e : option error)
    (pl : PlotT.t) (k : nat) (l : loc) (ed : Edge.t) (z : complex128) :
  PrimMST.plotMST h p = Done (e, p') → PrimMST.plot p' = Some pl →
  (1 ≤ k)%nat → PrimMST.mst p !! k = Some (Some l) → h !! l = Some ed →
  is_end (PrimMST.location p) ed z →
  let c := cell_of (PrimMST.endpoints p) z.1 z.2 in
  (∀ (j : nat) (l' : loc) (ed' : Edge.t),
     (k < j)%nat → PrimMST.mst p !! j = Some (Some l') → h !! l' = Some ed' →
     c ∉ edge_cells (PrimMST.endpoints p) (PrimMST.location p) ed') →
  (∀ z0, slice_get (PrimMST.location p) 0 = Done z0 →
         c ∉ highlight_cells (PrimMST.endpoints p) z0.1 z0.2) →
  Grid.get (PlotT.Grid pl) c = Done "vertex".
Proof.
  intros Hrun Hpl Hk Hslot Hl Hz c Hfree Hroot.
  unfold PrimMST.plotMST in Hrun. cbv zeta in Hrun.
  do 4 bind_inv Hrun. injection Hrun as _ <-. injection Hpl as <-. simpl.
  destruct (PrimMST.mst p) as [| e0 es] eqn:Hmst; [discriminate |].
  injection Ha as <-.
  destruct k as [| k]; [lia |]. simpl in Hslot.
  destruct (plot_edges_end _ _ _ _ _ _ _ k l ed z Ha0 Hslot Hl Hz) as [Hv Hr].
  { intros j l' ed' Hlt Hj. apply (Hfree (S j)); [lia | done]. }
  destruct (highlight_other _ _ _ _ _ _ c Ha2 (Hroot _ Ha1)) as [Hc Hlen].
  fold c in Hv, Hr. apply Grid_get_written; [by rewrite Hc | lia].
Qed.
End raster_facts.

(** ** container/heap on a well-formed queue *)

Section heap_facts.
Context `{Float64}.
Implicit Types pq : PriorityQueue.

Lemma Swap_wf (P : Z → Prop) pq (i j : Z) :
  pq_items P pq → 0 ≤ i < PriorityQueue.Len pq → 0 ≤ j < PriorityQueue.Len pq →
  ∃ pq', heap.Swap pq i j = Done pq' ∧ pq_items P pq' ∧
         PriorityQueue.Len pq' = PriorityQueue.Len pq.
Proof.
  intros [Hdom Hit] Hi Hj.
  change (heap.Swap pq i j) with (PriorityQueue.Swap pq i j).
  unfold PriorityQueue.Swap.
  destruct (proj2 (Hdom i) Hi) as [a Ha], (proj2 (Hdom j) Hj) as [b Hb].
  rewrite Ha, Hb. eexists. split; [reflexivity |].
  assert (PriorityQueue.Len (<[j:=Item.with_index a j]> (<[i:=Item.with_index b i]> pq))
          = PriorityQueue.Len pq) as Hlen.
  { unfold PriorityQueue.Len. f_equal.
    rewrite map_size_insert_Some.
    - rewrite map_size_insert_Some; [done | by rewrite Ha].
    - rewrite lookup_insert. case_decide; [done | by rewrite Hb]. }
  split; [| exact Hlen]. split.
  - intros k. rewrite Hlen, <- Hdom. rewrite !lookup_insert.
    repeat case_decide; subst; split; intros ?; eauto.
  - intros k it. rewrite !lookup_insert.
    destruct (Hit _ _ Ha) as [_ Hwa], (Hit _ _ Hb) as [_ Hwb].
    repeat case_decide; subst; [intros [= <-] .. | apply Hit]; done.
Qed.

Lemma Less_wf (P : Z → Prop) pq (i j : Z) :
  pq_items P pq → 0 ≤ i < PriorityQueue.Len pq → 0 ≤ j < PriorityQueue.Len pq →
  ∃ b, heap.Less pq i j = Done b.
Proof.
  intros [Hdom _] Hi Hj.
  change (heap.Less pq i j) with (PriorityQueue.Less pq i j).
  unfold PriorityQueue.Less.
  destruct (proj2 (Hdom i) Hi) as [a ->], (proj2 (Hdom j) Hj) as [b ->]. eauto.
Qed.

Lemma up_loop_wf (P : Z → Prop) (fuel : nat) pq (j : Z) :
  pq_items P pq → 0 ≤ j < PriorityQueue.Len pq → (Z.to_nat j < fuel)%nat →
  ∃ pq', heap.up_loop fuel pq j = Done pq' ∧ pq_items P pq' ∧
         PriorityQueue.Len pq' = PriorityQueue.Len pq.
Proof.
  revert pq j. induction fuel as [| fuel IH]; intros pq j Hwf Hj Hfuel; [lia |].
  simpl. case_decide as Hi; [eauto |].
  assert (0 ≤ (j - 1) `quot` 2 < j) as Hpar.
  { destruct (decide (j = 0)) as [-> | ?]; [done |].
    rewrite Z.quot_div_nonneg by lia.
    split; [apply Z.div_pos; lia | apply Z.div_lt_upper_bound; lia]. }
  destruct (Less_wf P pq j ((j - 1) `quot` 2)) as [b ->]; [done | lia | lia |].
  simpl. destruct b; simpl; [| eauto].
  destruct (Swap_wf P pq ((j - 1) `quot` 2) j) as (pq1 & -> & Hwf1 & Hlen1);
    [done | lia | lia |].
  simpl. destruct (IH pq1 ((j - 1) `quot` 2)) as (pq2 & -> & Hwf2 & Hlen2);
    [done | lia | lia |].
  exists pq2. split; [done |]. split; [done | congruence].
Qed.

Lemma up_wf (P : Z → Prop) pq (j : Z) :
  pq_items P pq → 0 ≤ j < PriorityQueue.Len pq →
  ∃ pq', heap.up pq j = Done pq' ∧ pq_items P pq' ∧
         PriorityQueue.Len pq' = PriorityQueue.Len pq.
Proof. intros. apply up_loop_wf; [done | done | lia]. Qed.

Lemma down_loop_wf (P : Z → Prop) (fuel : nat) pq (i0 i m : Z) :
  pq_items P pq → 0 ≤ i → m ≤ PriorityQueue.Len pq → (Z.to_nat (m - i) < fuel)%nat →
  ∃ pq' b, heap.down_loop fuel pq i0 i m = Done (pq', b) ∧ pq_items P pq' ∧
           PriorityQueue.Len pq' = PriorityQueue.Len pq.
Proof.
  revert pq i. induction fuel as [| fuel IH]; intros pq i Hwf Hi Hm Hfuel; [lia |].
  simpl. case_decide as Hj1; [eauto |].
  assert (∃ r : bool, (if decide (2 * i + 1 + 1 < m)
                       then heap.Less pq (2 * i + 1 + 1) (2 * i + 1) else Done false)
                      = Done r ∧ (r = true → 2 * i + 1 + 1 < m)) as (r & -> & Hr).
  { case_decide.
    - destruct (Less_wf P pq (2 * i + 1 + 1) (2 * i + 1)) as [b ->];
        [done | lia | lia |]. eauto.
    - exists false. done. }
  simpl. set (j := if r then 2 * i + 1 + 1 else 2 * i + 1).
  assert (i < j < m) as Hj.
  { subst j. destruct r; [specialize (Hr eq_refl) |]; lia. }
  destruct (Less_wf P pq j i) as [b ->]; [done | lia | lia |].
  simpl. destruct b; simpl; [| eauto].
  destruct (Swap_wf P pq i j) as (pq1 & -> & Hwf1 & Hlen1); [done | lia | lia |].
  simpl. destruct (IH pq1 j) as (pq2 & b2 & -> & Hwf2 & Hlen2);
    [done | lia | lia | lia |].
  exists pq2, b2. split; [done |]. split; [done | congruence].
Qed.

Lemma down_wf (P : Z → Prop) pq (i m : Z) :
  pq_items P pq → 0 ≤ i → m ≤ PriorityQueue.Len pq →
  ∃ pq' b, heap.down pq i m = Done (pq', b) ∧ pq_items P pq' ∧
           PriorityQueue.Len pq' = PriorityQueue.Len pq.
Proof. intros. apply down_loop_wf; [done | done | done | lia]. Qed.

Lemma Len_insert_new pq (x : Item.t) :
  pq !! PriorityQueue.Len pq = None →
  PriorityQueue.Len (<[PriorityQueue.Len pq := x]> pq) = PriorityQueue.Len pq + 1.
Proof.
  intros Hnew. unfold PriorityQueue.Len at 1 3.
  rewrite map_size_insert_None by done. lia.
Qed.

(** [heap.Push] of an item for a vertex below [n]. *)
Lemma push_wf (P : Z → Prop) pq (x : Item.t) :
  pq_items P pq → P (Item.w x) →
  ∃ pq', heap.push pq x = Done pq' ∧ pq_items P pq' ∧
         PriorityQueue.Len pq' = PriorityQueue.Len pq + 1.
Proof.
  intros Hwf Hx. unfold heap.push.
  change (heap.Push pq x) with (PriorityQueue.Push pq x).
  unfold PriorityQueue.Push. cbn [mbind outcome_bind].
  change (heap.Len ?q) with (PriorityQueue.Len q).
  set (m := PriorityQueue.Len pq).
  destruct Hwf as [Hdom Hit].
  assert (pq !! m = None) as Hnew.
  { apply eq_None_not_Some. rewrite Hdom. subst m. lia. }
  pose proof (Len_insert_new pq (Item.with_index x m) Hnew) as Hlen. fold m in Hlen.
  assert (0 ≤ m) as Hm by (subst m; unfold PriorityQueue.Len; lia).
  destruct (up_wf P (<[m:=Item.with_index x m]> pq) (m + 1 - 1))
    as (pq' & Hup & Hwf' & Hlen').
  - split.
    + intros k. rewrite Hlen, lookup_insert. case_decide; subst.
      * split; [lia | eauto].
      * rewrite Hdom. fold m. lia.
    + intros k it. rewrite lookup_insert. case_decide; subst.
      * intros [= <-]. done.
      * apply Hit.
  - lia.
  - rewrite Hlen. exists pq'. split; [exact Hup |]. split; [done | lia].
Qed.

(** [heap.Pop] of a queue that is not empty. *)
Lemma pop_wf (P : Z → Prop) pq :
  pq_items P pq → PriorityQueue.Len pq > 0 →
  ∃ item pq', heap.pop pq = Done (item, pq') ∧ pq_items P pq' ∧
              PriorityQueue.Len pq' = PriorityQueue.Len pq - 1 ∧
              P (Item.w item).
Proof.
  intros Hwf Hlen. unfold heap.pop.
  change (heap.Len ?q) with (PriorityQueue.Len q).
  destruct (Swap_wf P pq 0 (PriorityQueue.Len pq - 1)) as (pq1 & -> & Hwf1 & Hlen1);
    [done | lia | lia |].
  cbn [mbind outcome_bind].
  destruct (down_wf P pq1 0 (PriorityQueue.Len pq - 1)) as (pq2 & b & -> & Hwf2 & Hlen2);
    [done | lia | lia |].
  cbn [mbind outcome_bind].
  change (heap.Pop pq2) with (PriorityQueue.Pop pq2). unfold PriorityQueue.Pop.
  destruct Hwf2 as [Hdom Hit].
  destruct (proj2 (Hdom (PriorityQueue.Len pq2 - 1))) as [item Hitem]; [lia |].
  rewrite Hitem. exists (Item.with_index item (-1)), (delete (PriorityQueue.Len pq2 - 1) pq2).
  split; [done |].
  assert (PriorityQueue.Len (delete (PriorityQueue.Len pq2 - 1) pq2)
          = PriorityQueue.Len pq2 - 1) as Hlen3.
  { unfold PriorityQueue.Len at 1 3. erewrite map_size_delete_Some by done.
    unfold PriorityQueue.Len in Hlen, Hlen1, Hlen2. lia. }
  split; [| split; [lia | by apply Hit in Hitem as [_ ?]]].
  split.
  - intros k. rewrite Hlen3, lookup_delete. case_decide; subst.
    + split; [intros [? [=]] | lia].
    + rewrite Hdom. lia.
  - intros k it. rewrite lookup_delete. case_decide; [done | apply Hit].
Qed.

Lemma Fix_wf (P : Z → Prop) pq (i : Z) :
  pq_items P pq → 0 ≤ i < PriorityQueue.Len pq →
  ∃ pq', heap.Fix pq i = Done pq' ∧ pq_items P pq' ∧
         PriorityQueue.Len pq' = PriorityQueue.Len pq.
Proof.
  intros Hwf Hi. unfold heap.Fix.
  change (heap.Len ?q) with (PriorityQueue.Len q).
  destruct (down_wf P pq i (PriorityQueue.Len pq)) as (pq1 & b & -> & Hwf1 & Hlen1);
    [done | lia | lia |].
  cbn [mbind outcome_bind]. destruct b; simpl; [eauto |].
  destruct (up_wf P pq1 i) as (pq2 & -> & Hwf2 & Hlen2); [done | lia |].
  exists pq2. split; [done |]. split; [done | congruence].
Qed.

(** [pq.update] of the item under a key of the queue. *)
Lemma update_wf (P : Z → Prop) pq (k : Z) (d : float64) :
  pq_items P pq → is_Some (pq !! k) →
  ∃ pq', PriorityQueue.update pq k d = Done pq' ∧ pq_items P pq' ∧
         PriorityQueue.Len pq' = PriorityQueue.Len pq.
Proof.
  intros Hwf [item Hitem]. unfold PriorityQueue.update. rewrite Hitem.
  destruct Hwf as [Hdom Hit]. destruct (Hit _ _ Hitem) as [Hidx Hw].
  assert (PriorityQueue.Len (<[k:=Item.with_distance item d]> pq)
          = PriorityQueue.Len pq) as Hlen.
  { unfold PriorityQueue.Len. by rewrite map_size_insert_Some. }
  destruct (Fix_wf P (<[k:=Item.with_distance item d]> pq) (Item.index item))
    as (pq' & -> & Hwf' & Hlen').
  - split.
    + intros j. rewrite Hlen, <- Hdom, lookup_insert.
      case_decide; subst; split; intros ?; eauto.
    + intros j it. rewrite lookup_insert. case_decide; subst.
      * intros [= <-]. done.
      * apply Hit.
  - rewrite Hlen, Hidx. apply Hdom. eauto.
  - exists pq'. split; [done |]. split; [done | congruence].
Qed.

(** [heap.Init] of the queue that holds the first item only. *)
Lemma Init_singleton (P : Z → Prop) (x : Item.t) :
  Item.index x = 0 → P (Item.w x) →
  heap.Init (<[0 := x]> (∅ : PriorityQueue)) = Done (<[0 := x]> ∅) ∧
  pq_items P (<[0 := x]> ∅) ∧ PriorityQueue.Len (<[0 := x]> (∅ : PriorityQueue)) = 1.
Proof.
  intros Hidx Hw.
  assert (PriorityQueue.Len (<[0 := x]> (∅ : PriorityQueue)) = 1) as Hlen.
  { unfold PriorityQueue.Len. by rewrite map_size_insert_None, map_size_empty. }
  split; [| split; [| exact Hlen]].
  - unfold heap.Init. change (heap.Len ?q) with (PriorityQueue.Len q).
    rewrite Hlen. reflexivity.
  - split.
    + intros k. rewrite Hlen, lookup_insert. case_decide; subst.
      * split; [lia | eauto].
      * rewrite lookup_empty. split; [intros [? [=]] | lia].
    + intros k it. rewrite lookup_insert. case_decide; subst.
      * intros [= <-]. done.
      * by rewrite lookup_empty.
Qed.
End heap_facts.

(** ** findMST returns *)

Lemma count_le {A} (P P' : A → bool) (l : list A) :
  (∀ x, x ∈ l → P' x = true → P x = true) → (count P' l ≤ count P l)%nat.
Proof.
  induction l as [| x l IH]; intros Himp; simpl; [lia |].
  specialize (IH (λ y Hy, Himp y (list_elem_of_further _ _ _ Hy))).
  pose proof (Himp x (list_elem_of_here _ _)) as Hx.
  destruct (P' x), (P x); simpl; lia.
Qed.

Lemma count_lt {A} (P P' : A → bool) (l : list A) (x : A) :
  (∀ y, y ∈ l → P' y = true → P y = true) →
  x ∈ l → P x = true → P' x = false → (count P' l < count P l)%nat.
Proof.
  induction l as [| y l IH]; intros Himp Hx HP HP'; [by apply elem_of_nil in Hx |].
  simpl. apply elem_of_cons in Hx as [<- | Hx].
  - rewrite HP, HP'. simpl.
    pose proof (count_le P P' l (λ y Hy, Himp y (list_elem_of_further _ _ _ Hy))). lia.
  - specialize (IH (λ z Hz, Himp z (list_elem_of_further _ _ _ Hz)) Hx HP HP').
    pose proof (Himp y (list_elem_of_here _ _)) as Hy.
    destruct (P' y), (P y); simpl; lia.
Qed.

Lemma count_length {A} (P : A → bool) (l : list A) : (count P l ≤ length l)%nat.
Proof. induction l as [| x l IH]; simpl; [lia |]. destruct (P x); simpl; lia. Qed.

Section findMST_returns.
Context `{Float64}.
Hypothesis Hlt : lt_strict.

Let pairs (n : nat) : list (nat * nat) := list_prod (seq 0 n) (seq 0 n).

Lemma elem_of_pairs (n v w : nat) : (v < n)%nat → (w < n)%nat → (v, w) ∈ pairs n.
Proof.
  intros Hv Hw. unfold pairs. apply list_elem_of_In. apply in_prod; apply in_seq; lia.
Qed.

(** Lowering [distTo[w]] to the entry [dist] of row [v], which was less,
    takes the pair (v, w) out of the pending ones and adds none. *)
Lemma pending_after_write (g : list (list float64)) (n : nat)
    (marked : list bool) (distTo : list float64) (v w : nat)
    (gv : list float64) (dist dw : float64) :
  g !! v = Some gv → gv !! w = Some dist → (v < n)%nat → (w < n)%nat →
  marked !! w = Some false → distTo !! w = Some dw → f_lt dist dw = true →
  (count (pending g marked (<[w := dist]> distTo)) (pairs n)
   < count (pending g marked distTo) (pairs n))%nat.
Proof.
  intros Hgv Hdist Hv Hw Hm Hdw Hless. destruct Hlt as [Hirr Htrans].
  apply (count_lt _ _ _ (v, w)).
  - intros [v' w'] _. unfold pending. simpl.
    destruct (decide (w' = w)) as [-> | Hne].
    + rewrite Hm, Hdw, list_lookup_insert_eq by (by eapply lookup_lt_Some).
      destruct (g !! v' ≫= (.!! w)) as [d |]; [| done].
      intros Hd. by eapply Htrans.
    + by rewrite list_lookup_insert_ne.
  - by apply elem_of_pairs.
  - unfold pending. simpl. rewrite Hm, Hgv, Hdw. simpl. by rewrite Hdist.
  - unfold pending. simpl. rewrite Hm, Hgv. simpl.
    rewrite Hdist, list_lookup_insert_eq by (by eapply lookup_lt_Some).
    apply Hirr.
Qed.

(** Marking a vertex adds no pending pair. *)
Lemma pending_after_mark (g : list (list float64)) (n : nat)
    (marked : list bool) (distTo : list float64) (v : nat) :
  (count (pending g (<[v := true]> marked) distTo) (pairs n)
   ≤ count (pending g marked distTo) (pairs n))%nat.
Proof.
  apply count_le. intros [v' w'] _. unfold pending. simpl.
  destruct (decide (w' = v)) as [-> | Hne].
  - destruct (decide (v < length marked)%nat).
    + by rewrite list_lookup_insert_eq.
    + by rewrite list_insert_ge by lia.
  - by rewrite list_lookup_insert_ne.
Qed.

Lemma visit_range_returns (g : list (list float64)) (n : nat) (v : Z)
    (gv row : list float64) (w : Z) (s : PrimMST.vars) :
  g !! Z.to_nat v = Some gv → 0 ≤ v < Z.of_nat n → length gv = n →
  0 ≤ w → row = drop (Z.to_nat w) gv → vars_wf n s →
  ∃ s', PrimMST.visit_range v row w s = Done s' ∧ vars_wf n s' ∧
        work g n s' ≤ work g n s.
Proof.
  intros Hgv Hv Hlen. revert w s.
  induction row as [| dist row IH]; intros w s Hw Hrow Hwf.
  { exists s. split; [done |]. split; [done | lia]. }
  assert (gv !! Z.to_nat w = Some dist) as Hdist.
  { pose proof (lookup_drop gv (Z.to_nat w) 0) as Hl0. rewrite <- Hrow in Hl0.
    simpl in Hl0. by rewrite Nat.add_0_r in Hl0. }
  assert (row = drop (Z.to_nat (w + 1)) gv) as Hrow'.
  { rewrite (drop_S _ _ _ Hdist) in Hrow. injection Hrow as ->.
    f_equal. lia. }
  assert (Z.to_nat w < n)%nat as Hwn.
  { rewrite <- Hlen. by eapply lookup_lt_Some. }
  destruct Hwf as (Hlm & Hld & Hlt' & Hpq).
  destruct (lookup_lt_is_Some_2 (PrimMST.marked s) (Z.to_nat w)) as [m Hm]; [lia |].
  destruct (lookup_lt_is_Some_2 (PrimMST.distTo s) (Z.to_nat w)) as [dw Hdw]; [lia |].
  simpl. rewrite (proj2 (slice_get_Done _ w m)) by done. cbn [mbind outcome_bind].
  destruct m.
  { apply IH; [lia | done | done]. }
  rewrite (proj2 (slice_get_Done _ w dw)) by done. cbn [mbind outcome_bind].
  destruct (f_lt dist dw) eqn:Hless; [| apply IH; [lia | done | done]].
  rewrite (proj2 (slice_set_Done (PrimMST.tree s) _ w _)) by (unfold len; split; [lia | done]).
  cbn [mbind outcome_bind].
  rewrite (proj2 (slice_set_Done (PrimMST.distTo s) _ w _)) by (unfold len; split; [lia | done]).
  cbn [mbind outcome_bind].
  assert (∃ pq', match PrimMST.pq s !! w with
                 | Some _ => PriorityQueue.update (PrimMST.pq s) w dist
                 | None => heap.push (PrimMST.pq s) (Item.mk (Edge.mk v w) 0 dist)
                 end = Done pq' ∧ pq_wf (Z.of_nat n) pq' ∧
                 PriorityQueue.Len pq' ≤ PriorityQueue.Len (PrimMST.pq s) + 1)
    as (pq' & -> & Hpq' & Hlen').
  { destruct (PrimMST.pq s !! w) eqn:Hq.
    - destruct (update_wf (λ w, 0 ≤ w < Z.of_nat n) (PrimMST.pq s) w dist) as (pq' & ? & ? & ?);
        [done | by rewrite Hq |]. exists pq'. split; [done |]. split; [done | lia].
    - destruct (push_wf (λ w, 0 ≤ w < Z.of_nat n) (PrimMST.pq s) (Item.mk (Edge.mk v w) 0 dist))
        as (pq' & ? & ? & ?); [done | unfold Item.w; simpl; lia |].
      exists pq'. split; [done |]. split; [done | lia]. }
  cbn [mbind outcome_bind].
  edestruct (IH (w + 1)) as (s' & Hrun & Hwf' & Hwork); [lia | done | | ].
  2: { exists s'. split; [exact Hrun |]. split; [exact Hwf' |].
       etransitivity; [exact Hwork |]. unfold work. simpl.
       pose proof (pending_after_write g n (PrimMST.marked s) (PrimMST.distTo s)
                     (Z.to_nat v) (Z.to_nat w) gv dist dw Hgv Hdist) as Hpend.
       fold (pairs n). specialize (Hpend ltac:(lia) Hwn Hm Hdw Hless). lia. }
  unfold vars_wf. simpl. rewrite !length_insert. done.
Qed.

Lemma visit_returns (g : list (list float64)) (n : nat) (v : Z) (s : PrimMST.vars) :
  square n g → 0 ≤ v < Z.of_nat n → vars_wf n s →
  ∃ s', PrimMST.visit g v s = Done s' ∧ vars_wf n s' ∧ work g n s' ≤ work g n s.
Proof.
  intros [Hrows Hcols] Hv (Hlm & Hld & Hlt' & Hpq). unfold PrimMST.visit.
  rewrite (proj2 (slice_set_Done (PrimMST.marked s) _ v true))
    by (unfold len; split; [lia | done]).
  cbn [mbind outcome_bind].
  destruct (lookup_lt_is_Some_2 g (Z.to_nat v)) as [gv Hgv]; [lia |].
  rewrite (proj2 (slice_get_Done _ v gv)) by (split; [lia | done]).
  cbn [mbind outcome_bind].
  destruct (visit_range_returns g n v gv gv 0
               (PrimMST.mkvars (PrimMST.edges s) (PrimMST.tree s)
                  (<[Z.to_nat v:=true]> (PrimMST.marked s)) (PrimMST.distTo s)
                  (PrimMST.pq s)))
    as (s' & Hrun & Hwf' & Hwork); [done | done | | done | done | | ].
  - apply Hcols. by eapply list_elem_of_lookup_2.
  - unfold vars_wf. simpl. by rewrite length_insert.
  - exists s'. split; [exact Hrun |]. split; [done |].
    etransitivity; [exact Hwork |]. unfold work. simpl.
    pose proof (pending_after_mark g n (PrimMST.marked s) (PrimMST.distTo s) (Z.to_nat v)).
    fold (pairs n). lia.
Qed.

(** The loop of findMST returns as soon as the fuel exceeds the work that
    is left. *)
Lemma findMST_loop_returns (g : list (list float64)) (n : nat) (fuel : nat)
    (s : PrimMST.vars) (popped : list Z) :
  square n g → vars_wf n s → work g n s < Z.of_nat fuel →
  ∃ s' popped', PrimMST.findMST_loop fuel g s popped = Done (s', popped') ∧
                vars_wf n s'.
Proof.
  intros Hg. revert s popped.
  induction fuel as [| fuel IH]; intros s popped Hwf Hwork.
  { unfold work in Hwork. unfold PriorityQueue.Len in Hwork. lia. }
  simpl. case_decide as Hlen; [| eauto].
  destruct Hwf as (Hlm & Hld & Hlt' & Hpq).
  destruct (pop_wf (λ w, 0 ≤ w < Z.of_nat n) (PrimMST.pq s)) as (item & pq' & -> & Hpq' & Hlen' & Hw);
    [done | done |].
  cbn [mbind outcome_bind].
  destruct (visit_returns g n (Item.w item)
              (PrimMST.mkvars (PrimMST.edges s) (PrimMST.tree s) (PrimMST.marked s)
                 (PrimMST.distTo s) pq'))
    as (s1 & -> & Hwf1 & Hwork1); [done | done | done |].
  cbn [mbind outcome_bind]. apply IH; [done |].
  unfold work in *. simpl in Hwork1. lia.
Qed.

(** findMST returns for every square matrix over at least one vertex. *)
Lemma findMST_returns (fuel : nat) (h : store) (p : PrimMST.t) :
  let n := length (PrimMST.location p) in
  (1 ≤ n)%nat → square n (PrimMST.graph p) → (n * n + 2 ≤ fuel)%nat →
  ∃ h' p' popped, PrimMST.findMST fuel h p = Done (None, h', p', popped) ∧
                  length (PrimMST.mst p') = n.
Proof.
  intros n Hn Hg Hfuel. unfold PrimMST.findMST. cbv zeta. fold n.
  rewrite (proj2 (slice_set_Done (replicate n MaxFloat64) _ 0 MaxFloat64))
    by (unfold len; rewrite length_replicate; split; [lia | done]).
  cbn [mbind outcome_bind].
  destruct (Init_singleton (λ w, 0 ≤ w < Z.of_nat n) (Item.mk (Edge.mk 0 0) 0 MaxFloat64))
    as (-> & Hwf & Hlen); [done | unfold Item.w; simpl; lia |].
  cbn [mbind outcome_bind].
  edestruct (findMST_loop_returns (PrimMST.graph p) n fuel) as (s' & popped & -> & Hwf');
    [done | | | ].
  - unfold vars_wf. simpl. rewrite length_insert, !length_replicate. done.
  - unfold work. simpl. rewrite Hlen.
    pose proof (count_length
      (pending (PrimMST.graph p) (replicate n false)
         (<[Z.to_nat 0:=MaxFloat64]> (replicate n MaxFloat64)))
      (list_prod (seq 0 n) (seq 0 n))) as Hc.
    rewrite length_prod, length_seq in Hc. lia.
  - cbn [mbind outcome_bind]. eexists _, _, _. split; [reflexivity |].
    simpl. by destruct Hwf' as (_ & _ & ? & _).
Qed.
End findMST_returns.

(** ** findMST does not depend on the store it allocates in *)

Lemma outcome_rel_bind {A B A' B'} (R : A → B → Prop) (R' : A' → B' → Prop)
    (m1 : outcome A) (m2 : outcome B) (f1 : A → outcome A') (f2 : B → outcome B') :
  outcome_rel R m1 m2 →
  (∀ a b, R a b → outcome_rel R' (f1 a) (f2 b)) →
  outcome_rel R' (m1 ≫= f1) (m2 ≫= f2).
Proof. destruct m1, m2; simpl; try done. intros HR Hf. by apply Hf. Qed.

Lemma outcome_rel_eq_refl {A} (m : outcome A) : outcome_rel eq m m.
Proof. by destruct m. Qed.

Lemma tree_edges_length (h : store) (tree : list (option loc)) :
  length (tree_edges h tree) = length tree.
Proof. apply length_fmap. Qed.

(** A slot that is set to a fresh edge object points to that edge; the other
    slots point to what they pointed to. *)
Lemma tree_edges_alloc (h : store) (tree : list (option loc)) (w : nat) (e : Edge.t) :
  tree_valid h tree →
  tree_edges (h ++ [e]) (<[w := Some (length h)]> tree)
  = <[w := Some e]> (tree_edges h tree).
Proof.
  intros Hvalid. unfold tree_edges. rewrite list_fmap_insert. simpl.
  rewrite lookup_app_r, Nat.sub_diag by lia. simpl. f_equal.
  apply list_eq. intros i. rewrite !list_lookup_fmap.
  destruct (tree !! i) as [[l |] |] eqn:Hi; simpl; [| done | done].
  f_equal. apply lookup_app_l. by eapply Hvalid.
Qed.

Lemma tree_valid_alloc (h : store) (tree : list (option loc)) (w : nat) (e : Edge.t) :
  tree_valid h tree → tree_valid (h ++ [e]) (<[w := Some (length h)]> tree).
Proof.
  intros Hvalid i l Hl. rewrite length_app. simpl.
  destruct (decide (i = w)) as [-> | Hne].
  - destruct (decide (w < length tree)%nat).
    + rewrite list_lookup_insert_eq in Hl by done. injection Hl as <-. lia.
    + rewrite list_insert_ge in Hl by lia. apply Hvalid in Hl. lia.
  - rewrite list_lookup_insert_ne in Hl by done. apply Hvalid in Hl. lia.
Qed.

Lemma slice_set_rel {A B} (s1 : list A) (s2 : list B) (i : Z) (x1 : A) (x2 : B) :
  length s1 = length s2 →
  outcome_rel (λ r1 r2, r1 = <[Z.to_nat i := x1]> s1 ∧ r2 = <[Z.to_nat i := x2]> s2)
    (slice_set s1 i x1) (slice_set s2 i x2).
Proof.
  intros Hlen. unfold slice_set. rewrite Hlen. case_decide; simpl; done.
Qed.

Section determinism.
Context `{Float64}.

Lemma visit_range_sim (v : Z) (row : list float64) (w : Z) (s1 s2 : PrimMST.vars) :
  vars_sim s1 s2 →
  outcome_rel vars_sim (PrimMST.visit_range v row w s1) (PrimMST.visit_range v row w s2).
Proof.
  revert w s1 s2. induction row as [| dist row IH]; intros w s1 s2 Hsim; [done |].
  destruct s1 as [h1 t1 m1 d1 q1], s2 as [h2 t2 m2 d2 q2].
  destruct Hsim as (Hm & Hd & Hq & Ht & Hv1 & Hv2). simpl in *. subst m2 d2 q2.
  destruct (slice_get m1 w) as [m | |]; simpl; [| done | done].
  destruct m; [apply IH; by repeat split |].
  destruct (slice_get d1 w) as [dw | |]; simpl; [| done | done].
  destruct (f_lt dist dw); [| apply IH; by repeat split].
  eapply outcome_rel_bind.
  { apply slice_set_rel. by rewrite <- (tree_edges_length h1), Ht, tree_edges_length. }
  intros t1' t2' [-> ->].
  destruct (slice_set d1 w dist) as [d1' | |]; simpl; [| done | done].
  destruct (match q1 !! w with
            | Some _ => PriorityQueue.update q1 w dist
            | None => heap.push q1 (Item.mk (Edge.mk v w) 0 dist)
            end) as [q1' | |]; simpl; [| done | done].
  apply IH. repeat split; simpl.
  - rewrite !tree_edges_alloc by done. by rewrite Ht.
  - by apply tree_valid_alloc.
  - by apply tree_valid_alloc.
Qed.

Lemma findMST_loop_sim (fuel : nat) (g : list (list float64))
    (s1 s2 : PrimMST.vars) (popped : list Z) :
  vars_sim s1 s2 →
  outcome_rel (λ r1 r2, vars_sim r1.1 r2.1 ∧ r1.2 = r2.2)
    (PrimMST.findMST_loop fuel g s1 popped) (PrimMST.findMST_loop fuel g s2 popped).
Proof.
  revert s1 s2 popped. induction fuel as [| fuel IH]; intros s1 s2 popped Hsim; [done |].
  destruct s1 as [h1 t1 m1 d1 q1], s2 as [h2 t2 m2 d2 q2].
  pose proof Hsim as (Hm & Hd & Hq & Ht & Hv1 & Hv2). simpl in *. subst m2 d2 q2.
  case_decide; [| done].
  destruct (heap.pop q1) as [[item q1'] | |]; simpl; [| done | done].
  eapply outcome_rel_bind; [| intros a b Hab; by apply IH].
  unfold PrimMST.visit. simpl.
  destruct (slice_set m1 (Item.w item) true) as [m1' | |]; simpl; [| done | done].
  destruct (slice_get g (Item.w item)) as [row | |]; simpl; [| done | done].
  apply visit_range_sim. by repeat split.
Qed.

(** The outcome of findMST, the edges in the slots of the tree and the
    popped vertices depend on the matrix and on the number of vertices
    only, not on the store or on the tree of the receiver. *)
Lemma findMST_deterministic (fuel : nat) (h1 h2 : store) (p1 p2 : PrimMST.t) :
  PrimMST.graph p1 = PrimMST.graph p2 →
  length (PrimMST.location p1) = length (PrimMST.location p2) →
  outcome_rel same_tree (PrimMST.findMST fuel h1 p1) (PrimMST.findMST fuel h2 p2).
Proof.
  intros Hg Hn. unfold PrimMST.findMST. cbv zeta. rewrite Hg, Hn.
  destruct (slice_set _ 0 MaxFloat64) as [d0 | |]; simpl; [| done | done].
  destruct (heap.Init _) as [q0 | |]; simpl; [| done | done].
  eapply outcome_rel_bind.
  { apply findMST_loop_sim. repeat split; simpl.
    - unfold tree_edges. rewrite !fmap_replicate. done.
    - intros i l [[=] _]%lookup_replicate.
    - intros i l [[=] _]%lookup_replicate. }
  intros [s1 pop1] [s2 pop2] [Hsim Hpop]. simpl in *.
  destruct Hsim as (_ & _ & _ & Ht & _). by repeat split.
Qed.

(** C8. Running findMST a second time, on the receiver and the store that
    the first run left, returns as the first run did, pops the same
    vertices, and stores in every slot of the tree an edge equal to the
    one the first run stored there. *)
Theorem findMST_twice_same_tree (fuel : nat) (h h1 : store) (p p1 : PrimMST.t)
    (e : option error) (popped : list Z) :
  PrimMST.findMST fuel h p = Done (e, h1, p1, popped) →
  ∃ h2 p2, PrimMST.findMST fuel h1 p1 = Done (e, h2, p2, popped) ∧
           tree_edges h2 (PrimMST.mst p2) = tree_edges h1 (PrimMST.mst p1).
Proof.
  intros Hrun. pose proof (findMST_Done _ _ _ _ _ _ _ Hrun) as (-> & Hg & Hl & _).
  assert (outcome_rel same_tree (PrimMST.findMST fuel h p) (PrimMST.findMST fuel h1 p1))
    as Hdet by (apply findMST_deterministic; [done | by rewrite Hl]).
  rewrite Hrun in Hdet.
  destruct (PrimMST.findMST fuel h1 p1) as [[[[e2 h2] p2] popped2] | |];
    simpl in Hdet; [| done | done].
  destruct Hdet as (He & Ht & Hp). simpl in *. subst.
  exists h2, p2. done.
Qed.
End determinism.

(** ** The tree that findMST returns *)

Section findMST_tree.
Context `{Float64}.
Hypothesis Hlt : lt_strict.

Lemma visit_range_tree (n : nat) (v : Z) (gv row : list float64) (w : Z)
    (s s' : PrimMST.vars) :
  PrimMST.visit_range v row w s = Done s' →
  0 ≤ w → 0 ≤ v < Z.of_nat n → row = drop (Z.to_nat w) gv →
  PrimMST.marked s !! Z.to_nat v = Some true → tree_ok n s →
  PrimMST.marked s' = PrimMST.marked s ∧ tree_ok n s' ∧
  (∀ i, PrimMST.marked s !! i = Some true →
        PrimMST.tree s' !! i = PrimMST.tree s !! i) ∧
  (∀ i l, PrimMST.tree s !! i = Some (Some l) →
          ∃ l', PrimMST.tree s' !! i = Some (Some l')) ∧
  (∀ i d dw, (Z.to_nat w ≤ i)%nat → PrimMST.marked s !! i = Some false →
             gv !! i = Some d → PrimMST.distTo s !! i = Some dw →
             f_lt d dw = true → ∃ l', PrimMST.tree s' !! i = Some (Some l')).
Proof.
  intros Hrun Hw Hv. revert w s Hw Hrun.
  induction row as [| dist row IH]; intros w s Hw Hrun Hrow Hmv Hok.
  { injection Hrun as <-. split; [done |]. split; [done |]. split; [done |].
    split; [eauto |]. intros i d dw Hi _ Hd.
    apply lookup_lt_Some in Hd.
    assert (length (drop (Z.to_nat w) gv) = O) as Hlen by (by rewrite <- Hrow).
    rewrite length_drop in Hlen. lia. }
  assert (gv !! Z.to_nat w = Some dist) as Hdist.
  { pose proof (lookup_drop gv (Z.to_nat w) 0) as Hl0. rewrite <- Hrow in Hl0.
    simpl in Hl0. by rewrite Nat.add_0_r in Hl0. }
  assert (row = drop (Z.to_nat (w + 1)) gv) as Hrow'.
  { rewrite (drop_S _ _ _ Hdist) in Hrow. injection Hrow as ->. f_equal. lia. }
  simpl in Hrun. bind_inv Hrun. apply slice_get_Done in Ha as [_ Hm].
  destruct a.
  { (* w is marked *)
    destruct (IH (w + 1) s) as (Hm' & Hok' & Hkeep & Hset & Hnew); try done; [lia |].
    repeat split; try done. intros i d dw Hi Hmi Hd Hdw Hless.
    destruct (decide (i = Z.to_nat w)) as [-> | Hne]; [congruence |].
    apply (Hnew i d dw); [lia | done ..]. }
  bind_inv Hrun. apply slice_get_Done in Ha as [_ Hdw].
  destruct (f_lt dist a) eqn:Hless.
  2: { (* the entry does not lower distTo[w] *)
    destruct (IH (w + 1) s) as (Hm' & Hok' & Hkeep & Hset & Hnew); try done; [lia |].
    repeat split; try done. intros i d dw Hi Hmi Hd Hdwi Hless'.
    destruct (decide (i = Z.to_nat w)) as [-> | Hne]; [congruence |].
    apply (Hnew i d dw); [lia | done ..]. }
  (* the slot of w is set to a fresh edge from v to w *)
  do 3 bind_inv Hrun.
  apply slice_set_Done in Ha as [Hwt ->], Ha0 as [Hwd ->].
  set (s1 := PrimMST.mkvars (PrimMST.edges s ++ [Edge.mk v w])
               (<[Z.to_nat w:=Some (length (PrimMST.edges s))]> (PrimMST.tree s))
               (PrimMST.marked s) (<[Z.to_nat w:=dist]> (PrimMST.distTo s)) a2) in *.
  unfold len in Hwt.
  assert (tree_ok n s1) as Hok1.
  { intros i l Hl. subst s1. simpl in *.
    destruct (decide (i = Z.to_nat w)) as [-> | Hne].
    - rewrite list_lookup_insert_eq in Hl by lia. injection Hl as <-.
      exists (Edge.mk v w). rewrite lookup_app_r, Nat.sub_diag by lia. simpl.
      repeat split; try done; try lia.
      intros ->. rewrite Z2Nat.id in Hmv by lia. congruence.
    - rewrite list_lookup_insert_ne in Hl by done.
      destruct (Hok i l Hl) as (e & He & Hrest). exists e.
      split; [| done]. rewrite lookup_app_l; [done | by eapply lookup_lt_Some]. }
  destruct (IH (w + 1) s1) as (Hm' & Hok' & Hkeep & Hset & Hnew); try done; [lia |].
  subst s1. simpl in *.
  split; [done |]. split; [done |]. split; [| split].
  - intros i Hmi. rewrite (Hkeep i Hmi).
    apply list_lookup_insert_ne. intros <-. congruence.
  - intros i l Hl. destruct (decide (i = Z.to_nat w)) as [-> | Hne].
    + apply (Hset _ (length (PrimMST.edges s))). by apply list_lookup_insert_eq; lia.
    + apply (Hset i l). by rewrite list_lookup_insert_ne.
  - intros i d dw Hi Hmi Hd Hdwi Hless'.
    destruct (decide (i = Z.to_nat w)) as [-> | Hne].
    + apply (Hset _ (length (PrimMST.edges s))). by apply list_lookup_insert_eq; lia.
    + apply (Hnew i d dw); [lia | done | done | | done].
      by rewrite list_lookup_insert_ne.
Qed.

Lemma visit_tree (g : list (list float64)) (n : nat) (v : Z) (gv : list float64)
    (s s' : PrimMST.vars) :
  PrimMST.visit g v s = Done s' → 0 ≤ v < Z.of_nat n →
  g !! Z.to_nat v = Some gv → tree_ok n s →
  PrimMST.marked s' = <[Z.to_nat v := true]> (PrimMST.marked s) ∧ tree_ok n s' ∧
  (∀ i, PrimMST.marked s !! i = Some true ∨ i = Z.to_nat v →
        PrimMST.tree s' !! i = PrimMST.tree s !! i) ∧
  (∀ i l, PrimMST.tree s !! i = Some (Some l) →
          ∃ l', PrimMST.tree s' !! i = Some (Some l')) ∧
  (∀ i d dw, i ≠ Z.to_nat v → PrimMST.marked s !! i = Some false →
             gv !! i = Some d → PrimMST.distTo s !! i = Some dw →
             f_lt d dw = true → ∃ l', PrimMST.tree s' !! i = Some (Some l')).
Proof.
  intros Hrun Hv Hgv Hok. unfold PrimMST.visit in Hrun. do 2 bind_inv Hrun.
  apply slice_set_Done in Ha as [Hvm ->]. unfold len in Hvm.
  apply slice_get_Done in Ha0 as [_ Hgv']. assert (a0 = gv) as -> by congruence.
  destruct (visit_range_tree n v gv gv 0 _ s' Hrun) as (Hm' & Hok' & Hkeep & Hset & Hnew);
    [lia | done | done | | | ].
  - simpl. apply list_lookup_insert_eq. lia.
  - intros i l Hl. simpl in *. destruct (Hok i l Hl) as (e & He & Hw & Hr & Hne & Hme).
    exists e. repeat split; try done; try lia.
    destruct (decide (Z.to_nat (Edge.v e) = Z.to_nat v)) as [-> | ?].
    + apply list_lookup_insert_eq. lia.
    + by rewrite list_lookup_insert_ne.
  - simpl in *. split; [done |]. split; [done |]. split; [| split; [done |]].
    + intros i [Hmi | ->]; apply Hkeep.
      * destruct (decide (i = Z.to_nat v)) as [-> | ?].
        -- apply list_lookup_insert_eq. lia.
        -- by rewrite list_lookup_insert_ne.
      * apply list_lookup_insert_eq. lia.
    + intros i d dw Hne Hmi. apply Hnew; [lia |].
      by rewrite list_lookup_insert_ne.
Qed.

(** Once the root is marked, the loop keeps slot 0 empty and the other
    slots set. *)
Lemma findMST_loop_tree (g : list (list float64)) (n : nat) (fuel : nat)
    (s s' : PrimMST.vars) (popped popped' : list Z) :
  PrimMST.findMST_loop fuel g s popped = Done (s', popped') →
  square n g → vars_wf n s → tree_ok n s →
  PrimMST.marked s !! O = Some true → PrimMST.tree s !! O = Some None →
  tree_full n (PrimMST.tree s) →
  tree_ok n s' ∧ PrimMST.tree s' !! O = Some None ∧ tree_full n (PrimMST.tree s').
Proof.
  intros Hrun Hg. revert s popped Hrun.
  induction fuel as [| fuel IH]; intros s popped Hrun Hwf Hok Hm0 Ht0 Hfull;
    [discriminate |].
  simpl in Hrun. case_decide as Hlen; [| by injection Hrun as <- _].
  do 2 bind_inv Hrun.
  destruct Hwf as (Hlm & Hld & Hlt' & Hpq).
  destruct (pop_wf (λ w, 0 ≤ w < Z.of_nat n) (PrimMST.pq s))
    as (item & pq' & Hpop & Hpq' & _ & Hw); [done | done |].
  rewrite Hpop in Ha. injection Ha as <- <-.
  set (s0 := PrimMST.mkvars (PrimMST.edges s) (PrimMST.tree s) (PrimMST.marked s)
               (PrimMST.distTo s) pq') in *.
  assert (vars_wf n s0) as Hwf0 by done.
  destruct (visit_returns Hlt g n (Item.w item) s0 Hg Hw Hwf0) as (s1 & Hvis & Hwf1 & _).
  rewrite Hvis in Ha0. injection Ha0 as <-.
  destruct Hg as [Hrows Hcols].
  destruct (lookup_lt_is_Some_2 g (Z.to_nat (Item.w item))) as [gv Hgv]; [lia |].
  destruct (visit_tree g n (Item.w item) gv s0 s1 Hvis Hw Hgv Hok)
    as (Hm1 & Hok1 & Hkeep & Hset & _).
  apply (IH s1 _ Hrun); try done.
  - rewrite Hm1. simpl. destruct (decide (O = Z.to_nat (Item.w item))) as [<- | ?].
    + apply list_lookup_insert_eq. lia.
    + by rewrite list_lookup_insert_ne.
  - rewrite (Hkeep O); [done | by left].
  - intros i Hi. destruct (Hfull i Hi) as [l Hl]. by apply (Hset i l).
Qed.

(** A queue with no item has any shape asked of its items. *)
Lemma pq_items_empty (P P' : Z → Prop) (pq : PriorityQueue) :
  pq_items P pq → PriorityQueue.Len pq = 0 → pq_items P' pq.
Proof.
  intros [Hdom Hit] Hlen. split; [done |]. intros k it Hk.
  assert (is_Some (pq !! k)) as Hs by eauto. apply Hdom in Hs. lia.
Qed.

(** The tree of findMST.  For N >= 1 vertices, an N x N
    matrix and entries of row 0 below MaxFloat64 off the diagonal, the
    tree that findMST returns has no edge in slot 0, and in every slot
    w >= 1 an edge object with the field w equal to w and the field v
    another vertex. *)
Lemma findMST_spanning_slots (fuel : nat) (h h' : store) (p p' : PrimMST.t)
    (e : option error) (popped : list Z) :
  PrimMST.findMST fuel h p = Done (e, h', p', popped) →
  let n := length (PrimMST.location p) in
  (1 ≤ n)%nat → square n (PrimMST.graph p) → root_row_finite n (PrimMST.graph p) →
  PrimMST.mst p' !! O = Some None ∧
  ∀ i, (1 ≤ i < n)%nat →
    ∃ l ed, PrimMST.mst p' !! i = Some (Some l) ∧ h' !! l = Some ed ∧
            Edge.w ed = Z.of_nat i ∧ 0 ≤ Edge.v ed < Z.of_nat n ∧
            Edge.v ed ≠ Z.of_nat i.
Proof.
  intros Hrun n Hn Hg Hfin. unfold PrimMST.findMST in Hrun. cbv zeta in Hrun.
  fold n in Hrun. do 3 bind_inv Hrun. injection Hrun as _ <- <- _. simpl.
  apply slice_set_Done in Ha as [_ ->].
  destruct (Init_singleton (λ w, w = 0) (Item.mk (Edge.mk 0 0) 0 MaxFloat64))
    as (Hinit & Hwf0 & Hlen0); [done | done |].
  rewrite Hinit in Ha0. injection Ha0 as <-.
  destruct fuel as [| fuel]; [discriminate |]. simpl in Ha1.
  rewrite decide_True in Ha1 by lia. do 2 bind_inv Ha1.
  destruct (pop_wf (λ w, w = 0) _ Hwf0) as (item & pq' & Hpop & Hpq' & Hlen' & Hw); [lia |].
  rewrite Hpop in Ha. injection Ha as <- <-. rewrite Hw in *.
  set (d0 := <[Z.to_nat 0:=MaxFloat64]> (replicate n MaxFloat64)) in *.
  set (s0 := PrimMST.mkvars h (replicate n None) (replicate n false) d0 pq') in *.
  assert (vars_wf n s0) as Hwfs0.
  { unfold vars_wf. subst s0 d0. simpl. rewrite length_insert, !length_replicate.
    split; [done |]. split; [done |]. split; [done |].
    apply (pq_items_empty (λ w, w = 0)); [done | lia]. }
  assert (tree_ok n s0) as Hok0.
  { intros i l0 [[=] _]%lookup_replicate. }
  destruct (visit_returns Hlt (PrimMST.graph p) n 0 s0 Hg ltac:(lia) Hwfs0)
    as (s1 & Hvis & Hwf1 & _).
  rewrite Hvis in Ha0. injection Ha0 as <-.
  destruct (lookup_lt_is_Some_2 (PrimMST.graph p) O) as [gv Hgv];
    [destruct Hg as [-> _]; lia |].
  destruct (visit_tree (PrimMST.graph p) n 0 gv s0 s1 Hvis ltac:(lia) Hgv Hok0)
    as (Hm1 & Hok1 & Hkeep & Hset & Hnew).
  destruct (findMST_loop_tree _ n _ _ _ _ _ Ha1 Hg Hwf1 Hok1)
    as (Hok' & Ht0 & Hfull).
  - rewrite Hm1. apply list_lookup_insert_eq. subst s0. simpl.
    rewrite length_replicate. lia.
  - rewrite (Hkeep O) by (by right). subst s0. simpl.
    apply lookup_replicate_2. lia.
  - intros i Hi.
    assert (length gv = n) as Hgvn.
    { destruct Hg as [_ Hcols]. apply Hcols. by eapply list_elem_of_lookup_2. }
    destruct (lookup_lt_is_Some_2 gv i) as [d Hd]; [lia |].
    apply (Hnew i d MaxFloat64); subst s0 d0; simpl.
    + lia.
    + apply lookup_replicate_2. lia.
    + done.
    + rewrite list_lookup_insert_ne by lia. apply lookup_replicate_2. lia.
    + by apply (Hfin gv i d).
  - split; [done |]. intros i Hi. destruct (Hfull i Hi) as [l0 Hl].
    destruct (Hok' i l0 Hl) as (ed & Hed & Hwe & Hve & Hne & _).
    exists l0, ed. done.
Qed.
End findMST_tree.

(** ** Runs on concrete inputs *)

(** The comparison of the exact arithmetic is a strict order. *)
Lemma Q_lt_strict : @lt_strict Q_float64.
Proof.
  split; simpl; unfold QFloat.lt.
  - intros x. rewrite (proj1 (Qeq_alt x x) (Qeq_refl x)). done.
  - intros x y z Hxy Hyz.
    destruct (Qcompare x y) eqn:Exy; try discriminate.
    destruct (Qcompare y z) eqn:Eyz; try discriminate.
    apply Qlt_alt in Exy, Eyz.
    by rewrite (proj1 (Qlt_alt x z) (Qlt_trans _ _ _ Exy Eyz)).
Qed.

(** C1. On three vertices in a row, 10 apart, findMST returns the tree of
    the edges 0-1 and 1-2, but it pops four items, not three: vertex 2 is
    handed to visit twice, where one pop for each of the N vertices is
    stated.  When vertex 1 is visited the queue holds one item, under key
    0, so the lookup pq[2] finds nothing and a second item for vertex 2 is
    pushed. *)
Theorem findMST_pops_vertex_twice :
  (λ r, (tree_edges r.1.1.2 (PrimMST.mst r.1.2), r.2))
    <$> PrimMST.findMST 20 [] row3_start
  = Done ([None; Some (Edge.mk 0 1); Some (Edge.mk 1 2)], [0; 1; 2; 2]).
Proof. vm_compute. reflexivity. Qed.

(** C2 as stated fails: with no vertex findMST panics. *)
Lemma findMST_no_vertex_panics :
  PrimMST.findMST 20 [] no_vertex = Panic IndexOutOfRange.
Proof. vm_compute. reflexivity. Qed.

Section findMST_domain.
Context `{Float64}.

(** C2, as the code has it.  With no vertex findMST does not return: the
    assignment distTo[0] = MaxFloat64 is out of range.  With N >= 1
    vertices and an N x N matrix it returns, with no error and a tree of N
    slots, for every bound on the iterations from N*N + 2 on. *)
Theorem findMST_needs_a_vertex (fuel : nat) (h : store) (p : PrimMST.t) :
  lt_strict →
  let n := length (PrimMST.location p) in
  square n (PrimMST.graph p) → (n * n + 2 ≤ fuel)%nat →
  (n = O → PrimMST.findMST fuel h p = Panic IndexOutOfRange) ∧
  ((1 ≤ n)%nat →
   ∃ h' p' popped, PrimMST.findMST fuel h p = Done (None, h', p', popped) ∧
                   length (PrimMST.mst p') = n).
Proof.
  intros Hlt n Hg Hfuel. split.
  - intros Hn. unfold PrimMST.findMST. cbv zeta. fold n. rewrite Hn. reflexivity.
  - intros Hn. by apply findMST_returns.
Qed.
End findMST_domain.

Lemma findMST_needs_a_vertex_witness :
  ∃ h' p' popped,
    PrimMST.findMST 20 [] row3_start = Done (None, h', p', popped) ∧
    length (PrimMST.mst p') = 3%nat.
Proof.
  refine (proj2 (findMST_needs_a_vertex (H := Q_float64) 20 [] row3_start
                   Q_lt_strict _ _) _).
  - split; [reflexivity |]. intros row Hrow.
    repeat (apply elem_of_cons in Hrow as [-> | Hrow]; [reflexivity |]).
    by apply elem_of_nil in Hrow.
  - simpl. lia.
  - simpl. lia.
Defined.

(** C3. A highlight in the bottom row of the grid is not clamped: for two
    vertices at y = ymin the write to the cell below the root, index
    (299+1)*300+30, is out of range and plotMST, hence the handler, panics;
    so does plotSP for a target in the bottom row.  A highlight in the last
    column wraps: for the root at x = xmax the "right" cell is index
    149*300+299+1, the first cell of the next row. *)
Theorem highlight_at_border_panics_or_wraps :
  handleDijkstraSP 20 pair_bottom bounds299 (Request.mk "0" "1")
  = Panic IndexOutOfRange ∧
  handleDijkstraSP 20 pair_target_bottom bounds299 (Request.mk "0" "1")
  = Panic IndexOutOfRange ∧
  (λ pl, Grid.cells (PlotT.Grid pl) !! (150 * columns + 0))
    <$> handleDijkstraSP 20 pair_right bounds299 (Request.mk "" "")
  = Done (Some "startvertexMSS").
Proof. repeat split; vm_compute; reflexivity. Qed.

Lemma target_at_sentinel_is_reported_witness :
  DijksraSP.plotSP 20 row4_23_store
    (DijksraSP.set_plot (PrimMST.plot row4_23_prim) row4_23_dsp)
  = Done (Some (ErrNotFound (DijksraSP.target row4_23_dsp)), row4_23_store,
          DijksraSP.set_plot (PrimMST.plot row4_23_prim) row4_23_dsp) ∧
  ∃ pl, handleDijkstraSP 20 row4 bounds299 row4_23 = Done pl ∧
        PlotT.Status pl = Error (ErrNotFound (DijksraSP.target row4_23_dsp)) ∧
        PlotT.DistanceSP pl = "".
Proof.
  apply (target_at_sentinel_is_reported (H := Q_float64) 20 row4 bounds299 row4_23 None None None
           row4_store row4_23_store row4_prim row4_23_prim [0; 2; 3; 1]
           row4_23_dsp QFloat.MaxFloat64); vm_compute; reflexivity.
Defined.

Lemma findSP_invalid_endpoints_iff_witness :
  (∃ h' dsp', DijksraSP.findSP 20 row4_store row4_dsp (Request.mk "7" "1")
              = Done (Some ErrInvalidVertices, h', dsp'))
  ↔ (7 = 1 ∨ ¬ (0 ≤ 7 < 4) ∨ ¬ (0 ≤ 1 < 4)).
Proof.
  apply (findSP_invalid_endpoints_iff (H := Q_float64) 20 row4_store row4_dsp (Request.mk "7" "1") 7 1);
    reflexivity.
Defined.

(** C6. On the four vertices of [row4] the query from vertex 2 to vertex 3
    ends with the error "distance to vertex 3 not found" and no distance,
    while the query from vertex 3 to vertex 2 succeeds with the distance
    40.00: the two directions do not yield the same length.  From vertex 2
    the edge to vertex 0 is relaxed when the queue holds one item, under
    key 0; the lookup pq[0] finds it, so vertex 0 is never pushed and the
    search never reaches vertex 3 behind it. *)
Theorem shortest_path_not_symmetric :
  (λ pl, (PlotT.Status pl, PlotT.DistanceSP pl))
    <$> handleDijkstraSP 20 row4 bounds299 row4_23
  = Done ("distance to vertex 3 not found", "") ∧
  (λ pl, (PlotT.Status pl, PlotT.DistanceSP pl, PlotT.Source pl, PlotT.Target pl))
    <$> handleDijkstraSP 20 row4 bounds299 row4_32
  = Done ("Enter Source and Target Vertices (0-V-1) for another SP", "40.00", "3", "2").
Proof. split; vm_compute; reflexivity. Qed.

(** C7 as stated fails.  On the five vertices of [five] plotMST returns;
    the root, an end of the edge in slot 2, has its cell labeled
    "startvertexMSS", and vertex 3, an end of the edge 4-3 in slot 3, has its
    cell labeled "edge": a sample of the edge 2-4, drawn later from slot 4,
    falls on it. *)
Lemma end_cells_not_all_labeled_vertex :
  PrimMST.plotMST five_store five_prim = Done (None, five_plotted) ∧
  PrimMST.plot five_plotted = Some five_plot ∧
  Grid.get (PlotT.Grid five_plot) (cell_of bounds299 (inject_Z 193) (inject_Z 178))
  = Done "startvertexMSS" ∧
  Grid.get (PlotT.Grid five_plot) (cell_of bounds299 (inject_Z 255) (inject_Z 74))
  = Done "edge" ∧
  ¬ ends_labeled_vertex five_store five_prim five_plot.
Proof.
  split; [vm_compute; reflexivity |]. split; [vm_compute; reflexivity |].
  split; [vm_compute; reflexivity |]. split; [vm_compute; reflexivity |].
  intros Hall.
  specialize (Hall 3%nat 7%nat (Edge.mk 4 3) (at_point 255 74)
                ltac:(lia) eq_refl eq_refl (or_intror eq_refl)).
  vm_compute in Hall. discriminate.
Qed.

(** What the samples of a later edge do to the cell of a vertex: on the
    five vertices of [five] findMST stores the edge 4-3 in slot 3 and the
    edge 2-4 in slot 4, a sample of the edge 2-4 falls on the cell of
    vertex 3, and that cell is left labeled "edge". *)
Example later_edge_covers_vertex :
  (λ pl, Grid.get (PlotT.Grid pl) (cell_of bounds299 (inject_Z 255) (inject_Z 74)))
    <$> handleDijkstraSP 40 five bounds299 (Request.mk "" "")
  = Done (Done "edge").
Proof. vm_compute. reflexivity. Qed.

(** The edge in slot 1 of the tree of [row4] goes from vertex 2 to vertex 1;
    its first sample falls on the cell of vertex 2, the edges in the slots 2
    and 3 come after it, and the cell of vertex 2 is left labeled
    "vertex". *)
Lemma end_cell_labeled_vertex_witness :
  In (cell_of bounds299 (at_point 50 150).1 (at_point 50 150).2)
     (edge_cells bounds299 row4 (Edge.mk 2 1)) ∧
  PrimMST.mst row4_prim = [None; Some 3%nat; Some 1%nat; Some 2%nat] ∧
  Grid.get (PlotT.Grid row4_plot)
    (cell_of (PrimMST.endpoints row4_prim) (at_point 50 150).1 (at_point 50 150).2)
  = Done "vertex".
Proof.
  split; [vm_compute; tauto |]. split; [reflexivity |].
  refine (end_cell_labeled_vertex (H := Q_float64) row4_store row4_prim row4_plotted None
            row4_plot 1%nat 3%nat (Edge.mk 2 1) (at_point 50 150)
            _ _ _ _ _ _ _ _).
  - vm_compute. reflexivity.
  - vm_compute. reflexivity.
  - lia.
  - reflexivity.
  - reflexivity.
  - left. reflexivity.
  - intros [| [| [| [| j]]]] l' ed' Hlt Hj Hed'; try lia; try discriminate;
      injection Hj as <-; injection Hed' as <-; vm_compute; intros Hin;
      repeat (apply elem_of_cons in Hin as [Hin | Hin]; [discriminate |]);
      by apply elem_of_nil in Hin.
  - intros z0 [= <-]. vm_compute. intros Hin.
    repeat (apply elem_of_cons in Hin as [Hin | Hin]; [discriminate |]).
    by apply elem_of_nil in Hin.
Defined.

Lemma findMST_twice_same_tree_witness :
  ∃ h2 p2,
    PrimMST.findMST 20 row4_store row4_prim = Done (None, h2, p2, [0; 2; 3; 1]) ∧
    tree_edges h2 (PrimMST.mst p2) = tree_edges row4_store (PrimMST.mst row4_prim).
Proof.
  apply (findMST_twice_same_tree (H := Q_float64) 20 [] row4_store row4_start).
  vm_compute. reflexivity.
Defined.

(** The query from vertex 3 to vertex 2 on [row4] turns the edge of slot 3
    round: it was stored as v = 0, w = 3 and is left as v = 3, w = 0. *)
Lemma query_keeps_tree_ends_witness :
  ∃ e', row4_32_final.1 !! 2%nat = Some e' ∧
        ((Edge.v e' = 0 ∧ Edge.w e' = 3) ∨ (Edge.v e' = 3 ∧ Edge.w e' = 0)).
Proof.
  refine (proj2 (query_keeps_tree_ends (H := Q_float64) 20 20 row4_store row4_32_store row4_32_final.1
                   row4_dsp row4_32_dsp row4_32_final.2 row4_32
                   (PrimMST.plot row4_32_prim) None None _ _)
            3%nat 2%nat (Edge.mk 0 3) _ _);
    vm_compute; reflexivity.
Defined.

Example query_turns_an_edge :
  row4_store !! 2%nat = Some (Edge.mk 0 3) ∧
  row4_32_final.1 !! 2%nat = Some (Edge.mk 3 0).
Proof. split; reflexivity. Qed.

Lemma plotSP_error_changes_nothing_witness :
  ∃ h' dsp',
    DijksraSP.plotSP 20 row4_23_store
      (DijksraSP.set_plot (PrimMST.plot row4_23_prim) row4_23_dsp)
    = Done (Some (ErrNotFound 3), h', dsp') ∧
    h' = row4_23_store ∧
    dsp' = DijksraSP.set_plot (PrimMST.plot row4_23_prim) row4_23_dsp ∧
    (PlotT.Grid <$> DijksraSP.plot dsp') = (PlotT.Grid <$> PrimMST.plot row4_23_prim) ∧
    DijksraSP.plot dsp' = PrimMST.plot row4_23_prim.
Proof.
  apply (plotSP_error_changes_nothing (H := Q_float64) 20 row4_23_store
           (DijksraSP.set_plot (PrimMST.plot row4_23_prim) row4_23_dsp)).
  right. exists QFloat.MaxFloat64. split; vm_compute; reflexivity.
Defined.

(** ** The methods of the priority queue *)

Section queue_methods.
Context `{Float64}.
Implicit Types pq : PriorityQueue.

Lemma with_index_index (it : Item.t) : Item.with_index it (Item.index it) = it.
Proof. by destruct it. Qed.

(** X1. Push followed by Pop is a round trip: when the key Len is free, as
  it is in a queue whose keys are 0 .. Len-1, Pop returns the item that
  was pushed, with its index set to -1, and leaves the queue that Push
  was called on. *)
Theorem Push_then_Pop pq (x : Item.t) :
pq !! PriorityQueue.Len pq = None →
PriorityQueue.Push pq x ≫= PriorityQueue.Pop
= Done (Item.with_index x (-1), pq).
Proof.
intros Hnew. unfold PriorityQueue.Push. cbn [mbind outcome_bind].
unfold PriorityQueue.Pop. cbv zeta.
rewrite Len_insert_new by done.
replace (PriorityQueue.Len pq + 1 - 1) with (PriorityQueue.Len pq) by lia.
rewrite lookup_insert_eq. f_equal. f_equal.
rewrite delete_insert_eq. by apply delete_id.
Qed.

(** X2. Swap is its own inverse on a queue whose items record their keys:
  swapping the items under two keys twice gives the queue back, the index
  fields included. *)
Theorem Swap_twice pq (i j : Z) (a b : Item.t) :
pq !! i = Some a → pq !! j = Some b → Item.index a = i → Item.index b = j →
PriorityQueue.Swap pq i j ≫= (λ pq', PriorityQueue.Swap pq' i j) = Done pq.
Proof.
intros Ha Hb Hia Hib. unfold PriorityQueue.Swap. rewrite Ha, Hb.
cbn [mbind outcome_bind]. rewrite lookup_insert_eq.
assert (<[j:=Item.with_index a j]> (<[i:=Item.with_index b i]> pq) !! i
        = Some (Item.with_index b i)) as ->.
{ destruct (decide (i = j)) as [-> | Hne].
  - rewrite lookup_insert_eq. f_equal. assert (a = b) as -> by congruence. done.
  - rewrite lookup_insert_ne by done. by rewrite lookup_insert_eq. }
f_equal. apply map_eq. intros k.
assert (Item.with_index (Item.with_index b i) j = b) as ->.
{ destruct b; simpl in *; by subst. }
assert (Item.with_index (Item.with_index a j) i = a) as ->.
{ destruct a; simpl in *; by subst. }
rewrite !lookup_insert. repeat case_decide; subst; congruence.
Qed.
End queue_methods.

Lemma Push_then_Pop_witness :
  PriorityQueue.Push (H := Q_float64) queue_01 item_12 ≫= PriorityQueue.Pop
  = Done (Item.with_index item_12 (-1), queue_01).
Proof. apply (Push_then_Pop (H := Q_float64) queue_01 item_12). reflexivity. Defined.

Lemma Swap_twice_witness :
  PriorityQueue.Swap (H := Q_float64) queue_01_12 0 1
    ≫= (λ pq', PriorityQueue.Swap pq' 0 1)
  = Done queue_01_12.
Proof.
  apply (Swap_twice (H := Q_float64) queue_01_12 0 1
           (Item.mk (Edge.mk 0 1) 0 (inject_Z 5)) (Item.mk (Edge.mk 1 2) 1 (inject_Z 7)));
    reflexivity.
Defined.

Section queue_shape.
Context `{Float64}.
Implicit Types pq : PriorityQueue.

(** X19. The heap functions on the queue find every item they index.  On
  a queue whose items sit under the keys 0 .. Len-1 and record their key
  in index, heap.Push returns a queue of that shape with one item more;
  heap.Pop, if the queue is not empty, returns an item with index -1 and
  a queue of that shape with one item less; the method update, for a key
  of the queue, returns a queue of that shape with as many items: none of
  them dereferences a missing item. *)
Theorem heap_functions_keep_shape (n : Z) pq :
pq_wf n pq →
(∀ x : Item.t, 0 ≤ Item.w x < n →
   ∃ pq', heap.push pq x = Done pq' ∧ pq_wf n pq' ∧
          PriorityQueue.Len pq' = PriorityQueue.Len pq + 1) ∧
(PriorityQueue.Len pq > 0 →
   ∃ item pq', heap.pop pq = Done (item, pq') ∧ Item.index item = -1 ∧
               0 ≤ Item.w item < n ∧ pq_wf n pq' ∧
               PriorityQueue.Len pq' = PriorityQueue.Len pq - 1) ∧
(∀ k d, is_Some (pq !! k) →
   ∃ pq', PriorityQueue.update pq k d = Done pq' ∧ pq_wf n pq' ∧
          PriorityQueue.Len pq' = PriorityQueue.Len pq).
Proof.
intros Hwf. split; [| split].
- intros x Hx. by apply push_wf.
- intros Hlen.
  destruct (pop_wf (λ w, 0 ≤ w < n) pq Hwf Hlen) as (item & pq' & Hpop & Hwf' & Hlen' & Hw).
  exists item, pq'. split; [done |]. split; [| done].
  unfold heap.pop in Hpop.
  apply bind_Done in Hpop as (q1 & _ & Hpop).
  apply bind_Done in Hpop as ([q2 moved] & _ & Hpop).
  change (heap.Pop q2) with (PriorityQueue.Pop q2) in Hpop.
  unfold PriorityQueue.Pop in Hpop.
  destruct (q2 !! (PriorityQueue.Len q2 - 1)) as [last |]; [| done].
  by injection Hpop as <- _.
- intros k d Hk. by apply update_wf.
Qed.
End queue_shape.

Lemma queue_01_12_wf : pq_wf (H := Q_float64) 3 queue_01_12.
Proof.
  split.
  - intros k. change (PriorityQueue.Len (H := Q_float64) queue_01_12) with 2.
    unfold queue_01_12, queue_01. rewrite !lookup_insert, lookup_empty.
    repeat case_decide; subst; split; try lia; eauto; intros [? [=]].
  - intros k it. unfold queue_01_12, queue_01. rewrite !lookup_insert, lookup_empty.
    repeat case_decide; subst; intros [= <-]; unfold Item.w; simpl; lia.
Qed.

Lemma heap_functions_keep_shape_witness :
  ∃ item pq', heap.pop (Interface0 := PriorityQueue.interface (H := Q_float64))
                queue_01_12 = Done (item, pq') ∧
              Item.index item = -1 ∧ 0 ≤ Item.w item < 3 ∧
              pq_wf (H := Q_float64) 3 pq' ∧
              PriorityQueue.Len pq' = PriorityQueue.Len (H := Q_float64) queue_01_12 - 1.
Proof.
  apply (proj1 (proj2 (heap_functions_keep_shape (H := Q_float64) 3 queue_01_12
                         queue_01_12_wf))).
  vm_compute. reflexivity.
Defined.

(** ** The five writes of a highlight *)

Section highlight_facts.
Context `{Float64}.

(** X3. The highlight of a vertex has no bounds handling of its own: if
  the five cells, the cell of the vertex and the cells below, above,
  right and left of it, are all inside the slice, it returns, the five
  cells hold the label and every other cell and the length are as
  before; if one of them is outside, it panics with an index out of
  range. *)
Theorem highlight_in_range_or_panics (ep : Endpoints.t) (label : string)
  (x y : float64) (grid : Grid.t) :
(Forall (λ c, 0 ≤ c < Grid.length grid) (highlight_cells ep x y) →
 ∃ grid', highlight ep label x y grid = Done grid' ∧
          Grid.length grid' = Grid.length grid ∧
          ∀ c, Grid.cells grid' !! c =
               if decide (c ∈ highlight_cells ep x y) then Some label
               else Grid.cells grid !! c) ∧
(¬ Forall (λ c, 0 ≤ c < Grid.length grid) (highlight_cells ep x y) →
 highlight ep label x y grid = Panic IndexOutOfRange).
Proof.
unfold highlight, highlight_cells. cbv zeta.
set (c0 := row_of ep y * columns + col_of ep x).
set (c1 := (row_of ep y + 1) * columns + col_of ep x).
set (c2 := (row_of ep y - 1) * columns + col_of ep x).
set (c3 := row_of ep y * columns + col_of ep x + 1).
set (c4 := row_of ep y * columns + col_of ep x - 1).
split.
- intros Hall.
  apply Forall_cons in Hall as [H0 Hall]. apply Forall_cons in Hall as [H1 Hall].
  apply Forall_cons in Hall as [H2 Hall]. apply Forall_cons in Hall as [H3 Hall].
  apply Forall_cons in Hall as [H4 _].
  rewrite Grid_set_in by done. cbn [mbind outcome_bind].
  rewrite Grid_set_in by done. cbn [mbind outcome_bind Grid.length Grid.cells].
  rewrite Grid_set_in by done. cbn [mbind outcome_bind Grid.length Grid.cells].
  rewrite Grid_set_in by done. cbn [mbind outcome_bind Grid.length Grid.cells].
  rewrite Grid_set_in by done. cbn [Grid.length Grid.cells].
  eexists. split; [reflexivity |]. split; [reflexivity |].
  intros c. case_decide as Hin; cbn [Grid.cells]; rewrite !lookup_insert.
  + rewrite !elem_of_cons, elem_of_nil in Hin.
    destruct Hin as [-> | [-> | [-> | [-> | [-> | []]]]]];
      repeat case_decide; done.
  + repeat (apply not_elem_of_cons in Hin as [? Hin]).
    repeat case_decide; congruence.
- intros Hout.
  destruct (decide (0 ≤ c0 < Grid.length grid)) as [H0 |];
    [| by rewrite Grid_set_out].
  rewrite Grid_set_in by done. cbn [mbind outcome_bind].
  destruct (decide (0 ≤ c1 < Grid.length grid)) as [H1 |];
    [| by rewrite Grid_set_out].
  rewrite Grid_set_in by done. cbn [mbind outcome_bind Grid.length Grid.cells].
  destruct (decide (0 ≤ c2 < Grid.length grid)) as [H2 |];
    [| by rewrite Grid_set_out].
  rewrite Grid_set_in by done. cbn [mbind outcome_bind Grid.length Grid.cells].
  destruct (decide (0 ≤ c3 < Grid.length grid)) as [H3 |];
    [| by rewrite Grid_set_out].
  rewrite Grid_set_in by done. cbn [mbind outcome_bind Grid.length Grid.cells].
  destruct (decide (0 ≤ c4 < Grid.length grid)) as [H4 |];
    [| by rewrite Grid_set_out].
  exfalso. apply Hout. repeat (apply Forall_cons; split; [done |]). apply Forall_nil_2.
Qed.
End highlight_facts.

Lemma highlight_in_range_or_panics_witness :
  ∃ grid', highlight (H := Q_float64) bounds299 "vertexSP1" (inject_Z 30) (inject_Z 150)
             (Grid.make (rows * columns)) = Done grid' ∧
           Grid.length grid' = Grid.length (Grid.make (rows * columns)) ∧
           ∀ c, Grid.cells grid' !! c =
                if decide (c ∈ highlight_cells (H := Q_float64) bounds299
                                 (inject_Z 30) (inject_Z 150))
                then Some "vertexSP1"
                else Grid.cells (Grid.make (rows * columns)) !! c.
Proof.
  apply (proj1 (highlight_in_range_or_panics (H := Q_float64) bounds299 "vertexSP1"
                  (inject_Z 30) (inject_Z 150) (Grid.make (rows * columns)))).
  vm_compute. repeat constructor; discriminate.
Defined.

(** ** The errors of findSP and what the handler makes of them *)

Lemma Atoi_error (s : string) (n : Z) (e : error) :
  Atoi s = (n, Some e) → ∃ range, e = ErrAtoi s range.
Proof.
  unfold Atoi. cbv zeta. case_decide.
  - destruct (match s with
              | String "-"%char s' => (true, s')
              | String "+"%char s' => (false, s')
              | _ => (false, s)
              end) as [neg body].
    destruct body; [intros [= _ <-]; eauto |].
    destruct (digits _ 0) as [m |]; intros [= _ <-] || intros [=]; eauto.
  - destruct (ParseInt s) as [i64 [err |]]; simpl; intros [= _ <-] || intros [=]; eauto.
Qed.

(** Without a message of generateVertices the handler is
    [handleDijkstraSP]. *)
Lemma handleDijkstraSP_after_None `{Float64} (fuel : nat)
    (location : list complex128) (ep : Endpoints.t) (r : Request.t) :
  handleDijkstraSP_after None fuel location ep r = handleDijkstraSP fuel location ep r.
Proof. reflexivity. Qed.

Lemma length_zero_empty (s : string) : String.length s = O ↔ s = "".
Proof. destruct s; split; done. Qed.

Section findSP_errors.
Context `{Float64}.

(** X4. findSP returns the error "source and/or target vertices not set"
  exactly when one of the two form values is empty, and then it has
  changed nothing: the edge objects and the receiver, its fields source
  and target included, are those it was called with. *)
Theorem findSP_not_set_iff (fuel : nat) (h : store) (dsp : DijksraSP.t)
  (r : Request.t) :
(Request.sourcevert r = "" ∨ Request.targetvert r = "" →
 DijksraSP.findSP fuel h dsp r = Done (Some ErrNotSet, h, dsp)) ∧
(∀ h' dsp', DijksraSP.findSP fuel h dsp r = Done (Some ErrNotSet, h', dsp') →
            Request.sourcevert r = "" ∨ Request.targetvert r = "").
Proof.
split.
- intros Hempty. unfold DijksraSP.findSP. cbv zeta.
  rewrite decide_True; [done |]. by rewrite !length_zero_empty.
- intros h' dsp'. unfold DijksraSP.findSP. cbv zeta. case_decide as Hlen.
  { intros _. by rewrite !length_zero_empty in Hlen. }
  destruct (Atoi (Request.sourcevert r)) as [src [e1 |]] eqn:Hsrc.
  { intros [= -> _ _]. by apply Atoi_error in Hsrc as [? [=]]. }
  destruct (Atoi (Request.targetvert r)) as [tgt [e2 |]] eqn:Htgt.
  { intros [= -> _ _]. by apply Atoi_error in Htgt as [? [=]]. }
  case_decide; [intros [=] |].
  intros Hrun. by apply findSP_search_Done in Hrun as [[=] _].
Qed.

(** X5. When findSP returns an error, no edge object was written and the
  receiver differs from the one it was called with in the fields source
  and target at most: edgeTo, distTo and adj are not allocated, the tree
  and the plot are untouched. *)
Theorem findSP_error_keeps_state (fuel : nat) (h h' : store)
  (dsp dsp' : DijksraSP.t) (r : Request.t) (err : error) :
DijksraSP.findSP fuel h dsp r = Done (Some err, h', dsp') →
h' = h ∧
∃ s t, dsp' = DijksraSP.set_target t (DijksraSP.set_source s dsp).
Proof.
unfold DijksraSP.findSP. cbv zeta. case_decide.
{ intros [= _ <- <-]. split; [done |].
  exists (DijksraSP.source dsp), (DijksraSP.target dsp). by destruct dsp. }
destruct (Atoi (Request.sourcevert r)) as [src [e1 |]].
{ intros [= _ <- <-]. split; [done |].
  exists src, (DijksraSP.target dsp). by destruct dsp. }
destruct (Atoi (Request.targetvert r)) as [tgt [e2 |]].
{ intros [= _ <- <-]. split; [done |]. by exists src, tgt. }
case_decide.
{ intros [= _ <- <-]. split; [done |]. by exists src, tgt. }
intros Hrun. by apply findSP_search_Done in Hrun as [[=] _].
Qed.

(** X6. The handler goes on after an error of findSP, and plotSP then
  fails as well, on the distance slice that was never allocated: the
  status of the plot is the message of generateVertices, if that had
  returned an error, then the message of findSP, then "distance to
  vertex ... not found", joined by ", "; the plot is the one of plotMST,
  with no shortest path in it.  The form values are taken to hold bytes
  below 0x80 only: for those the message of an error of strconv.Atoi is
  the one of the program. *)
Theorem findSP_error_is_reported (generated : option string) (fuel : nat)
  (location : list complex128) (ep : Endpoints.t) (r : Request.t)
  (e0 e2 : option error) (err : error)
  (h0 h1 : store) (p0 p1 : PrimMST.t) (popped : list Z) (d1 : DijksraSP.t) :
ascii_only (Request.sourcevert r) → ascii_only (Request.targetvert r) →
PrimMST.findMST fuel [] (primmst_of location ep) = Done (e0, h0, p0, popped) →
DijksraSP.findSP fuel h0 (dijkstrasp_of p0) r = Done (Some err, h1, d1) →
PrimMST.plotMST h1 p0 = Done (e2, p1) →
∃ pl, handleDijkstraSP_after generated fuel location ep r = Done pl ∧
      PlotT.Status pl
      = Join (option_list generated ++
              [Error err; Error (ErrNotFound (DijksraSP.target d1))]) ∧
      PlotT.DistanceSP pl = "" ∧ PlotT.Source pl = "" ∧ PlotT.Target pl = "" ∧
      Some (PlotT.Grid pl) = PlotT.Grid <$> PrimMST.plot p1.
Proof.
intros _ _ Hmst Hsp Hplot.
pose proof (findMST_Done _ _ _ _ _ _ _ Hmst) as (-> & _).
pose proof (plotMST_Done _ _ _ _ Hplot) as (-> & pl & Hpl & HdSP & Hsrc & Htgt).
assert (DijksraSP.plotSP fuel h1 (DijksraSP.set_plot (PrimMST.plot p1) d1)
        = Done (Some (ErrNotFound (DijksraSP.target d1)), h1,
                DijksraSP.set_plot (PrimMST.plot p1) d1)) as HplotSP.
{ apply (plotSP_guard fuel h1 (DijksraSP.set_plot (PrimMST.plot p1) d1)).
  left. apply findSP_Done in Hsp as [(err' & _ & _ & HdT & _) | [[=] _]].
  simpl in *. by rewrite HdT. }
unfold handleDijkstraSP_after, primmst_of, dijkstrasp_of, PrimMST.findDistances in *.
cbv beta iota zeta in *. cbn [snd] in Hmst.
rewrite Hmst. cbn [mbind outcome_bind]. rewrite Hsp. cbn [mbind outcome_bind].
rewrite Hplot. cbn [mbind outcome_bind]. rewrite HplotSP. cbn [mbind outcome_bind].
cbn [DijksraSP.plot DijksraSP.set_plot]. rewrite Hpl. cbn [mbind outcome_bind].
eexists. split; [reflexivity |]. destruct generated as [message |]; simpl; done.
Qed.
End findSP_errors.

Lemma findSP_not_set_iff_witness :
  DijksraSP.findSP (H := Q_float64) 20 row4_store row4_dsp (Request.mk "" "3")
  = Done (Some ErrNotSet, row4_store, row4_dsp).
Proof.
  apply (proj1 (findSP_not_set_iff (H := Q_float64) 20 row4_store row4_dsp
                  (Request.mk "" "3"))).
  left. reflexivity.
Defined.

Lemma findSP_error_keeps_state_witness :
  row4_store = row4_store ∧
  ∃ s t, DijksraSP.set_target 1 (DijksraSP.set_source 7 row4_dsp)
         = DijksraSP.set_target t (DijksraSP.set_source s row4_dsp).
Proof.
  apply (findSP_error_keeps_state (H := Q_float64) 20 row4_store row4_store row4_dsp
           (DijksraSP.set_target 1 (DijksraSP.set_source 7 row4_dsp))
           row4_71 ErrInvalidVertices).
  vm_compute. reflexivity.
Defined.

(** A target that does not fit int: the status names the range error and
    the largest int, and so does the message of plotSP. *)
Lemma findSP_error_is_reported_witness :
  ∃ pl, handleDijkstraSP_after (H := Q_float64) None 20 row4 bounds299 row4_big = Done pl ∧
        PlotT.Status pl
        = Join (option_list None ++
                [Error (ErrAtoi (Request.targetvert row4_big) true);
                 Error (ErrNotFound
                          (DijksraSP.target
                             (DijksraSP.set_target (2 ^ 63 - 1)
                                (DijksraSP.set_source 1 row4_dsp))))]) ∧
        PlotT.DistanceSP pl = "" ∧ PlotT.Source pl = "" ∧ PlotT.Target pl = "" ∧
        Some (PlotT.Grid pl) = PlotT.Grid <$> PrimMST.plot row4_plotted.
Proof.
  apply (findSP_error_is_reported (H := Q_float64) None 20 row4 bounds299 row4_big
           None None (ErrAtoi (Request.targetvert row4_big) true)
           row4_store row4_store row4_prim row4_plotted [0; 2; 3; 1]
           (DijksraSP.set_target (2 ^ 63 - 1) (DijksraSP.set_source 1 row4_dsp)));
    try (vm_compute; reflexivity).
  - vm_compute. repeat constructor.
  - vm_compute. repeat constructor.
Defined.

(** ** The matrix of findDistances *)

Section findDistances_facts.
Context `{Float64}.

Lemma lookup_tabulate (n : nat) (f : nat → nat → float64) (i : nat) :
(i < n)%nat → tabulate n f !! i = Some ((λ j, f i j) <$> seq 0 n).
Proof.
intros Hi. unfold tabulate. rewrite list_lookup_fmap, lookup_seq_lt by done. done.
Qed.

Lemma entry_tabulate (n : nat) (f : nat → nat → float64) (i j : nat) :
(i < n)%nat → (j < n)%nat → entry (tabulate n f) i j = Some (f i j).
Proof.
intros Hi Hj. unfold entry. rewrite lookup_tabulate by done. simpl.
rewrite list_lookup_fmap, lookup_seq_lt by done. done.
Qed.

Lemma tabulate_ext (n : nat) (f f' : nat → nat → float64) :
(∀ a b, (a < n)%nat → (b < n)%nat → f a b = f' a b) → tabulate n f = tabulate n f'.
Proof.
intros Hext. unfold tabulate. apply list_fmap_ext. intros ia a Ha.
apply lookup_seq in Ha as [-> Ha]. apply list_fmap_ext. intros ib b Hb.
apply lookup_seq in Hb as [-> Hb]. by apply Hext.
Qed.

Lemma tabulate_square (n : nat) (f : nat → nat → float64) : square n (tabulate n f).
Proof.
unfold tabulate. split; [by rewrite length_fmap, length_seq |].
intros row (a & -> & _)%list_elem_of_fmap. by rewrite length_fmap, length_seq.
Qed.

Lemma length_tabulate (n : nat) (f : nat → nat → float64) : length (tabulate n f) = n.
Proof. unfold tabulate. by rewrite length_fmap, length_seq. Qed.

(** One write to the matrix. *)
Lemma matrix_set_tabulate (n : nat) (f : nat → nat → float64) (i j : nat) (x : float64) :
(i < n)%nat → (j < n)%nat →
matrix_set (tabulate n f) (Z.of_nat i) (Z.of_nat j) x
= Done (tabulate n (λ a b, if decide (a = i ∧ b = j) then x else f a b)).
Proof.
intros Hi Hj. unfold matrix_set.
rewrite (proj2 (slice_get_Done _ _ ((λ b, f i b) <$> seq 0 n)))
  by (rewrite Nat2Z.id; split; [lia | by apply lookup_tabulate]).
cbn [mbind outcome_bind].
rewrite (proj2 (slice_set_Done _ _ _ _))
  by (unfold len; rewrite length_fmap, length_seq; split; [lia | reflexivity]).
cbn [mbind outcome_bind].
rewrite (proj2 (slice_set_Done _ _ _ _))
  by (unfold len; rewrite length_tabulate; split; [lia | reflexivity]).
f_equal. rewrite !Nat2Z.id. apply list_eq. intros a.
destruct (decide (a < n)%nat) as [Ha | Ha].
2: { rewrite !(lookup_ge_None_2 _ a); [done | |].
     - rewrite length_tabulate. lia.
     - rewrite length_insert, length_tabulate. lia. }
rewrite lookup_tabulate by done.
destruct (decide (a = i)) as [-> | Hne].
- rewrite list_lookup_insert_eq by (rewrite length_tabulate; lia).
  f_equal. apply list_eq. intros b.
  destruct (decide (b < n)%nat) as [Hb | Hb].
  2: { rewrite !(lookup_ge_None_2 _ b); [done | |].
       - rewrite length_fmap, length_seq. lia.
       - rewrite length_insert, length_fmap, length_seq. lia. }
  rewrite list_lookup_fmap, lookup_seq_lt by done. simpl.
  destruct (decide (b = j)) as [-> | Hnb].
  + rewrite list_lookup_insert_eq by (rewrite length_fmap, length_seq; lia).
    by rewrite decide_True.
  + rewrite list_lookup_insert_ne by done.
    rewrite list_lookup_fmap, lookup_seq_lt by done. simpl.
    rewrite decide_False by tauto. done.
- rewrite list_lookup_insert_ne by done. rewrite lookup_tabulate by done.
  f_equal. apply list_fmap_ext. intros ib b _. rewrite decide_False by tauto. done.
Qed.

Lemma distances_inner_tabulate (loc : list complex128) (i : nat) (k : nat) (j : nat) :
let n := length loc in
(i < j)%nat → (j + k = n)%nat →
distances_inner loc (Z.of_nat i) k (Z.of_nat j) (tabulate n (entry_before loc i j))
= Done (tabulate n (entry_before loc i n)).
Proof.
intros n. revert j. induction k as [| k IH]; intros j Hij Hjk.
{ simpl. by replace j with n by lia. }
simpl.
destruct (lookup_lt_is_Some_2 loc i) as [zi Hzi]; [fold n; lia |].
destruct (lookup_lt_is_Some_2 loc j) as [zj Hzj]; [fold n; lia |].
rewrite (proj2 (slice_get_Done loc (Z.of_nat i) zi))
  by (rewrite Nat2Z.id; split; [lia | done]).
cbn [mbind outcome_bind].
rewrite (proj2 (slice_get_Done loc (Z.of_nat j) zj))
  by (rewrite Nat2Z.id; split; [lia | done]).
cbn [mbind outcome_bind].
rewrite matrix_set_tabulate by lia. cbn [mbind outcome_bind].
rewrite matrix_set_tabulate by lia. cbn [mbind outcome_bind].
replace (Z.of_nat j + 1) with (Z.of_nat (S j)) by lia.
rewrite <- (IH (S j)) by lia. f_equal. apply tabulate_ext. intros a b Ha Hb.
unfold entry_before.
repeat case_decide; try lia; try done;
  repeat match goal with
         | H : _ ∧ _ |- _ => destruct H as [-> ->]
         | H : (_, _) = (_, _) |- _ => injection H as <- <-
         end; try lia; rewrite ?Hzi, ?Hzj; try done.
Qed.

Lemma distances_outer_tabulate (loc : list complex128) (k i : nat) :
let n := length loc in
(i + k = n)%nat →
distances_outer loc (Z.of_nat n) k (Z.of_nat i) (tabulate n (entry_before loc i (S i)))
= Done (tabulate n (entry_before loc n n)).
Proof.
intros n. revert i. induction k as [| k IH]; intros i Hik.
{ simpl. f_equal. apply tabulate_ext. intros a b Ha Hb. unfold entry_before.
  repeat case_decide; try lia; try done;
    repeat match goal with
           | H : (_, _) = (_, _) |- _ => injection H as <- <-
           end; lia. }
simpl. replace (Z.of_nat i + 1) with (Z.of_nat (S i)) by lia.
replace (Z.to_nat (Z.of_nat n - Z.of_nat (S i))) with (n - S i)%nat by lia.
pose proof (distances_inner_tabulate loc i (n - S i) (S i)) as Hin.
cbv zeta in Hin. fold n in Hin. rewrite Hin by lia. cbn [mbind outcome_bind].
rewrite <- (IH (S i)) by lia. f_equal. apply tabulate_ext. intros a b Ha Hb.
unfold entry_before.
repeat case_decide; try lia; try done;
  repeat match goal with
         | H : (_, _) = (_, _) |- _ => injection H as <- <-
         end; lia.
Qed.

Lemma distances_diagonal_tabulate (loc : list complex128) (k i : nat) :
let n := length loc in
(i + k = n)%nat →
distances_diagonal k (Z.of_nat i) (tabulate n (entry_diagonal loc n i))
= Done (tabulate n (entry_diagonal loc n n)).
Proof.
intros n. revert i. induction k as [| k IH]; intros i Hik.
{ simpl. by replace i with n by lia. }
simpl. rewrite matrix_set_tabulate by lia. cbn [mbind outcome_bind].
replace (Z.of_nat i + 1) with (Z.of_nat (S i)) by lia.
rewrite <- (IH (S i)) by lia. f_equal. apply tabulate_ext. intros a b Ha Hb.
unfold entry_diagonal. repeat case_decide; try lia; done.
Qed.

Lemma findDistances_tabulate (p : PrimMST.t) :
PrimMST.graph (PrimMST.findDistances p).2
= tabulate (length (PrimMST.location p)) (PrimMST.distance_entry (PrimMST.location p)).
Proof. reflexivity. Qed.

(** X7. The matrix that findDistances stores has one row and one column
  for each vertex, MaxFloat64 on the diagonal, and at (i, j) and (j, i)
  alike the distance cmplx.Abs(location[i] - location[j]) computed once,
  for i < j; the error is nil and the locations are not changed. *)
Theorem findDistances_matrix (p : PrimMST.t) :
let n := length (PrimMST.location p) in
let g := PrimMST.graph (PrimMST.findDistances p).2 in
(PrimMST.findDistances p).1 = None ∧
PrimMST.location (PrimMST.findDistances p).2 = PrimMST.location p ∧
square n g ∧
(∀ i, (i < n)%nat → entry g i i = Some MaxFloat64) ∧
(∀ i j, (i < n)%nat → (j < n)%nat → entry g i j = entry g j i) ∧
(∀ i j zi zj, (i < j)%nat →
   PrimMST.location p !! i = Some zi → PrimMST.location p !! j = Some zj →
   entry g i j = Some (c_abs (c_sub zi zj))).
Proof.
intros n g. subst g. rewrite findDistances_tabulate. fold n.
split; [done |]. split; [done |]. split; [apply tabulate_square |].
split; [| split].
- intros i Hi. rewrite entry_tabulate by done.
  unfold PrimMST.distance_entry. by rewrite decide_True.
- intros i j Hi Hj. rewrite !entry_tabulate by done. f_equal.
  unfold PrimMST.distance_entry.
  repeat case_decide; try lia; try done;
    repeat match goal with
           | H : (_, _) = (_, _) |- _ => injection H as <- <-
           end; done.
- intros i j zi zj Hij Hzi Hzj.
  assert (j < n)%nat as Hj by (by eapply lookup_lt_Some).
  rewrite entry_tabulate by lia. f_equal.
  unfold PrimMST.distance_entry. rewrite decide_False by lia.
  rewrite decide_True by done. by rewrite Hzi, Hzj.
Qed.

(** X8. The three loops of findDistances, run write by write on the
  matrix of zeros that make gives, never index out of range, and they
  leave the matrix described above: the entry at (i, j) is MaxFloat64 for
  i = j and the distance of the pair otherwise. *)
Theorem findDistances_loops_refine (p : PrimMST.t) :
findDistances_loops p = Done (PrimMST.findDistances p).
Proof.
unfold findDistances_loops. cbv zeta. unfold len. rewrite Nat2Z.id.
set (n := length (PrimMST.location p)).
assert (replicate n (replicate n (float_of_int 0))
        = tabulate n (entry_before (PrimMST.location p) 0 1)) as ->.
{ transitivity (tabulate n (λ _ _, float_of_int 0)).
  - unfold tabulate.
    rewrite (const_fmap _ (seq 0 n) (replicate n (float_of_int 0)));
      [by rewrite length_seq |].
    intros ia a _. rewrite (const_fmap _ (seq 0 n) (float_of_int 0)); [| done].
    by rewrite length_seq.
  - apply tabulate_ext. intros a b _ _. unfold entry_before.
    repeat case_decide; try lia; try done;
      repeat match goal with
             | H : (_, _) = (_, _) |- _ => injection H as <- <-
             end; lia. }
pose proof (distances_outer_tabulate (PrimMST.location p) n 0) as Hout.
cbv zeta in Hout. fold n in Hout. change (Z.of_nat 0) with 0 in Hout.
rewrite Hout by lia. cbn [mbind outcome_bind].
assert (tabulate n (entry_before (PrimMST.location p) n n)
        = tabulate n (entry_diagonal (PrimMST.location p) n 0)) as ->.
{ apply tabulate_ext. intros a b _ _. unfold entry_diagonal.
  rewrite decide_False by lia. done. }
pose proof (distances_diagonal_tabulate (PrimMST.location p) n 0) as Hdiag.
cbv zeta in Hdiag. fold n in Hdiag. change (Z.of_nat 0) with 0 in Hdiag.
rewrite Hdiag by lia. cbn [mbind outcome_bind].
unfold PrimMST.findDistances. cbv zeta. fold n. do 3 f_equal.
change (tabulate n (entry_diagonal (PrimMST.location p) n n)
        = tabulate n (PrimMST.distance_entry (PrimMST.location p))).
apply tabulate_ext. intros a b Ha Hb.
unfold entry_diagonal, entry_before, PrimMST.distance_entry.
repeat case_decide; try lia; try done;
  repeat match goal with
         | H : (_, _) = (_, _) |- _ => injection H as <- <-
         end; try lia; try done.
Qed.
End findDistances_facts.

Lemma findDistances_matrix_witness :
  entry (PrimMST.graph (PrimMST.findDistances (H := Q_float64)
                          (PrimMST.mk [] row3 [] bounds299 None)).2) 0 2
  = Some (c_abs (H := Q_float64) (c_sub (at_point 10 150) (at_point 30 150))).
Proof.
  apply (proj2 (proj2 (proj2 (proj2 (proj2
           (findDistances_matrix (H := Q_float64)
              (PrimMST.mk [] row3 [] bounds299 None))))))
           0%nat 2%nat (at_point 10 150) (at_point 30 150));
    [lia | reflexivity | reflexivity].
Defined.

(** ** The items of the queue through the heap functions *)

Section queue_items.
Context `{Float64}.
Implicit Types pq : PriorityQueue.

Lemma Swap_items pq pq' (i j w : Z) :
heap.Swap pq i j = Done pq' → has_item pq w → has_item pq' w.
Proof.
intros Hs. change (heap.Swap pq i j) with (PriorityQueue.Swap pq i j) in Hs.
unfold PriorityQueue.Swap in Hs.
destruct (pq !! i) as [a |] eqn:Ha; [| done].
destruct (pq !! j) as [b |] eqn:Hb; [| done].
injection Hs as <-. intros (k & it & Hk & Hw).
destruct (decide (k = i)) as [-> | Hki].
- exists j, (Item.with_index a j). rewrite lookup_insert_eq.
  split; [done |]. by assert (it = a) as -> by congruence.
- destruct (decide (k = j)) as [-> | Hkj].
  + exists i, (Item.with_index b i).
    rewrite lookup_insert_ne by done. rewrite lookup_insert_eq.
    split; [done |]. by assert (it = b) as -> by congruence.
  + exists k, it. by rewrite !lookup_insert_ne.
Qed.

Lemma up_loop_items (fuel : nat) pq pq' (j w : Z) :
heap.up_loop fuel pq j = Done pq' → has_item pq w → has_item pq' w.
Proof.
revert pq j. induction fuel as [| fuel IH]; intros pq j Hrun Hw; [done |].
simpl in Hrun. case_decide; [by injection Hrun as <- |].
bind_inv Hrun. destruct a; simpl in Hrun; [| by injection Hrun as <-].
bind_inv Hrun. eapply IH; [exact Hrun |]. by eapply Swap_items.
Qed.

Lemma down_loop_items (fuel : nat) pq pq' (i0 i m w : Z) (b : bool) :
heap.down_loop fuel pq i0 i m = Done (pq', b) → has_item pq w → has_item pq' w.
Proof.
revert pq i. induction fuel as [| fuel IH]; intros pq i Hrun Hw; [done |].
simpl in Hrun. case_decide; [by injection Hrun as <- _ |].
do 2 bind_inv Hrun. destruct a0; simpl in Hrun; [| by injection Hrun as <- _].
bind_inv Hrun. eapply IH; [exact Hrun |]. by eapply Swap_items.
Qed.

Lemma push_items pq pq' (x : Item.t) (w : Z) :
pq !! PriorityQueue.Len pq = None →
heap.push pq x = Done pq' → has_item pq w ∨ w = Item.w x → has_item pq' w.
Proof.
intros Hnew Hrun Hw. unfold heap.push in Hrun. bind_inv Hrun.
change (heap.Push pq x) with (PriorityQueue.Push pq x) in Ha.
unfold PriorityQueue.Push in Ha. injection Ha as <-.
eapply up_loop_items; [exact Hrun |].
destruct Hw as [(k & it & Hk & Hw) | ->].
- exists k, it. rewrite lookup_insert_ne; [done |]. intros <-. congruence.
- eexists _, _. rewrite lookup_insert_eq. done.
Qed.

Lemma pop_items pq pq' (item : Item.t) (w : Z) :
heap.pop pq = Done (item, pq') → has_item pq w → w = Item.w item ∨ has_item pq' w.
Proof.
intros Hrun Hw. unfold heap.pop in Hrun.
apply bind_Done in Hrun as (q1 & Hswap & Hrun).
apply bind_Done in Hrun as ([q2 moved] & Hdown & Hrun).
eapply Swap_items in Hw; [| exact Hswap].
eapply down_loop_items in Hw; [| exact Hdown].
change (heap.Pop q2) with (PriorityQueue.Pop q2) in Hrun.
unfold PriorityQueue.Pop in Hrun.
destruct (q2 !! (PriorityQueue.Len q2 - 1)) as [last |] eqn:Hlast; [| done].
injection Hrun as <- <-. destruct Hw as (k & it & Hk & Hw).
destruct (decide (k = PriorityQueue.Len q2 - 1)) as [-> | Hne].
- left. assert (it = last) as -> by congruence. done.
- right. exists k, it. by rewrite lookup_delete_ne.
Qed.

Lemma Fix_items pq pq' (i w : Z) :
heap.Fix pq i = Done pq' → has_item pq w → has_item pq' w.
Proof.
intros Hrun Hw. unfold heap.Fix in Hrun.
apply bind_Done in Hrun as ([q1 moved] & Hdown & Hrun).
eapply down_loop_items in Hw; [| exact Hdown].
destruct moved; simpl in Hrun; [by injection Hrun as <- |].
by eapply up_loop_items.
Qed.

Lemma update_items pq pq' (k w : Z) (d : float64) :
PriorityQueue.update pq k d = Done pq' → has_item pq w → has_item pq' w.
Proof.
intros Hrun Hw. unfold PriorityQueue.update in Hrun.
destruct (pq !! k) as [item |] eqn:Hitem; [| done].
eapply Fix_items; [exact Hrun |].
destruct Hw as (k' & it & Hk & Hw). destruct (decide (k' = k)) as [-> | Hne].
- exists k, (Item.with_distance item d). rewrite lookup_insert_eq.
  split; [done |]. by assert (it = item) as -> by congruence.
- exists k', it. by rewrite lookup_insert_ne.
Qed.

(** The item that [heap.Pop] returns is out of the queue. *)
Lemma pop_index pq pq' (item : Item.t) :
heap.pop pq = Done (item, pq') → Item.index item = -1.
Proof.
intros Hrun. unfold heap.pop in Hrun.
apply bind_Done in Hrun as (q1 & Hswap & Hrun).
apply bind_Done in Hrun as ([q2 moved] & Hdown & Hrun).
change (heap.Pop q2) with (PriorityQueue.Pop q2) in Hrun.
unfold PriorityQueue.Pop in Hrun.
destruct (q2 !! (PriorityQueue.Len q2 - 1)) as [last |]; [| done].
by injection Hrun as <- _.
Qed.
End queue_items.

(** ** The order of the visits and the tree of findMST *)

Lemma visited_before_elem (P : list Z) (w u : Z) :
  u ∈ visited_before P w → u ∈ P ∧ u ≠ w.
Proof.
  induction P as [| x P IH]; simpl; [by intros ?%elem_of_nil |].
  case_decide; [by intros ?%elem_of_nil |].
  intros [-> | Hu]%elem_of_cons.
  - split; [apply list_elem_of_here | done].
  - destruct (IH Hu). split; [by apply list_elem_of_further | done].
Qed.

Lemma visited_before_notin (P : list Z) (w : Z) : w ∉ P → visited_before P w = P.
Proof.
  induction P as [| x P IH]; simpl; [done |].
  intros [Hne Hw]%not_elem_of_cons. rewrite decide_False by done. by rewrite IH.
Qed.

Lemma visited_before_app_in (P Q : list Z) (w : Z) :
  w ∈ P → visited_before (P ++ Q) w = visited_before P w.
Proof.
  induction P as [| x P IH]; simpl; [by intros ?%elem_of_nil |].
  intros Hw. case_decide; [done |]. f_equal. apply IH.
  apply elem_of_cons in Hw as [-> | Hw]; done.
Qed.

Lemma visited_before_app_notin (P Q : list Z) (w : Z) :
  w ∉ P → visited_before (P ++ Q) w = P ++ visited_before Q w.
Proof.
  induction P as [| x P IH]; simpl; [done |].
  intros [Hne Hw]%not_elem_of_cons. rewrite decide_False by done. by rewrite IH.
Qed.

(** A vertex visited before [w] was itself first visited after fewer
    visits than [w]. *)
Lemma visited_before_shorter (P : list Z) (w v : Z) :
  v ∈ visited_before P w →
  (length (visited_before P v) < length (visited_before P w))%nat.
Proof.
  induction P as [| x P IH]; simpl; [by intros ?%elem_of_nil |].
  destruct (decide (x = w)) as [-> | Hxw]; [by intros ?%elem_of_nil |].
  intros [-> | Hv]%elem_of_cons.
  - rewrite decide_True by done. simpl. lia.
  - case_decide; simpl; [lia |]. specialize (IH Hv). lia.
Qed.

Section findMST_order.
Context `{Float64}.
Hypothesis Hlt : lt_strict.

(** The comparisons of one row keep the invariant; at the end the whole
  row of the visited vertex [x] has been compared. *)
Lemma visit_range_prim (g : list (list float64)) (n : nat) (x : Z)
  (gv row : list float64) (w : Z) (s s' : PrimMST.vars) (P0 P : list Z) :
PrimMST.visit_range x row w s = Done s' →
g !! Z.to_nat x = Some gv → 0 ≤ w → row = drop (Z.to_nat w) gv →
0 ≤ x → x ∈ P → PrimMST.marked s !! Z.to_nat x = Some true →
prim_inv g n s P (λ u i, u ∈ P0 ∨ (u = x ∧ (i < Z.to_nat w)%nat)) →
prim_inv g n s' P (λ u i, u ∈ P0 ∨ u = x).
Proof.
intros Hrun Hgv Hw Hrow Hx HxP. revert w s Hw Hrow Hrun.
induction row as [| dist row IH]; intros w s Hw Hrow Hrun Hmx Hinv.
{ injection Hrun as <-. destruct Hinv as (HR & HM & HT & HK).
  split; [done |]. split; [done |]. split; [done |].
  intros i u dw du Hmi [Hu | ->] Hdw Hdu; [by eapply HK; eauto |].
  assert (length (drop (Z.to_nat w) gv) = O) as Hlen by (by rewrite <- Hrow).
  rewrite length_drop in Hlen.
  pose proof Hdu as Hlt_i. unfold entry in Hlt_i. rewrite Hgv in Hlt_i.
  simpl in Hlt_i. apply lookup_lt_Some in Hlt_i.
  apply (HK i x dw du); [done | right; split; [done | lia] | done | done]. }
assert (gv !! Z.to_nat w = Some dist) as Hdist.
{ pose proof (lookup_drop gv (Z.to_nat w) 0) as Hl0. rewrite <- Hrow in Hl0.
  simpl in Hl0. by rewrite Nat.add_0_r in Hl0. }
assert (row = drop (Z.to_nat (w + 1)) gv) as Hrow'.
{ rewrite (drop_S _ _ _ Hdist) in Hrow. injection Hrow as ->. f_equal. lia. }
assert (entry g (Z.to_nat x) (Z.to_nat w) = Some dist) as Hentry.
{ unfold entry. rewrite Hgv. done. }
simpl in Hrun. bind_inv Hrun. apply slice_get_Done in Ha as [_ Hm].
destruct Hinv as (HR & HM & HT & HK).
destruct a.
{ (* w is marked *)
  apply (IH (w + 1) s); [lia | done | done | done |].
  split; [done |]. split; [done |]. split; [done |].
  intros i u dw du Hmi [Hu | [-> Hi]] Hdw Hdu; [by eapply HK; eauto |].
  destruct (decide (i = Z.to_nat w)) as [-> | Hne]; [congruence |].
  apply (HK i x dw du); [done | right; split; [done | lia] | done | done]. }
bind_inv Hrun. apply slice_get_Done in Ha as [_ Hdw].
destruct (f_lt dist a) eqn:Hless.
2: { (* the entry does not lower distTo[w] *)
  apply (IH (w + 1) s); [lia | done | done | done |].
  split; [done |]. split; [done |]. split; [done |].
  intros i u dwi du Hmi [Hu | [-> Hi]] Hdwi Hdu; [by eapply HK; eauto |].
  destruct (decide (i = Z.to_nat w)) as [-> | Hne]; [congruence |].
  apply (HK i x dwi du); [done | right; split; [done | lia] | done | done]. }
(* the slot of w is set to a fresh edge from x to w *)
do 3 bind_inv Hrun.
apply slice_set_Done in Ha as [Hwt ->], Ha0 as [Hwd ->].
unfold len in Hwt, Hwd.
apply (IH (w + 1) _ ltac:(lia) Hrow' Hrun); [done |]. simpl.
split; [done |]. split; [done |]. split.
- intros i l Hl. simpl in *.
  destruct (decide (i = Z.to_nat w)) as [-> | Hne].
  + rewrite list_lookup_insert_eq in Hl by lia. injection Hl as <-.
    exists (Edge.mk x w), dist. rewrite lookup_app_r, Nat.sub_diag by lia. simpl.
    split; [done |]. split; [lia |]. split.
    { intros Hxw. rewrite Hxw, Nat2Z.id in Hmx. congruence. }
    split; [done |]. split; [done |].
    split; [apply list_lookup_insert_eq; lia |]. intros Hmw. congruence.
  + rewrite list_lookup_insert_ne in Hl by done.
    destruct (HT i l Hl) as (e & d & He & Hrest). exists e, d.
    rewrite list_lookup_insert_ne by done.
    split; [| done]. rewrite lookup_app_l; [done | by eapply lookup_lt_Some].
- intros i u dw du Hmi HQ Hdwi Hdu. simpl in *.
  destruct (decide (i = Z.to_nat w)) as [-> | Hne].
  + rewrite list_lookup_insert_eq in Hdwi by lia. injection Hdwi as <-.
    destruct Hlt as [Hirr Htrans].
    destruct HQ as [Hu | [-> _]].
    * destruct (f_lt du dist) eqn:Hlow; [| done].
      rewrite <- (HK (Z.to_nat w) u a du Hm (or_introl Hu) Hdw Hdu).
      symmetry. by apply (Htrans du dist a).
    * assert (du = dist) as -> by congruence. apply Hirr.
  + rewrite list_lookup_insert_ne in Hdwi by done.
    eapply (HK i u); eauto. destruct HQ as [Hu | [-> Hi]]; [by left |].
    right. split; [done | lia].
Qed.

(** A visit keeps the invariant, for the visits so far with the vertex
  [x] added. *)
Lemma visit_prim (g : list (list float64)) (n : nat) (x : Z)
  (s s' : PrimMST.vars) (P : list Z) :
PrimMST.visit g x s = Done s' → 0 ≤ x < Z.of_nat n →
length (PrimMST.marked s) = n →
prim_inv g n s P (λ u _, u ∈ P) →
prim_inv g n s' (P ++ [x]) (λ u _, u ∈ P ++ [x]).
Proof.
intros Hrun Hx Hlen (HR & HM & HT & HK). unfold PrimMST.visit in Hrun.
do 2 bind_inv Hrun. apply slice_set_Done in Ha as [_ ->].
apply slice_get_Done in Ha0 as [_ Hgv].
assert (∀ i, <[Z.to_nat x:=true]> (PrimMST.marked s) !! i = Some true →
             (i < n)%nat ∧ (i = Z.to_nat x ∨ PrimMST.marked s !! i = Some true))
  as Hmarked.
{ intros i Hi. split.
  - apply lookup_lt_Some in Hi. rewrite length_insert in Hi. lia.
  - destruct (decide (i = Z.to_nat x)) as [-> | Hne]; [by left |].
    right. by rewrite list_lookup_insert_ne in Hi. }
assert (prim_inv g n s' (P ++ [x]) (λ u i, u ∈ P ∨ u = x)) as (HR' & HM' & HT' & HK').
{ eapply (visit_range_prim g n x a0 a0 0 _ s' P (P ++ [x]) Hrun);
    [done | lia | done | lia | | | ].
  - apply elem_of_app. right. apply list_elem_of_here.
  - simpl. apply list_lookup_insert_eq. lia.
  - simpl. split; [| split; [| split]].
    + intros u [Hu | ->%list_elem_of_singleton]%elem_of_app; [by apply HR | done].
    + intros i Hi. simpl. rewrite elem_of_app, list_elem_of_singleton.
      destruct (decide (i = Z.to_nat x)) as [-> | Hne].
      * rewrite list_lookup_insert_eq by lia. split; [intros _; right; lia | done].
      * rewrite list_lookup_insert_ne by done. rewrite (HM i Hi).
        split; [by left | intros [? | ?]; [done | lia]].
    + intros i l Hl. simpl in *.
      destruct (HT i l Hl) as (e & d & He & Hw & Hne & Hv & Hd & HdT & Hmk).
      exists e, d. split; [done |]. split; [done |]. split; [done |].
      split; [apply elem_of_app; by left |]. split; [done |]. split; [done |].
      intros Hmi. destruct (Hmarked i Hmi) as [Hin [-> | Hold]].
      * destruct (PrimMST.marked s !! Z.to_nat x) as [[|] |] eqn:Hmx.
        -- destruct (Hmk eq_refl) as [Hvb Hopt].
           rewrite visited_before_app_in by (by apply HM). done.
        -- assert (Z.of_nat (Z.to_nat x) ∉ P) as HxP.
           { intros HxP. apply HM in HxP; [congruence | done]. }
           rewrite visited_before_app_notin by done. simpl.
           rewrite decide_True by lia. rewrite app_nil_r.
           split; [done |]. intros u du Hu Hdu.
           by eapply (HK (Z.to_nat x) u d du).
        -- apply lookup_ge_None in Hmx. lia.
      * destruct (Hmk Hold) as [Hvb Hopt].
        rewrite visited_before_app_in by (by apply HM). done.
    + intros i u dw du Hmi [Hu | [_ Hi]] Hdw Hdu; [| lia]. simpl in *.
      destruct (decide (i = Z.to_nat x)) as [-> | Hne].
      * rewrite list_lookup_insert_eq in Hmi by lia. done.
      * rewrite list_lookup_insert_ne in Hmi by done. by eapply HK. }
split; [done |]. split; [done |]. split; [done |].
intros i u dw du Hmi Hu. apply HK'; [done |].
apply elem_of_app in Hu as [Hu | ->%list_elem_of_singleton]; [by left | by right].
Qed.

(** The loop of findMST keeps the invariant. *)
Lemma findMST_loop_prim (g : list (list float64)) (n : nat) (fuel : nat)
  (s s' : PrimMST.vars) (P P' : list Z) :
PrimMST.findMST_loop fuel g s P = Done (s', P') →
square n g → vars_wf n s → prim_inv g n s P (λ u _, u ∈ P) →
vars_wf n s' ∧ prim_inv g n s' P' (λ u _, u ∈ P') ∧
PriorityQueue.Len (PrimMST.pq s') = 0 ∧ P `prefix_of` P'.
Proof.
intros Hrun Hg. revert s P Hrun.
induction fuel as [| fuel IH]; intros s P Hrun Hwf Hinv; [discriminate |].
simpl in Hrun. case_decide as Hlen.
2: { injection Hrun as <- <-. split; [done |]. split; [done |]. split; [| done].
     unfold PriorityQueue.Len in *. lia. }
apply bind_Done in Hrun as ([item pq'] & Hpop & Hrun).
apply bind_Done in Hrun as (s1 & Hvis & Hrun).
destruct Hwf as (Hlm & Hld & Hlt' & Hpq).
destruct (pop_wf (λ w, 0 ≤ w < Z.of_nat n) (PrimMST.pq s))
  as (item' & pq'' & Hpop' & Hpq' & _ & Hw); [done | done |].
rewrite Hpop in Hpop'. injection Hpop' as <- <-.
set (s0 := PrimMST.mkvars (PrimMST.edges s) (PrimMST.tree s) (PrimMST.marked s)
             (PrimMST.distTo s) pq') in *.
assert (vars_wf n s0) as Hwf0 by done.
destruct (visit_returns Hlt g n (Item.w item) s0 Hg Hw Hwf0) as (s1' & Hvis' & Hwf1 & _).
rewrite Hvis in Hvis'. injection Hvis' as <-.
assert (prim_inv g n s0 P (λ u _, u ∈ P)) as Hinv0 by done.
pose proof (visit_prim g n (Item.w item) s0 s1 P Hvis Hw Hlm Hinv0) as Hinv1.
destruct (IH s1 _ Hrun Hwf1 Hinv1) as (Hwf' & Hinv' & Hlen' & Hpre).
split; [done |]. split; [done |]. split; [done |].
etransitivity; [| exact Hpre]. by apply prefix_app_r.
Qed.
End findMST_order.

(** ** What findMST returns *)

Section findMST_result.
Context `{Float64}.
Hypothesis Hlt : lt_strict.

(** The state in which the loop of findMST ends. *)
Lemma findMST_final_state (fuel : nat) (h h' : store) (p p' : PrimMST.t)
  (e : option error) (popped : list Z) :
PrimMST.findMST fuel h p = Done (e, h', p', popped) →
let n := length (PrimMST.location p) in
square n (PrimMST.graph p) →
∃ s', vars_wf n s' ∧
      prim_inv (PrimMST.graph p) n s' popped (λ u _, u ∈ popped) ∧
      PrimMST.edges s' = h' ∧ PrimMST.tree s' = PrimMST.mst p' ∧
      PriorityQueue.Len (PrimMST.pq s') = 0.
Proof.
intros Hrun n Hg. unfold PrimMST.findMST in Hrun. cbv zeta in Hrun.
fold n in Hrun.
apply bind_Done in Hrun as (d0 & Hd0 & Hrun).
apply bind_Done in Hrun as (q0 & Hq0 & Hrun).
apply bind_Done in Hrun as ([s' popped'] & Hloop & Hrun).
injection Hrun as _ <- <- <-.
apply slice_set_Done in Hd0 as [Hn ->].
unfold len in Hn. rewrite length_replicate in Hn.
destruct (Init_singleton (λ w, 0 ≤ w < Z.of_nat n) (Item.mk (Edge.mk 0 0) 0 MaxFloat64))
  as (Hinit & Hwf0 & Hlen0); [done | unfold Item.w; simpl; lia |].
rewrite Hinit in Hq0. injection Hq0 as <-.
destruct (findMST_loop_prim Hlt _ n _ _ _ _ _ Hloop Hg) as (Hwf' & Hinv' & Hlen' & _).
- unfold vars_wf. simpl. rewrite length_insert, !length_replicate. done.
- split; [by intros u ?%elem_of_nil |]. split; [| split]; simpl.
  + intros i Hi. rewrite lookup_replicate_2 by done.
    split; [done | by intros ?%elem_of_nil].
  + intros i l [[=] _]%lookup_replicate.
  + intros i u dw du _ ?%elem_of_nil. done.
- exists s'. done.
Qed.

(** The edge in a slot of the tree that is set. *)
Lemma findMST_slot (fuel : nat) (h h' : store) (p p' : PrimMST.t)
  (e : option error) (popped : list Z) (i : nat) (l : loc) :
PrimMST.findMST fuel h p = Done (e, h', p', popped) →
let n := length (PrimMST.location p) in
square n (PrimMST.graph p) →
PrimMST.mst p' !! i = Some (Some l) →
(∀ u, u ∈ popped → 0 ≤ u < Z.of_nat n) ∧
∃ ed d, h' !! l = Some ed ∧ Edge.w ed = Z.of_nat i ∧
        Edge.v ed ∈ visited_before popped (Z.of_nat i) ∧
        entry (PrimMST.graph p) (Z.to_nat (Edge.v ed)) i = Some d ∧
        ∀ u du, u ∈ visited_before popped (Z.of_nat i) →
                entry (PrimMST.graph p) (Z.to_nat u) i = Some du →
                f_lt du d = false.
Proof.
intros Hrun n Hg Hl.
destruct (findMST_final_state _ _ _ _ _ _ _ Hrun Hg)
  as (s' & Hwf & (HR & HM & HT & HK) & <- & Htree & _).
split; [done |]. rewrite <- Htree in Hl.
destruct (HT i l Hl) as (ed & d & Hed & Hw & Hne & Hv & Hd & HdT & Hmk).
exists ed, d. split; [done |]. split; [done |].
destruct Hwf as (Hlm & Hld & _).
assert (i < n)%nat as Hi.
{ apply lookup_lt_Some in HdT. lia. }
destruct (lookup_lt_is_Some_2 (PrimMST.marked s') i) as [[|] Hmi]; [lia | |].
- destruct (Hmk Hmi) as [Hvb Hopt]. done.
- assert (Z.of_nat i ∉ popped) as Hnot.
  { intros Hin. apply HM in Hin; [congruence | done]. }
  rewrite visited_before_notin by done. split; [done |]. split; [done |].
  intros u du Hu Hdu. by apply (HK i u d du).
Qed.

(** X9. The tree of findMST in the order of the visits.  For N >= 1
  vertices, an N x N matrix and entries of row 0 below MaxFloat64 off
  the diagonal: the slot of every vertex w >= 1 holds an edge from a
  vertex v to w; v was handed to visit before w was for the first time;
  and no vertex visited before w is nearer to w than v, in the entries of
  the matrix.  The lookup of the queue by vertex number changes the
  order of the visits, not this choice of the edge. *)
Theorem findMST_parent_nearest_visited (fuel : nat) (h h' : store)
  (p p' : PrimMST.t) (e : option error) (popped : list Z) :
PrimMST.findMST fuel h p = Done (e, h', p', popped) →
let n := length (PrimMST.location p) in
(1 ≤ n)%nat → square n (PrimMST.graph p) → root_row_finite n (PrimMST.graph p) →
∀ i, (1 ≤ i < n)%nat →
  ∃ l ed d, PrimMST.mst p' !! i = Some (Some l) ∧ h' !! l = Some ed ∧
            Edge.w ed = Z.of_nat i ∧
            Edge.v ed ∈ visited_before popped (Z.of_nat i) ∧
            entry (PrimMST.graph p) (Z.to_nat (Edge.v ed)) i = Some d ∧
            ∀ u du, u ∈ visited_before popped (Z.of_nat i) →
                    entry (PrimMST.graph p) (Z.to_nat u) i = Some du →
                    f_lt du d = false.
Proof.
intros Hrun n Hn Hg Hfin i Hi.
destruct (findMST_spanning_slots Hlt _ _ _ _ _ _ _ Hrun Hn Hg Hfin) as [_ Hslots].
destruct (Hslots i Hi) as (l & ed0 & Hl & _).
destruct (findMST_slot _ _ _ _ _ _ _ i l Hrun Hg Hl) as (_ & ed & d & Hrest).
exists l, ed, d. done.
Qed.

(** X10. The tree of findMST is connected and has no cycle: for N >= 1
  vertices, an N x N matrix and entries of row 0 below MaxFloat64 off
  the diagonal, from every vertex the edges in the slots lead to the
  root, vertex 0, each step going to a vertex that was first visited
  earlier. *)
Theorem findMST_tree_reaches_root (fuel : nat) (h h' : store)
  (p p' : PrimMST.t) (e : option error) (popped : list Z) :
PrimMST.findMST fuel h p = Done (e, h', p', popped) →
let n := length (PrimMST.location p) in
(1 ≤ n)%nat → square n (PrimMST.graph p) → root_row_finite n (PrimMST.graph p) →
∀ i, (i < n)%nat → reaches_root h' (PrimMST.mst p') (Z.of_nat i).
Proof.
intros Hrun n Hn Hg Hfin.
destruct (findMST_spanning_slots Hlt _ _ _ _ _ _ _ Hrun Hn Hg Hfin) as [_ Hslots].
assert (∀ m i, (i < n)%nat →
          (length (visited_before popped (Z.of_nat i)) < m)%nat →
          reaches_root h' (PrimMST.mst p') (Z.of_nat i)) as Hind.
{ induction m as [| m IH]; intros i Hi Hm; [lia |].
  destruct i as [| i]; [apply reaches_root_here |].
  destruct (Hslots (S i) ltac:(lia)) as (l & ed0 & Hl & _).
  destruct (findMST_slot _ _ _ _ _ _ _ (S i) l Hrun Hg Hl)
    as (HR & ed & d & Hed & Hw & Hv & _).
  apply (reaches_root_step _ _ _ l ed); [lia | by rewrite Nat2Z.id | done | done |].
  pose proof (visited_before_shorter _ _ _ Hv) as Hshort.
  apply visited_before_elem in Hv as [Hv _]. apply HR in Hv.
  rewrite <- (Z2Nat.id (Edge.v ed)) by lia.
  apply IH; [lia |]. rewrite Z2Nat.id by lia. lia. }
intros i Hi.
apply (Hind (S (length (visited_before popped (Z.of_nat i))))); [done | lia].
Qed.
End findMST_result.

(** ** Every vertex is visited; the edge objects of the tree are new *)

Section findMST_cover.
Context `{Float64}.
Hypothesis Hlt : lt_strict.

Lemma pq_items_weaken (P P' : Z → Prop) (pq : PriorityQueue) :
(∀ w, P w → P' w) → pq_items P pq → pq_items P' pq.
Proof.
intros Himp [Hdom Hit]. split; [done |]. intros k it Hk.
destruct (Hit k it Hk). auto.
Qed.

(** The update or the push of visit keeps the items of the queue. *)
Lemma relax_queue_items (pq pq' : PriorityQueue) (x w : Z) (dist : float64) :
match pq !! w with
| Some _ => PriorityQueue.update pq w dist
| None => heap.push pq (Item.mk (Edge.mk x w) 0 dist)
end = Done pq' →
pq_items (λ _, True) pq →
pq_items (λ _, True) pq' ∧
(∀ i, has_item pq i → has_item pq' i) ∧
(pq !! w = None → has_item pq' w ∧ PriorityQueue.Len pq' = PriorityQueue.Len pq + 1).
Proof.
intros Hrun Hwf. destruct (pq !! w) as [it |] eqn:Hq.
- destruct (update_wf (λ _, True) pq w dist Hwf) as (pq'' & Hup & Hwf' & _);
    [by rewrite Hq |].
  rewrite Hrun in Hup. injection Hup as <-.
  split; [done |]. split; [| done]. intros i Hi.
  eapply update_items; [exact Hrun | done].
- destruct (push_wf (λ _, True) pq (Item.mk (Edge.mk x w) 0 dist) Hwf I)
    as (pq'' & Hpush & Hwf' & Hlen).
  rewrite Hrun in Hpush. injection Hpush as <-.
  assert (pq !! PriorityQueue.Len pq = None) as Hnew.
  { destruct Hwf as [Hdom _]. apply eq_None_not_Some. rewrite Hdom. lia. }
  split; [done |]. split.
  + intros i Hi. eapply push_items; [done | exact Hrun | by left].
  + intros _. split; [| done].
    eapply push_items; [done | exact Hrun | by right].
Qed.

Lemma visit_range_items (x : Z) (row : list float64) (w : Z) (s s' : PrimMST.vars) :
PrimMST.visit_range x row w s = Done s' →
pq_items (λ _, True) (PrimMST.pq s) →
pq_items (λ _, True) (PrimMST.pq s') ∧
∀ i, has_item (PrimMST.pq s) i → has_item (PrimMST.pq s') i.
Proof.
revert w s. induction row as [| dist row IH]; intros w s Hrun Hwf.
{ by injection Hrun as <-. }
simpl in Hrun. apply bind_Done in Hrun as (m & _ & Hrun).
destruct m; [by eapply IH |].
apply bind_Done in Hrun as (dw & _ & Hrun).
destruct (f_lt dist dw); [| by eapply IH].
apply bind_Done in Hrun as (tree' & _ & Hrun).
apply bind_Done in Hrun as (distTo' & _ & Hrun).
apply bind_Done in Hrun as (pq' & Hq & Hrun).
destruct (relax_queue_items _ _ _ _ _ Hq Hwf) as (Hwf' & Hkeep & _).
destruct (IH _ _ Hrun Hwf') as [Hwf'' Hkeep']. split; [done |].
intros i Hi. apply Hkeep'. simpl. by apply Hkeep.
Qed.

(** The visit of the root, on the empty queue: every other vertex is
  pushed, none is found in the queue by its number. *)
Lemma visit_range_first (gv row : list float64) (w : Z) (s s' : PrimMST.vars) :
PrimMST.visit_range 0 row w s = Done s' → 0 ≤ w → row = drop (Z.to_nat w) gv →
pq_items (λ _, True) (PrimMST.pq s) → PriorityQueue.Len (PrimMST.pq s) ≤ w →
PrimMST.marked s !! O = Some true →
(∀ i, (1 ≤ i)%nat → (Z.to_nat w ≤ i)%nat → (i < length gv)%nat →
      PrimMST.marked s !! i = Some false ∧
      PrimMST.distTo s !! i = Some MaxFloat64) →
(∀ i d, (1 ≤ i)%nat → gv !! i = Some d → f_lt d MaxFloat64 = true) →
∀ i, (1 ≤ i)%nat → (Z.to_nat w ≤ i)%nat → (i < length gv)%nat →
     has_item (PrimMST.pq s') (Z.of_nat i).
Proof.
intros Hrun Hw Hrow Hwf Hlen Hm0 Hrest Hfin. revert w s Hw Hrow Hrun Hwf Hlen Hm0 Hrest.
induction row as [| dist row IH]; intros w s Hw Hrow Hrun Hwf Hlen Hm0 Hrest.
{ intros i _ Hi Hin.
  assert (length (drop (Z.to_nat w) gv) = O) as Hl by (by rewrite <- Hrow).
  rewrite length_drop in Hl. lia. }
assert (gv !! Z.to_nat w = Some dist) as Hdist.
{ pose proof (lookup_drop gv (Z.to_nat w) 0) as Hl0. rewrite <- Hrow in Hl0.
  simpl in Hl0. by rewrite Nat.add_0_r in Hl0. }
assert (row = drop (Z.to_nat (w + 1)) gv) as Hrow'.
{ rewrite (drop_S _ _ _ Hdist) in Hrow. injection Hrow as ->. f_equal. lia. }
pose proof (lookup_lt_Some _ _ _ Hdist) as Hwlen.
simpl in Hrun. apply bind_Done in Hrun as (m & Hm & Hrun).
apply slice_get_Done in Hm as [_ Hm].
destruct (decide (w = 0)) as [-> | Hw0].
{ (* the root itself: marked *)
  change (Z.to_nat 0) with O in Hm. assert (m = true) as -> by congruence.
  intros i Hi1 _ Hin.
  apply (IH (0 + 1) s); try done; try lia.
  intros j Hj1 _ Hjn. apply Hrest; [done | simpl; lia | done]. }
destruct (Hrest (Z.to_nat w)) as [Hmw Hdw]; [lia | lia | done |].
assert (m = false) as -> by congruence.
apply bind_Done in Hrun as (dw & Hdw' & Hrun).
apply slice_get_Done in Hdw' as [_ Hdw'].
assert (dw = MaxFloat64) as -> by congruence.
rewrite (Hfin (Z.to_nat w) dist) in Hrun by (done || lia).
apply bind_Done in Hrun as (tree' & _ & Hrun).
apply bind_Done in Hrun as (distTo' & HdT & Hrun).
apply slice_set_Done in HdT as [_ ->].
apply bind_Done in Hrun as (pq' & Hq & Hrun).
destruct (relax_queue_items _ _ _ _ _ Hq Hwf) as (Hwf' & Hkeep & Hnew).
assert (PrimMST.pq s !! w = None) as Hnone.
{ destruct Hwf as [Hdom _]. apply eq_None_not_Some. rewrite Hdom. lia. }
destruct (Hnew Hnone) as [Hitem Hlen'].
intros i Hi1 Hiw Hin.
destruct (decide (i = Z.to_nat w)) as [-> | Hne].
- destruct (visit_range_items _ _ _ _ _ Hrun Hwf') as [_ Hkeep'].
  apply Hkeep'. simpl. by rewrite Z2Nat.id by lia.
- apply (IH (w + 1) _ ltac:(lia) Hrow' Hrun); simpl; try done; try lia.
  intros j Hj1 Hjw Hjn. destruct (Hrest j) as [Hmj Hdj]; [lia | lia | done |].
  split; [done |]. rewrite list_lookup_insert_ne by lia. done.
Qed.

(** The loop of findMST visits what is in the queue. *)
Lemma findMST_loop_reached (g : list (list float64)) (n : nat) (fuel : nat)
  (s s' : PrimMST.vars) (P P' : list Z) :
PrimMST.findMST_loop fuel g s P = Done (s', P') →
square n g → vars_wf n s → all_reached n s P →
vars_wf n s' ∧ all_reached n s' P' ∧
PriorityQueue.Len (PrimMST.pq s') = 0 ∧ P `prefix_of` P'.
Proof.
intros Hrun Hg. revert s P Hrun.
induction fuel as [| fuel IH]; intros s P Hrun Hwf Hall; [discriminate |].
simpl in Hrun. case_decide as Hlen.
2: { injection Hrun as <- <-. split; [done |]. split; [done |]. split; [| done].
     unfold PriorityQueue.Len in *. lia. }
apply bind_Done in Hrun as ([item pq'] & Hpop & Hrun).
apply bind_Done in Hrun as (s1 & Hvis & Hrun).
destruct Hwf as (Hlm & Hld & Hlt' & Hpq).
destruct (pop_wf (λ w, 0 ≤ w < Z.of_nat n) (PrimMST.pq s))
  as (item' & pq'' & Hpop' & Hpq' & _ & Hw); [done | done |].
rewrite Hpop in Hpop'. injection Hpop' as <- <-.
set (s0 := PrimMST.mkvars (PrimMST.edges s) (PrimMST.tree s) (PrimMST.marked s)
             (PrimMST.distTo s) pq') in *.
assert (vars_wf n s0) as Hwf0 by done.
destruct (visit_returns Hlt g n (Item.w item) s0 Hg Hw Hwf0) as (s1' & Hvis' & Hwf1 & _).
rewrite Hvis in Hvis'. injection Hvis' as <-.
assert (all_reached n s1 (P ++ [Item.w item])) as Hall1.
{ unfold PrimMST.visit in Hvis.
  apply bind_Done in Hvis as (marked' & _ & Hvis).
  apply bind_Done in Hvis as (row & _ & Hvis).
  destruct (visit_range_items _ _ _ _ _ Hvis) as [_ Hkeep].
  { simpl. by eapply pq_items_weaken; [| exact Hpq']. }
  intros i Hi. destruct (Hall i Hi) as [HiP | Hitem].
  - left. apply elem_of_app. by left.
  - destruct (pop_items _ _ _ _ Hpop Hitem) as [-> | Hitem'].
    + left. apply elem_of_app. right. apply list_elem_of_here.
    + right. by apply Hkeep. }
destruct (IH s1 _ Hrun Hwf1 Hall1) as (Hwf' & Hall' & Hlen' & Hpre).
split; [done |]. split; [done |]. split; [done |].
etransitivity; [| exact Hpre]. by apply prefix_app_r.
Qed.

(** X11. findMST visits every vertex, the root first: for N >= 1
  vertices, an N x N matrix and entries of row 0 below MaxFloat64 off
  the diagonal, the first vertex handed to visit is vertex 0, every
  vertex handed to visit is below N, and each of the N vertices is
  handed to visit at least once. *)
Theorem findMST_visits_every_vertex (fuel : nat) (h h' : store)
  (p p' : PrimMST.t) (e : option error) (popped : list Z) :
PrimMST.findMST fuel h p = Done (e, h', p', popped) →
let n := length (PrimMST.location p) in
(1 ≤ n)%nat → square n (PrimMST.graph p) → root_row_finite n (PrimMST.graph p) →
popped !! O = Some 0 ∧
(∀ u, u ∈ popped → 0 ≤ u < Z.of_nat n) ∧
(∀ i, (i < n)%nat → Z.of_nat i ∈ popped).
Proof.
intros Hrun n Hn Hg Hfin.
assert (∀ u, u ∈ popped → 0 ≤ u < Z.of_nat n) as HR.
{ by destruct (findMST_final_state Hlt _ _ _ _ _ _ _ Hrun Hg)
    as (s' & _ & (HR & _) & _). }
unfold PrimMST.findMST in Hrun. cbv zeta in Hrun. fold n in Hrun.
apply bind_Done in Hrun as (d0 & Hd0 & Hrun).
apply bind_Done in Hrun as (q0 & Hq0 & Hrun).
apply bind_Done in Hrun as ([s' popped'] & Hloop & Hrun).
injection Hrun as _ _ _ <-.
apply slice_set_Done in Hd0 as [_ ->].
destruct (Init_singleton (λ w, w = 0) (Item.mk (Edge.mk 0 0) 0 MaxFloat64))
  as (Hinit & Hwf0 & Hlen0); [done | done |].
rewrite Hinit in Hq0. injection Hq0 as <-.
destruct fuel as [| fuel]; [discriminate |]. simpl in Hloop.
rewrite decide_True in Hloop by lia.
apply bind_Done in Hloop as ([item pq'] & Hpop & Hloop).
apply bind_Done in Hloop as (s1 & Hvis & Hloop).
destruct (pop_wf (λ w, w = 0) _ Hwf0) as (item' & pq'' & Hpop' & Hpq' & Hlen' & Hw);
  [lia |].
rewrite Hpop in Hpop'. injection Hpop' as <- <-. rewrite Hw in *.
set (d0 := <[Z.to_nat 0:=MaxFloat64]> (replicate n MaxFloat64)) in *.
set (s0 := PrimMST.mkvars h (replicate n None) (replicate n false) d0 pq') in *.
assert (vars_wf n s0) as Hwfs0.
{ unfold vars_wf. subst s0 d0. simpl. rewrite length_insert, !length_replicate.
  split; [done |]. split; [done |]. split; [done |].
  apply (pq_items_empty (λ w, w = 0)); [done | lia]. }
destruct (visit_returns Hlt (PrimMST.graph p) n 0 s0 Hg ltac:(lia) Hwfs0)
  as (s1' & Hvis' & Hwf1 & _).
rewrite Hvis in Hvis'. injection Hvis' as <-.
assert (all_reached n s1 [0]) as Hall1.
{ unfold PrimMST.visit in Hvis.
  apply bind_Done in Hvis as (marked' & Hmk & Hvis).
  apply bind_Done in Hvis as (gv & Hgv & Hvis).
  apply slice_set_Done in Hmk as [_ ->].
  apply slice_get_Done in Hgv as [_ Hgv].
  assert (length gv = n) as Hgvn.
  { destruct Hg as [_ Hcols]. apply Hcols. by eapply list_elem_of_lookup_2. }
  intros i Hi. destruct i as [| i]; [left; apply list_elem_of_here |]. right.
  apply (visit_range_first gv gv 0 _ s1 Hvis); simpl; try done; try lia.
  - by eapply pq_items_empty; [exact Hpq' | lia].
  - apply list_lookup_insert_eq. rewrite length_replicate. lia.
  - intros j Hj1 _ Hjn. subst d0. rewrite !list_lookup_insert_ne by lia.
    rewrite !lookup_replicate_2 by lia. done.
  - intros j d Hj1 Hd. apply (Hfin gv j d); [done | | done].
    apply lookup_lt_Some in Hd. lia. }
destruct (findMST_loop_reached _ n _ _ _ _ _ Hloop Hg Hwf1 Hall1)
  as (Hwf' & Hall' & Hlenf & Hpre).
split; [| split; [done |]].
- destruct Hpre as [rest ->]. done.
- intros i Hi. destruct (Hall' i Hi) as [? | (k & it & Hk & _)]; [done |].
  destruct Hwf' as (_ & _ & _ & [Hdom _]).
  assert (is_Some (PrimMST.pq s' !! k)) as Hsome by eauto.
  apply Hdom in Hsome. lia.
Qed.
End findMST_cover.

Section findMST_fresh.
Context `{Float64}.

Lemma visit_range_fresh (h0 : store) (x : Z) (row : list float64) (w : Z)
  (s s' : PrimMST.vars) :
PrimMST.visit_range x row w s = Done s' → fresh_tree h0 s → fresh_tree h0 s'.
Proof.
revert w s. induction row as [| dist row IH]; intros w s Hrun Hfresh.
{ by injection Hrun as <-. }
simpl in Hrun. apply bind_Done in Hrun as (m & _ & Hrun).
destruct m; [by eapply IH |].
apply bind_Done in Hrun as (dw & _ & Hrun).
destruct (f_lt dist dw); [| by eapply IH].
apply bind_Done in Hrun as (tree' & Htree & Hrun).
apply bind_Done in Hrun as (distTo' & _ & Hrun).
apply bind_Done in Hrun as (pq' & _ & Hrun).
apply slice_set_Done in Htree as [Hwt ->]. unfold len in Hwt.
apply (IH _ _ Hrun). destruct Hfresh as (Hpre & Hrange & Hinj).
split; [| split]; simpl.
- by apply prefix_app_r.
- intros i l Hl. rewrite length_app. simpl.
  destruct (decide (i = Z.to_nat w)) as [-> | Hne].
  + rewrite list_lookup_insert_eq in Hl by lia. injection Hl as <-.
    apply prefix_length in Hpre. lia.
  + rewrite list_lookup_insert_ne in Hl by done. apply Hrange in Hl. lia.
- intros i j l Hi Hj.
  destruct (decide (i = Z.to_nat w)) as [-> | Hni];
    destruct (decide (j = Z.to_nat w)) as [-> | Hnj]; [done | | |].
  + rewrite list_lookup_insert_eq in Hi by lia. injection Hi as <-.
    rewrite list_lookup_insert_ne in Hj by done. apply Hrange in Hj. lia.
  + rewrite list_lookup_insert_eq in Hj by lia. injection Hj as <-.
    rewrite list_lookup_insert_ne in Hi by done. apply Hrange in Hi. lia.
  + rewrite list_lookup_insert_ne in Hi, Hj by done. by eapply Hinj.
Qed.

Lemma findMST_loop_fresh (h0 : store) (g : list (list float64)) (fuel : nat)
  (s s' : PrimMST.vars) (P P' : list Z) :
PrimMST.findMST_loop fuel g s P = Done (s', P') → fresh_tree h0 s → fresh_tree h0 s'.
Proof.
revert s P. induction fuel as [| fuel IH]; intros s P Hrun Hfresh; [discriminate |].
simpl in Hrun. case_decide; [| by injection Hrun as <- _].
apply bind_Done in Hrun as ([item pq'] & _ & Hrun).
apply bind_Done in Hrun as (s1 & Hvis & Hrun).
apply (IH _ _ Hrun). unfold PrimMST.visit in Hvis.
apply bind_Done in Hvis as (marked' & _ & Hvis).
apply bind_Done in Hvis as (row & _ & Hvis).
by apply (visit_range_fresh _ _ _ _ _ _ Hvis).
Qed.

(** X12. findMST only allocates: every edge object that was in the store
  is there unchanged when it returns, every slot of the tree that is set
  points to an object allocated in this run, and no two slots point to
  the same object, so that exchanging the ends of the edge of one slot,
  as findSP and plotSP do, never changes the edge of another slot. *)
Theorem findMST_allocates_fresh_edges (fuel : nat) (h h' : store)
  (p p' : PrimMST.t) (e : option error) (popped : list Z) :
PrimMST.findMST fuel h p = Done (e, h', p', popped) →
(∀ l ed, h !! l = Some ed → h' !! l = Some ed) ∧
(∀ i l, PrimMST.mst p' !! i = Some (Some l) → (length h ≤ l < length h')%nat) ∧
(∀ i j l, PrimMST.mst p' !! i = Some (Some l) →
          PrimMST.mst p' !! j = Some (Some l) → i = j).
Proof.
intros Hrun. unfold PrimMST.findMST in Hrun. cbv zeta in Hrun.
apply bind_Done in Hrun as (d0 & _ & Hrun).
apply bind_Done in Hrun as (q0 & _ & Hrun).
apply bind_Done in Hrun as ([s' popped'] & Hloop & Hrun).
injection Hrun as _ <- <- _. simpl.
destruct (findMST_loop_fresh h _ _ _ _ _ _ Hloop) as (Hpre & Hrange & Hinj).
- split; [done |]. split; simpl.
  + intros i l [[=] _]%lookup_replicate.
  + intros i j l [[=] _]%lookup_replicate.
- split; [| done]. intros l ed Hl. by eapply prefix_lookup_Some.
Qed.
End findMST_fresh.

(** ** The run of findMST on four vertices in a row *)

Lemma row4_square : square (H := Q_float64) 4 (PrimMST.graph row4_start).
Proof. apply (tabulate_square (H := Q_float64) 4). Qed.

Lemma row4_root_row_finite : root_row_finite (H := Q_float64) 4 (PrimMST.graph row4_start).
Proof.
  intros gv i d Hgv Hi Hd. vm_compute in Hgv. injection Hgv as <-.
  destruct i as [| [| [| [| i]]]]; try lia; vm_compute in Hd; injection Hd as <-;
    reflexivity.
Qed.

Lemma row4_run :
  PrimMST.findMST (H := Q_float64) 20 [] row4_start
  = Done (None, row4_store, row4_prim, [0; 2; 3; 1]).
Proof. vm_compute. reflexivity. Qed.

Lemma findMST_parent_nearest_visited_witness :
  ∃ l ed d, PrimMST.mst row4_prim !! 1%nat = Some (Some l) ∧ row4_store !! l = Some ed ∧
            Edge.w ed = Z.of_nat 1 ∧
            Edge.v ed ∈ visited_before [0; 2; 3; 1] (Z.of_nat 1) ∧
            entry (PrimMST.graph row4_start) (Z.to_nat (Edge.v ed)) 1 = Some d ∧
            ∀ u du, u ∈ visited_before [0; 2; 3; 1] (Z.of_nat 1) →
                    entry (PrimMST.graph row4_start) (Z.to_nat u) 1 = Some du →
                    f_lt (Float64 := Q_float64) du d = false.
Proof.
  apply (findMST_parent_nearest_visited (H := Q_float64) Q_lt_strict 20 [] row4_store
           row4_start row4_prim None [0; 2; 3; 1] row4_run ltac:(simpl; lia)
           row4_square row4_root_row_finite 1%nat).
  simpl. lia.
Defined.

Lemma findMST_tree_reaches_root_witness :
  reaches_root row4_store (PrimMST.mst row4_prim) (Z.of_nat 3).
Proof.
  apply (findMST_tree_reaches_root (H := Q_float64) Q_lt_strict 20 [] row4_store
           row4_start row4_prim None [0; 2; 3; 1] row4_run ltac:(simpl; lia)
           row4_square row4_root_row_finite 3%nat).
  simpl. lia.
Defined.

Lemma findMST_visits_every_vertex_witness :
  [0; 2; 3; 1] !! O = Some 0 ∧
  (∀ u, u ∈ [0; 2; 3; 1] → 0 ≤ u < Z.of_nat (length (PrimMST.location row4_start))) ∧
  (∀ i, (i < length (PrimMST.location row4_start))%nat → Z.of_nat i ∈ [0; 2; 3; 1]).
Proof.
  apply (findMST_visits_every_vertex (H := Q_float64) Q_lt_strict 20 [] row4_store
           row4_start row4_prim None [0; 2; 3; 1] row4_run ltac:(simpl; lia)
           row4_square row4_root_row_finite).
Defined.

Lemma findMST_allocates_fresh_edges_witness :
  (∀ l ed, row4_store !! l = Some ed → row4_again_store !! l = Some ed) ∧
  (∀ i l, PrimMST.mst row4_again_prim !! i = Some (Some l) →
          (length row4_store ≤ l < length row4_again_store)%nat) ∧
  (∀ i j l, PrimMST.mst row4_again_prim !! i = Some (Some l) →
            PrimMST.mst row4_again_prim !! j = Some (Some l) → i = j).
Proof.
  apply (findMST_allocates_fresh_edges (H := Q_float64) 20 row4_store row4_again_store
           row4_prim row4_again_prim None [0; 2; 3; 1]).
  vm_compute. reflexivity.
Defined.

(** ** The adjacency list and the edges that findSP records *)

Lemma swap_touches (h : store) (l l' : loc) (e : Edge.t) (i : Z) :
  h !! l' = Some e → edge_touches h l i → edge_touches (<[l' := Edge.swap e]> h) l i.
Proof.
  intros He (ed & Hed & Hends). destruct (decide (l = l')) as [-> | Hne].
  - exists (Edge.swap e). rewrite list_lookup_insert_eq by (by eapply lookup_lt_Some).
    split; [done |]. assert (ed = e) as -> by congruence. simpl. tauto.
  - exists ed. by rewrite list_lookup_insert_ne.
Qed.

Section findSP_adjacency.
Context `{Float64}.

(** The loop that fills the adjacency list appends the pointer of every
  edge to the lists of both its ends, and nothing else. *)
Lemma build_adj_spec (h : store) (es : list (option loc)) (a a' : list (list loc)) :
DijksraSP.build_adj h es a = Done a' →
length a' = length a ∧
∀ i ls', a' !! i = Some ls' →
  ∃ ls, a !! i = Some ls ∧
    ∀ l, l ∈ ls' ↔
         l ∈ ls ∨ ∃ k, es !! k = Some (Some l) ∧ edge_touches h l (Z.of_nat i).
Proof.
revert a. induction es as [| e es IH]; intros a Hrun; simpl in Hrun.
{ injection Hrun as <-. split; [done |]. intros i ls' Hi. exists ls'.
  split; [done |]. intros l. split; [by left |].
  intros [? | (k & Hk & _)]; [done |]. by rewrite lookup_nil in Hk. }
apply bind_Done in Hrun as (ed & Hed & Hrun).
apply deref_Done in Hed as (l0 & -> & Hl0). simpl in Hrun.
apply bind_Done in Hrun as (av & Hav & Hrun).
apply bind_Done in Hrun as (a1 & Ha1 & Hrun).
apply bind_Done in Hrun as (aw & Haw & Hrun).
apply bind_Done in Hrun as (a2 & Ha2 & Hrun).
apply slice_get_Done in Hav as [Hv0 Hav], Haw as [Hw0 Haw].
apply slice_set_Done in Ha1 as [Hv1 ->], Ha2 as [Hw1 ->].
unfold len in Hv1, Hw1. rewrite length_insert in Hw1.
destruct (IH _ Hrun) as [Hlen Hspec]. rewrite !length_insert in Hlen.
split; [done |]. intros i ls' Hi.
destruct (Hspec i ls' Hi) as (ls2 & Hls2 & Hmem).
assert (∃ ls, a !! i = Some ls ∧
          ∀ l, l ∈ ls2 ↔ l ∈ ls ∨ (l = l0 ∧ (Edge.v ed = Z.of_nat i ∨ Edge.w ed = Z.of_nat i)))
  as (ls & Hls & Hmem2).
{ destruct (decide (i = Z.to_nat (Edge.w ed))) as [-> | Hnw].
  - rewrite list_lookup_insert_eq in Hls2 by (rewrite length_insert; lia).
    injection Hls2 as <-.
    destruct (decide (Z.to_nat (Edge.w ed) = Z.to_nat (Edge.v ed))) as [Heq | Hnv].
    + rewrite Heq in Haw. rewrite list_lookup_insert_eq in Haw by lia.
      injection Haw as <-. exists av. rewrite Heq. split; [done |].
      intros l. rewrite !elem_of_app, !list_elem_of_singleton. split; [| tauto].
      intros [[? | ->] | ->]; [by left | right; split; [done | left; lia] ..].
    + rewrite list_lookup_insert_ne in Haw by done. exists aw. split; [done |].
      intros l. rewrite !elem_of_app, !list_elem_of_singleton. split.
      * intros [? | ->]; [by left | right; split; [done | right; lia]].
      * intros [? | [-> _]]; [by left | by right].
  - rewrite list_lookup_insert_ne in Hls2 by done.
    destruct (decide (i = Z.to_nat (Edge.v ed))) as [-> | Hnv].
    + rewrite list_lookup_insert_eq in Hls2 by lia. injection Hls2 as <-.
      exists av. split; [done |].
      intros l. rewrite !elem_of_app, !list_elem_of_singleton. split.
      * intros [? | ->]; [by left | right; split; [done | left; lia]].
      * intros [? | [-> _]]; [by left | by right].
    + rewrite list_lookup_insert_ne in Hls2 by done. exists ls2. split; [done |].
      intros l. split; [by left |]. intros [? | [_ [? | ?]]]; [done | lia | lia]. }
exists ls. split; [done |]. intros l. rewrite Hmem, Hmem2. split.
- intros [[? | [-> Hends]] | (k & Hk & Ht)].
  + by left.
  + right. exists O. split; [done |]. by exists ed.
  + right. by exists (S k).
- intros [? | (k & Hk & Ht)]; [by left; left |].
  destruct k as [| k]; simpl in Hk.
  + injection Hk as <-. left. right. split; [done |].
    destruct Ht as (ed' & Hed' & Hends). by assert (ed = ed') as -> by congruence.
  + right. by exists k.
Qed.

(** What the search keeps of the edges it records: the pointer is
  in the adjacency list, and the edge has the vertex as an end. *)
Lemma relax_range_edgeTo (g : list (list float64)) (a : list (list loc)) (v : Z)
  (es : list loc) (s s' : DijksraSP.vars) :
DijksraSP.relax_range g v es s = Done s' →
(∀ l, l ∈ es → in_adj a l) →
(∀ w l, DijksraSP.vedgeTo s !! w = Some (Some l) →
        in_adj a l ∧ edge_touches (DijksraSP.edges s) l (Z.of_nat w)) →
length (DijksraSP.vedgeTo s') = length (DijksraSP.vedgeTo s) ∧
length (DijksraSP.vdistTo s') = length (DijksraSP.vdistTo s) ∧
(∀ w l, DijksraSP.vedgeTo s' !! w = Some (Some l) →
        in_adj a l ∧ edge_touches (DijksraSP.edges s') l (Z.of_nat w)).
Proof.
revert s. induction es as [| l0 es IH]; intros s Hrun Hes Hinv; simpl in Hrun.
{ by injection Hrun as <-. }
apply bind_Done in Hrun as (e & He & Hrun).
apply deref_Done in He as (l' & [= <-] & Hl0).
set (w := if decide (Edge.w e = v) then Edge.v e else Edge.w e).
set (edges' := if decide (Edge.w e = v) then <[l0 := Edge.swap e]> (DijksraSP.edges s)
               else DijksraSP.edges s).
assert ((if decide (Edge.w e = v)
         then (Edge.v e, <[l0 := Edge.swap e]> (DijksraSP.edges s))
         else (Edge.w e, DijksraSP.edges s)) = (w, edges')) as Heq.
{ subst w edges'. by case_decide. }
rewrite Heq in Hrun. clear Heq.
assert (∀ l i, edge_touches (DijksraSP.edges s) l i → edge_touches edges' l i) as Hkeep.
{ intros l i Ht. subst edges'. case_decide; [by apply swap_touches | done]. }
assert (edge_touches edges' l0 w) as Hnew.
{ subst w edges'. case_decide.
  - exists (Edge.swap e). rewrite list_lookup_insert_eq by (by eapply lookup_lt_Some).
    split; [done |]. simpl. by right.
  - exists e. split; [done | by right]. }
apply bind_Done in Hrun as (dv & _ & Hrun).
apply bind_Done in Hrun as (gv & _ & Hrun).
apply bind_Done in Hrun as (gvw & _ & Hrun).
apply bind_Done in Hrun as (dw & Hdw & Hrun).
apply slice_get_Done in Hdw as [Hw0 _].
destruct (f_lt _ dw).
- apply bind_Done in Hrun as (edgeTo' & HeT & Hrun).
  apply bind_Done in Hrun as (dv' & _ & Hrun).
  apply bind_Done in Hrun as (gv' & _ & Hrun).
  apply bind_Done in Hrun as (gvw' & _ & Hrun).
  apply bind_Done in Hrun as (distTo' & HdT & Hrun).
  apply bind_Done in Hrun as (pq' & _ & Hrun).
  apply slice_set_Done in HeT as [HwT ->], HdT as [_ ->]. unfold len in HwT.
  destruct (IH _ Hrun) as (HlenE & HlenD & Hinv').
  + intros l Hl. apply Hes. by apply list_elem_of_further.
  + intros w' l Hl. simpl in *.
    destruct (decide (w' = Z.to_nat w)) as [-> | Hne].
    * rewrite list_lookup_insert_eq in Hl by lia. injection Hl as <-.
      split; [apply Hes, list_elem_of_here |]. by rewrite Z2Nat.id by lia.
    * rewrite list_lookup_insert_ne in Hl by done.
      destruct (Hinv w' l Hl). split; [done | by apply Hkeep].
  + simpl in *. rewrite !length_insert in *. done.
- destruct (IH _ Hrun) as (HlenE & HlenD & Hinv').
  + intros l Hl. apply Hes. by apply list_elem_of_further.
  + intros w' l Hl. simpl in *.
    destruct (Hinv w' l Hl). split; [done | by apply Hkeep].
  + done.
Qed.

Lemma findSP_loop_edgeTo (fuel : nat) (g : list (list float64))
  (a : list (list loc)) (tgt : Z) (s s' : DijksraSP.vars) :
DijksraSP.findSP_loop fuel g a tgt s = Done s' →
(∀ w l, DijksraSP.vedgeTo s !! w = Some (Some l) →
        in_adj a l ∧ edge_touches (DijksraSP.edges s) l (Z.of_nat w)) →
length (DijksraSP.vedgeTo s') = length (DijksraSP.vedgeTo s) ∧
length (DijksraSP.vdistTo s') = length (DijksraSP.vdistTo s) ∧
(∀ w l, DijksraSP.vedgeTo s' !! w = Some (Some l) →
        in_adj a l ∧ edge_touches (DijksraSP.edges s') l (Z.of_nat w)).
Proof.
revert s. induction fuel as [| fuel IH]; intros s Hrun Hinv; [discriminate |].
simpl in Hrun. case_decide; [| by injection Hrun as <-].
apply bind_Done in Hrun as ([item pq'] & _ & Hrun).
case_decide.
{ apply bind_Done in Hrun as (pq'' & _ & Hrun). by injection Hrun as <-. }
apply bind_Done in Hrun as (s1 & Hrelax & Hrun).
unfold DijksraSP.relax in Hrelax.
apply bind_Done in Hrelax as (es & Hes & Hrelax).
apply slice_get_Done in Hes as [_ Hes].
destruct (relax_range_edgeTo g a _ _ _ _ Hrelax) as (HlenE & HlenD & Hinv1).
- intros l Hl. by exists (Z.to_nat (Item.w item)), es.
- done.
- destruct (IH _ Hrun Hinv1) as (HlenE' & HlenD' & Hinv').
  simpl in *. split; [congruence |]. split; [congruence | done].
Qed.

(** The parts of a search that returned no error. *)
Lemma findSP_search_parts (fuel : nat) (h h' : store) (dsp dsp' : DijksraSP.t)
  (e : option error) :
DijksraSP.findSP_search fuel h dsp = Done (e, h', dsp') →
let n := length (DijksraSP.location dsp) in
∃ es s',
  slice_from1 (DijksraSP.mst dsp) = Done es ∧
  DijksraSP.build_adj h es (replicate n []) = Done (DijksraSP.adj dsp') ∧
  DijksraSP.edges s' = h' ∧ DijksraSP.vedgeTo s' = DijksraSP.edgeTo dsp' ∧
  DijksraSP.vdistTo s' = DijksraSP.distTo dsp' ∧
  length (DijksraSP.vedgeTo s') = n ∧ length (DijksraSP.vdistTo s') = n ∧
  (∀ w l, DijksraSP.vedgeTo s' !! w = Some (Some l) →
          in_adj (DijksraSP.adj dsp') l ∧ edge_touches h' l (Z.of_nat w)).
Proof.
intros Hrun n. unfold DijksraSP.findSP_search in Hrun. cbv zeta in Hrun. fold n in Hrun.
apply bind_Done in Hrun as (es & Hes & Hrun).
apply bind_Done in Hrun as (a & Ha & Hrun).
apply bind_Done in Hrun as (distTo0 & Hd0 & Hrun).
apply bind_Done in Hrun as (pq0 & _ & Hrun).
apply bind_Done in Hrun as (s' & Hloop & Hrun).
injection Hrun as _ <- <-. simpl.
apply slice_set_Done in Hd0 as [_ ->].
destruct (findSP_loop_edgeTo _ _ _ _ _ _ Hloop) as (HlenE & HlenD & Hinv).
{ simpl. intros w l [[=] _]%lookup_replicate. }
simpl in *. rewrite length_replicate in HlenE.
rewrite length_insert, length_replicate in HlenD.
exists es, s'. done.
Qed.

(** X13. The adjacency list that findSP builds holds the tree and nothing
  else: when findSP returns no error there is one list for each vertex,
  and a pointer is in the list of the vertex i exactly when it is in a
  slot of the tree, from slot 1 on, and the edge it pointed to when
  findSP was called has i as one of its ends. *)
Theorem findSP_adjacency_is_tree (fuel : nat) (h h' : store)
  (dsp dsp' : DijksraSP.t) (r : Request.t) :
DijksraSP.findSP fuel h dsp r = Done (None, h', dsp') →
length (DijksraSP.adj dsp') = length (DijksraSP.location dsp) ∧
∀ i ls l, DijksraSP.adj dsp' !! i = Some ls →
  (l ∈ ls ↔ tree_pointer (DijksraSP.mst dsp) l ∧ edge_touches h l (Z.of_nat i)).
Proof.
intros Hrun. apply findSP_Done in Hrun as [(err & [=] & _) | [_ Hrun]].
destruct (findSP_search_parts _ _ _ _ _ _ Hrun) as (es & s' & Hes & Hadj & _).
simpl in Hes, Hadj.
destruct (build_adj_spec _ _ _ _ Hadj) as [Hlen Hspec].
rewrite length_replicate in Hlen. split; [done |].
intros i ls l Hi. destruct (Hspec i ls Hi) as (ls0 & Hls0 & Hmem).
apply lookup_replicate in Hls0 as [-> _]. rewrite Hmem.
destruct (DijksraSP.mst dsp) as [| e0 mst'] eqn:Hmst; [discriminate |].
injection Hes as <-. split.
- intros [?%elem_of_nil | (k & Hk & Ht)]; [done |].
  split; [| done]. exists (S k). split; [lia | done].
- intros [(k & Hk1 & Hk) Ht]. right. destruct k as [| k]; [lia |].
  exists k. done.
Qed.

(** X14. The search of findSP stays on the tree: when findSP returns no
  error, edgeTo and distTo have one entry for each vertex, and every
  edge recorded in edgeTo[w] is an edge object of the tree, from a slot
  from 1 on, that has w as one of its ends. *)
Theorem findSP_edgeTo_on_tree (fuel : nat) (h h' : store)
  (dsp dsp' : DijksraSP.t) (r : Request.t) :
DijksraSP.findSP fuel h dsp r = Done (None, h', dsp') →
length (DijksraSP.edgeTo dsp') = length (DijksraSP.location dsp) ∧
length (DijksraSP.distTo dsp') = length (DijksraSP.location dsp) ∧
∀ (w : nat) l, DijksraSP.edgeTo dsp' !! w = Some (Some l) →
  tree_pointer (DijksraSP.mst dsp) l ∧ edge_touches h' l (Z.of_nat w).
Proof.
intros Hrun. apply findSP_Done in Hrun as [(err & [=] & _) | [_ Hrun]].
destruct (findSP_search_parts _ _ _ _ _ _ Hrun)
  as (es & s' & Hes & Hadj & _ & <- & <- & HlenE & HlenD & Hinv).
simpl in Hes, Hadj, HlenE, HlenD.
split; [done |]. split; [done |]. intros w l Hl.
destruct (Hinv w l Hl) as [(v & ls & Hv & Hin) Ht]. split; [| done].
destruct (build_adj_spec _ _ _ _ Hadj) as [_ Hspec].
destruct (Hspec v ls Hv) as (ls0 & Hls0 & Hmem).
apply lookup_replicate in Hls0 as [-> _]. apply Hmem in Hin.
destruct Hin as [?%elem_of_nil | (k & Hk & _)]; [done |].
destruct (DijksraSP.mst dsp) as [| e0 mst'] eqn:Hmst; [discriminate |].
injection Hes as <-. exists (S k). split; [lia | done].
Qed.
End findSP_adjacency.

Lemma row4_32_run :
  DijksraSP.findSP (H := Q_float64) 20 row4_store row4_dsp row4_32
  = Done (None, row4_32_store, row4_32_dsp).
Proof. vm_compute. reflexivity. Qed.

Lemma findSP_adjacency_is_tree_witness :
  length (DijksraSP.adj row4_32_dsp) = length (DijksraSP.location row4_dsp) ∧
  ∀ i ls l, DijksraSP.adj row4_32_dsp !! i = Some ls →
    (l ∈ ls ↔ tree_pointer (DijksraSP.mst row4_dsp) l ∧
              edge_touches row4_store l (Z.of_nat i)).
Proof.
  apply (findSP_adjacency_is_tree (H := Q_float64) 20 row4_store row4_32_store
           row4_dsp row4_32_dsp row4_32 row4_32_run).
Defined.

Lemma findSP_edgeTo_on_tree_witness :
  length (DijksraSP.edgeTo row4_32_dsp) = length (DijksraSP.location row4_dsp) ∧
  length (DijksraSP.distTo row4_32_dsp) = length (DijksraSP.location row4_dsp) ∧
  ∀ (w : nat) l, DijksraSP.edgeTo row4_32_dsp !! w = Some (Some l) →
    tree_pointer (DijksraSP.mst row4_dsp) l ∧ edge_touches row4_32_store l (Z.of_nat w).
Proof.
  apply (findSP_edgeTo_on_tree (H := Q_float64) 20 row4_store row4_32_store
           row4_dsp row4_32_dsp row4_32 row4_32_run).
Defined.

(** ** The labels in the grid *)

Lemma labelled_mono (L L' : list string) (g : Grid.t) :
  L ⊆ L' → labelled L g → labelled L' g.
Proof. intros Hsub Hlab c x Hc. destruct (Hlab c x Hc). split; [done | by apply Hsub]. Qed.

Lemma Grid_set_labelled (L : list string) (g g' : Grid.t) (i : Z) (x : string) :
  Grid.set g i x = Done g' → x ∈ L → labelled L g →
  labelled L g' ∧ Grid.length g' = Grid.length g.
Proof.
  intros [Hi ->]%Grid_set_Done Hx Hlab. split; [| done].
  intros c y. simpl. rewrite lookup_insert. case_decide; subst.
  - intros [= <-]. done.
  - apply Hlab.
Qed.

Lemma sp_labels_app (L : list string) (x : string) : x ∈ sp_labels → x ∈ L ++ sp_labels.
Proof. intros Hx. apply elem_of_app. by right. Qed.

Section labels.
Context `{Float64}.

Lemma draw_loop_labelled (L : list string) (ep : Endpoints.t) (label : string)
  (n : nat) (x y stepX stepY : float64) (grid grid' : Grid.t) :
draw_loop ep label n x y stepX stepY grid = Done grid' →
label ∈ L → labelled L grid →
labelled L grid' ∧ Grid.length grid' = Grid.length grid.
Proof.
revert x y grid. induction n as [| n IH]; intros x y grid Hrun Hl Hlab; simpl in Hrun.
{ by injection Hrun as <-. }
apply bind_Done in Hrun as (g1 & Hset & Hrun).
destruct (Grid_set_labelled L _ _ _ _ Hset Hl Hlab) as [Hlab1 Hlen1].
destruct (IH _ _ _ Hrun Hl Hlab1) as [Hlab' Hlen']. split; [done | congruence].
Qed.

Lemma draw_edge_labelled (L : list string) (ep : Endpoints.t) (label : string)
  (start end_ : complex128) (distance distance' : float64) (grid grid' : Grid.t) :
draw_edge ep label start end_ distance grid = Done (distance', grid') →
label ∈ L → "vertex" ∈ L → labelled L grid →
labelled L grid' ∧ Grid.length grid' = Grid.length grid.
Proof.
unfold draw_edge. cbv zeta. intros Hrun Hl Hv Hlab.
apply bind_Done in Hrun as (g1 & Hloop & Hrun).
apply bind_Done in Hrun as (g2 & Hset1 & Hrun).
apply bind_Done in Hrun as (g3 & Hset2 & Hrun).
injection Hrun as _ <-.
destruct (draw_loop_labelled L _ _ _ _ _ _ _ _ _ Hloop Hl Hlab) as [Hlab1 Hlen1].
destruct (Grid_set_labelled L _ _ _ _ Hset1 Hv Hlab1) as [Hlab2 Hlen2].
destruct (Grid_set_labelled L _ _ _ _ Hset2 Hv Hlab2) as [Hlab3 Hlen3].
split; [done | congruence].
Qed.

Lemma draw_edge_length (ep : Endpoints.t) (label : string)
  (start end_ : complex128) (distance distance' : float64) (grid grid' : Grid.t) :
draw_edge ep label start end_ distance grid = Done (distance', grid') →
Grid.length grid' = Grid.length grid.
Proof.
unfold draw_edge. cbv zeta. intros Hrun.
apply bind_Done in Hrun as (g1 & Hloop & Hrun).
apply bind_Done in Hrun as (g2 & Hset1 & Hrun).
apply bind_Done in Hrun as (g3 & Hset2 & Hrun).
injection Hrun as _ <-.
apply draw_loop_length in Hloop.
apply (Grid_set_cell _ _ _ 0) in Hset1 as [Hset1 _].
apply (Grid_set_cell _ _ _ 0) in Hset2 as [Hset2 _]. congruence.
Qed.

Lemma highlight_labelled (L : list string) (ep : Endpoints.t) (label : string)
  (x y : float64) (grid grid' : Grid.t) :
highlight ep label x y grid = Done grid' → label ∈ L → labelled L grid →
labelled L grid' ∧ Grid.length grid' = Grid.length grid.
Proof.
unfold highlight. cbv zeta. intros Hrun Hl Hlab.
apply bind_Done in Hrun as (g1 & Hset1 & Hrun).
apply bind_Done in Hrun as (g2 & Hset2 & Hrun).
apply bind_Done in Hrun as (g3 & Hset3 & Hrun).
apply bind_Done in Hrun as (g4 & Hset4 & Hrun).
destruct (Grid_set_labelled L _ _ _ _ Hset1 Hl Hlab) as [Hlab1 Hlen1].
destruct (Grid_set_labelled L _ _ _ _ Hset2 Hl Hlab1) as [Hlab2 Hlen2].
destruct (Grid_set_labelled L _ _ _ _ Hset3 Hl Hlab2) as [Hlab3 Hlen3].
destruct (Grid_set_labelled L _ _ _ _ Hset4 Hl Hlab3) as [Hlab4 Hlen4].
destruct (Grid_set_labelled L _ _ _ _ Hrun Hl Hlab4) as [Hlab5 Hlen5].
split; [done | congruence].
Qed.

Lemma highlight_length (ep : Endpoints.t) (label : string) (x y : float64)
  (grid grid' : Grid.t) :
highlight ep label x y grid = Done grid' → Grid.length grid' = Grid.length grid.
Proof.
unfold highlight. cbv zeta. intros Hrun.
apply bind_Done in Hrun as (g1 & Hset1 & Hrun).
apply bind_Done in Hrun as (g2 & Hset2 & Hrun).
apply bind_Done in Hrun as (g3 & Hset3 & Hrun).
apply bind_Done in Hrun as (g4 & Hset4 & Hrun).
apply (Grid_set_cell _ _ _ 0) in Hset1 as [Hset1 _], Hset2 as [Hset2 _],
  Hset3 as [Hset3 _], Hset4 as [Hset4 _], Hrun as [Hset5 _].
congruence.
Qed.

Lemma plot_edges_labelled (L : list string) (h : store) (p : PrimMST.t)
  (es : list (option loc)) (distance distance' : float64) (grid grid' : Grid.t) :
PrimMST.plot_edges h p es distance grid = Done (distance', grid') →
"edge" ∈ L → "vertex" ∈ L → labelled L grid →
labelled L grid' ∧ Grid.length grid' = Grid.length grid.
Proof.
revert distance grid. induction es as [| e es IH]; intros distance grid Hrun He Hv Hlab;
  simpl in Hrun.
{ by injection Hrun as _ <-. }
apply bind_Done in Hrun as (ed & _ & Hrun).
apply bind_Done in Hrun as (b & _ & Hrun).
apply bind_Done in Hrun as (c & _ & Hrun).
apply bind_Done in Hrun as ([d1 g1] & Hdraw & Hrun).
destruct (draw_edge_labelled L _ _ _ _ _ _ _ _ Hdraw He Hv Hlab) as [Hlab1 Hlen1].
destruct (IH _ _ Hrun He Hv Hlab1) as [Hlab' Hlen']. split; [done | congruence].
Qed.

(** The grid and the labels of the plot of plotMST. *)
Lemma plotMST_grid (h : store) (p p' : PrimMST.t) (e : option error) :
PrimMST.plotMST h p = Done (e, p') →
∃ pl, PrimMST.plot p' = Some pl ∧
      Grid.length (PlotT.Grid pl) = rows * columns ∧
      labelled mst_labels (PlotT.Grid pl) ∧
      length (PlotT.Xlabel pl) = 11%nat ∧ length (PlotT.Ylabel pl) = 11%nat ∧
      PlotT.Vertices pl = Itoa (len (PrimMST.location p)).
Proof.
unfold PrimMST.plotMST. cbv zeta. intros Hrun.
apply bind_Done in Hrun as (es & _ & Hrun).
apply bind_Done in Hrun as ([distance g1] & Hedges & Hrun).
apply bind_Done in Hrun as (z & _ & Hrun).
apply bind_Done in Hrun as (g2 & Hhigh & Hrun).
injection Hrun as <- <-. simpl.
destruct (plot_edges_labelled mst_labels _ _ _ _ _ _ _ Hedges) as [Hlab1 Hlen1].
{ unfold mst_labels. repeat constructor. }
{ unfold mst_labels. repeat constructor. }
{ intros c x Hc. simpl in Hc. by rewrite lookup_empty in Hc. }
destruct (highlight_labelled mst_labels _ _ _ _ _ _ Hhigh) as [Hlab2 Hlen2].
{ unfold mst_labels. repeat constructor. }
{ done. }
eexists. split; [reflexivity |]. simpl.
split; [by rewrite Hlen2, Hlen1 |]. split; [done |]. done.
Qed.

(** X15. The plot of plotMST.  When plotMST returns, the error is nil, the
  receiver has its matrix, locations and tree as before and a new plot;
  the grid of the plot has rows * columns cells, every cell that was
  written holds "edge", "vertex" or "startvertexMSS", there are 11 labels
  on each axis, and the fields of the shortest path are empty. *)
Theorem plotMST_plot (h : store) (p p' : PrimMST.t) (e : option error) :
PrimMST.plotMST h p = Done (e, p') →
e = None ∧ PrimMST.graph p' = PrimMST.graph p ∧
PrimMST.location p' = PrimMST.location p ∧ PrimMST.mst p' = PrimMST.mst p ∧
∃ pl, PrimMST.plot p' = Some pl ∧
      Grid.length (PlotT.Grid pl) = rows * columns ∧
      labelled mst_labels (PlotT.Grid pl) ∧
      length (PlotT.Xlabel pl) = 11%nat ∧ length (PlotT.Ylabel pl) = 11%nat ∧
      PlotT.Vertices pl = Itoa (len (PrimMST.location p)) ∧
      PlotT.Source pl = "" ∧ PlotT.Target pl = "" ∧ PlotT.DistanceSP pl = "" ∧
      PlotT.Status pl = "".
Proof.
intros Hrun.
destruct (plotMST_grid _ _ _ _ Hrun) as (pl & Hpl & Hlen & Hlab & Hx & Hy & Hv).
unfold PrimMST.plotMST in Hrun. cbv zeta in Hrun.
apply bind_Done in Hrun as (es & _ & Hrun).
apply bind_Done in Hrun as ([distance g1] & _ & Hrun).
apply bind_Done in Hrun as (z & _ & Hrun).
apply bind_Done in Hrun as (g2 & _ & Hrun).
injection Hrun as <- <-. simpl in *. injection Hpl as <-.
split; [done |]. split; [done |]. split; [done |]. split; [done |].
eexists. split; [reflexivity |]. done.
Qed.

(** The walk of plotSP ends on an edge that starts at the source, and it
  writes the labels of a shortest path only. *)
Lemma walk_result (L : list string) (fuel : nat) (dsp : DijksraSP.t) (h h' : store)
  (e fe : option loc) (distance distance' : float64) (grid : option Grid.t)
  (grid' : Grid.t) :
DijksraSP.walk fuel dsp h e distance grid = Done (h', distance', grid', fe) →
"edgeSP" ∈ L → "vertex" ∈ L →
∃ grid0 ed, grid = Some grid0 ∧ deref h' fe = Done ed ∧
            Edge.v ed = DijksraSP.source dsp ∧
            Grid.length grid' = Grid.length grid0 ∧
            (labelled L grid0 → labelled L grid').
Proof.
intros Hrun HeL HvL. revert h e distance grid Hrun.
induction fuel as [| fuel IH]; intros h e distance grid Hrun; simpl in Hrun;
  [discriminate |].
apply bind_Done in Hrun as (ed & Hed & Hrun).
apply bind_Done in Hrun as (start & _ & Hrun).
apply bind_Done in Hrun as (end_ & _ & Hrun).
apply bind_Done in Hrun as (grid0 & Hgrid & Hrun).
destruct grid as [g0 |]; [| discriminate]. injection Hgrid as <-.
apply bind_Done in Hrun as ([d1 g1] & Hdraw & Hrun).
case_decide as Hsrc.
- injection Hrun as <- _ <- <-. exists g0, ed. split; [done |]. split; [done |].
  split; [done |]. split.
  + by eapply draw_edge_length.
  + intros Hlab. by destruct (draw_edge_labelled L _ _ _ _ _ _ _ _ Hdraw HeL HvL Hlab).
- apply bind_Done in Hrun as (e1 & _ & Hrun).
  apply bind_Done in Hrun as (ed1 & _ & Hrun).
  destruct (IH _ _ _ _ Hrun) as (g1' & ed' & [= <-] & Hfe & Hv & Hlen & Hlab').
  exists g0, ed'. split; [done |]. split; [done |]. split; [done |].
  pose proof (draw_edge_length _ _ _ _ _ _ _ _ Hdraw) as Hlen1.
  split; [congruence |]. intros Hlab. apply Hlab'.
  by destruct (draw_edge_labelled L _ _ _ _ _ _ _ _ Hdraw HeL HvL Hlab).
Qed.
End labels.

(** ** The plot of plotSP and the plot that the handler hands on *)

Section plots.
Context `{Float64}.

(** What plotSP leaves when it returns no error. *)
Lemma plotSP_result (fuel : nat) (h h' : store) (dsp dsp' : DijksraSP.t) :
DijksraSP.plotSP fuel h dsp = Done (None, h', dsp') →
∃ pl0 pl, DijksraSP.plot dsp = Some pl0 ∧ dsp' = DijksraSP.set_plot (Some pl) dsp ∧
  PlotT.Source pl = Itoa (DijksraSP.source dsp) ∧
  Grid.length (PlotT.Grid pl) = Grid.length (PlotT.Grid pl0) ∧
  (∀ L, labelled L (PlotT.Grid pl0) → labelled (L ++ sp_labels) (PlotT.Grid pl)) ∧
  PlotT.Status pl = PlotT.Status pl0 ∧ PlotT.Distance pl = PlotT.Distance pl0 ∧
  PlotT.Vertices pl = PlotT.Vertices pl0 ∧
  PlotT.Xlabel pl = PlotT.Xlabel pl0 ∧ PlotT.Ylabel pl = PlotT.Ylabel pl0 ∧
  PlotT.StartLocation pl = PlotT.StartLocation pl0.
Proof.
unfold DijksraSP.plotSP. intros Hrun.
apply bind_Done in Hrun as (guard & Hguard & Hrun).
destruct guard; [discriminate |]. cbv zeta in Hrun.
apply bind_Done in Hrun as (e & _ & Hrun).
apply bind_Done in Hrun as ([[[h1 distance] grid] fe] & Hwalk & Hrun).
apply bind_Done in Hrun as (e' & _ & Hrun).
apply bind_Done in Hrun as (ed & _ & Hrun).
apply bind_Done in Hrun as (z & _ & Hrun).
apply bind_Done in Hrun as (pl0 & Hpl0 & Hrun).
destruct (DijksraSP.plot dsp) as [pl0' |] eqn:Hplot; [| discriminate].
injection Hpl0 as ->.
apply bind_Done in Hrun as (g2 & Hhigh2 & Hrun).
apply bind_Done in Hrun as (fed & Hfed & Hrun).
apply bind_Done in Hrun as (z1 & _ & Hrun).
apply bind_Done in Hrun as (g1 & Hhigh1 & Hrun).
injection Hrun as <- <-.
destruct (walk_result sp_labels _ _ _ _ _ _ _ _ _ _ Hwalk)
  as (grid0 & ed0 & Hgrid0 & Hfe & Hsrc & Hlen0 & _);
  [unfold sp_labels; repeat constructor | unfold sp_labels; repeat constructor |].
simpl in Hgrid0. injection Hgrid0 as <-.
assert (fed = ed0) as -> by congruence.
pose proof (highlight_length _ _ _ _ _ _ Hhigh2) as Hlen2.
pose proof (highlight_length _ _ _ _ _ _ Hhigh1) as Hlen1.
eexists pl0, _. split; [done |]. split; [reflexivity |]. simpl.
split; [by rewrite Hsrc |]. split; [congruence |].
split; [| done].
intros L Hlab.
destruct (walk_result (L ++ sp_labels) _ _ _ _ _ _ _ _ _ _ Hwalk)
  as (grid0 & ed1 & Hgrid0 & _ & _ & _ & Hlab0);
  [apply sp_labels_app; unfold sp_labels; repeat constructor .. |].
simpl in Hgrid0. injection Hgrid0 as <-.
assert (labelled (L ++ sp_labels) grid) as Hlabw.
{ apply Hlab0. eapply labelled_mono; [| exact Hlab].
  intros x Hx. apply elem_of_app. by left. }
destruct (highlight_labelled (L ++ sp_labels) _ _ _ _ _ _ Hhigh2) as [Hlab2 _];
  [apply sp_labels_app; unfold sp_labels; repeat constructor | done |].
destruct (highlight_labelled (L ++ sp_labels) _ _ _ _ _ _ Hhigh1) as [Hlab1 _];
  [apply sp_labels_app; unfold sp_labels; repeat constructor | done |].
exact Hlab1.
Qed.

(** X16. The plot of a shortest path.  When plotSP returns no error, the
  guard on the distance of the target did not hold; the receiver changes
  in its plot only; the field Source of the plot is the source of the
  query, the vertex at which the walk from the target ended; the grid
  has the length it had, and every cell that holds a label holds one the
  grid had before or "edgeSP", "vertex", "vertexSP2" or "vertexSP1"; the
  fields that plotMST filled are as they were. *)
Theorem plotSP_plot (fuel : nat) (h h' : store) (dsp dsp' : DijksraSP.t) :
DijksraSP.plotSP fuel h dsp = Done (None, h', dsp') →
¬ target_not_found dsp ∧
∃ pl0 pl, DijksraSP.plot dsp = Some pl0 ∧ dsp' = DijksraSP.set_plot (Some pl) dsp ∧
  PlotT.Source pl = Itoa (DijksraSP.source dsp) ∧
  Grid.length (PlotT.Grid pl) = Grid.length (PlotT.Grid pl0) ∧
  (∀ L, labelled L (PlotT.Grid pl0) → labelled (L ++ sp_labels) (PlotT.Grid pl)) ∧
  PlotT.Status pl = PlotT.Status pl0 ∧ PlotT.Distance pl = PlotT.Distance pl0 ∧
  PlotT.Vertices pl = PlotT.Vertices pl0 ∧
  PlotT.Xlabel pl = PlotT.Xlabel pl0 ∧ PlotT.Ylabel pl = PlotT.Ylabel pl0 ∧
  PlotT.StartLocation pl = PlotT.StartLocation pl0.
Proof.
intros Hrun. split; [| by apply (plotSP_result fuel h h')].
intros Hguard. by rewrite (plotSP_guard fuel h dsp Hguard) in Hrun.
Qed.

(** The calls of the handler, when it returns. *)
Lemma handleDijkstraSP_Done (fuel : nat) (location : list complex128)
  (ep : Endpoints.t) (r : Request.t) (pl : PlotT.t) :
handleDijkstraSP fuel location ep r = Done pl →
∃ h0 p0 popped e1 h1 d1 p1 e3 h2 d2 pl2,
  PrimMST.findMST fuel [] (primmst_of location ep) = Done (None, h0, p0, popped) ∧
  DijksraSP.findSP fuel h0 (dijkstrasp_of p0) r = Done (e1, h1, d1) ∧
  PrimMST.plotMST h1 p0 = Done (None, p1) ∧
  DijksraSP.plotSP fuel h1 (DijksraSP.set_plot (PrimMST.plot p1) d1)
  = Done (e3, h2, d2) ∧
  DijksraSP.plot d2 = Some pl2 ∧
  pl = PlotT.set_Status
         (if decide (len (record_error (record_error [] e1) e3) > 0)
          then Join (record_error (record_error [] e1) e3)
          else "Enter Source and Target Vertices (0-V-1) for another SP") pl2.
Proof.
unfold handleDijkstraSP, primmst_of, dijkstrasp_of, PrimMST.findDistances.
cbv beta iota zeta. cbn [snd]. intros Hrun.
apply bind_Done in Hrun as ([[[e0 h0] p0] popped] & Hmst & Hrun).
apply bind_Done in Hrun as ([[e1 h1] d1] & Hsp & Hrun).
apply bind_Done in Hrun as ([e2 p1] & Hplot & Hrun).
apply bind_Done in Hrun as ([[e3 h2] d2] & HplotSP & Hrun).
apply bind_Done in Hrun as (pl2 & Hpl2 & Hrun).
destruct (DijksraSP.plot d2) as [pl2' |] eqn:Hd2; [| discriminate].
injection Hpl2 as ->. injection Hrun as <-.
pose proof (findMST_Done _ _ _ _ _ _ _ Hmst) as (-> & _).
pose proof (plotMST_Done _ _ _ _ Hplot) as (-> & _).
exists h0, p0, popped, e1, h1, d1, p1, e3, h2, d2, pl2. done.
Qed.

(** X17. The grid that the handler hands to the template.  Whenever the
  handler returns, the grid has rows * columns cells and every cell that
  was written holds one of the six labels that the template styles:
  "edge", "vertex", "startvertexMSS", "edgeSP", "vertexSP2" or
  "vertexSP1"; there are 11 labels on each axis, and the number of
  vertices shown is the number of locations. *)
Theorem handler_grid (fuel : nat) (location : list complex128)
  (ep : Endpoints.t) (r : Request.t) (pl : PlotT.t) :
handleDijkstraSP fuel location ep r = Done pl →
Grid.length (PlotT.Grid pl) = rows * columns ∧
labelled (mst_labels ++ sp_labels) (PlotT.Grid pl) ∧
length (PlotT.Xlabel pl) = 11%nat ∧ length (PlotT.Ylabel pl) = 11%nat ∧
PlotT.Vertices pl = Itoa (len location).
Proof.
intros Hrun.
apply handleDijkstraSP_Done in Hrun
  as (h0 & p0 & popped & e1 & h1 & d1 & p1 & e3 & h2 & d2 & pl2 &
      Hmst & Hsp & Hplot & HplotSP & Hd2 & ->).
pose proof (findMST_Done _ _ _ _ _ _ _ Hmst) as (_ & _ & Hloc & _).
destruct (plotMST_grid _ _ _ _ Hplot)
  as (pl1 & Hpl1 & Hlen1 & Hlab1 & Hx1 & Hy1 & Hv1).
rewrite Hloc in Hv1. simpl in Hv1.
destruct e3 as [err |].
- (* plotSP returned an error: the plot is the one of plotMST *)
  assert (d2 = DijksraSP.set_plot (PrimMST.plot p1) d1) as ->.
  { unfold DijksraSP.plotSP in HplotSP.
    apply bind_Done in HplotSP as (guard & _ & HplotSP).
    destruct guard; [by injection HplotSP as _ _ <- |].
    cbv zeta in HplotSP.
    apply bind_Done in HplotSP as (e & _ & HplotSP).
    apply bind_Done in HplotSP as ([[[h1' distance] grid] fe] & _ & HplotSP).
    apply bind_Done in HplotSP as (e' & _ & HplotSP).
    apply bind_Done in HplotSP as (ed & _ & HplotSP).
    apply bind_Done in HplotSP as (z & _ & HplotSP).
    apply bind_Done in HplotSP as (pl0 & _ & HplotSP).
    apply bind_Done in HplotSP as (g2 & _ & HplotSP).
    apply bind_Done in HplotSP as (fed & _ & HplotSP).
    apply bind_Done in HplotSP as (z1 & _ & HplotSP).
    apply bind_Done in HplotSP as (g1 & _ & HplotSP). discriminate. }
  assert (labelled (mst_labels ++ sp_labels) (PlotT.Grid pl1)) as Hlab1'.
  { eapply labelled_mono; [| exact Hlab1]. intros x Hx. apply elem_of_app. by left. }
  simpl in Hd2. rewrite Hpl1 in Hd2. injection Hd2 as <-. simpl.
  split; [done |]. split; [exact Hlab1' | done].
- destruct (plotSP_result _ _ _ _ _ HplotSP)
    as (pl0 & pl3 & Hpl0 & -> & _ & Hlen3 & Hlab3 & _ & _ & Hv3 & Hx3 & Hy3 & _).
  simpl in Hpl0. rewrite Hpl1 in Hpl0. injection Hpl0 as <-.
  simpl in Hd2. injection Hd2 as <-. simpl.
  split; [congruence |]. split; [exact (Hlab3 mst_labels Hlab1) |].
  split; [congruence |]. split; [congruence |]. congruence.
Qed.

(** X18. A query that succeeds.  When findSP and plotSP both return no
  error, the handler returns the plot of plotSP with the status "Enter
  Source and Target Vertices (0-V-1) for another SP", and its field
  Source shows the source vertex that was asked for. *)
Theorem query_success_is_reported (fuel : nat) (location : list complex128)
  (ep : Endpoints.t) (r : Request.t) (e0 e2 : option error)
  (h0 h1 h2 : store) (p0 p1 : PrimMST.t) (popped : list Z) (d1 d2 : DijksraSP.t) :
PrimMST.findMST fuel [] (primmst_of location ep) = Done (e0, h0, p0, popped) →
DijksraSP.findSP fuel h0 (dijkstrasp_of p0) r = Done (None, h1, d1) →
PrimMST.plotMST h1 p0 = Done (e2, p1) →
DijksraSP.plotSP fuel h1 (DijksraSP.set_plot (PrimMST.plot p1) d1)
= Done (None, h2, d2) →
∃ pl, handleDijkstraSP fuel location ep r = Done pl ∧
      PlotT.Status pl = "Enter Source and Target Vertices (0-V-1) for another SP" ∧
      PlotT.Source pl = Itoa (Atoi (Request.sourcevert r)).1 ∧
      Some (PlotT.Grid pl) = PlotT.Grid <$> DijksraSP.plot d2.
Proof.
intros Hmst Hsp Hplot HplotSP.
pose proof (findMST_Done _ _ _ _ _ _ _ Hmst) as (-> & _).
pose proof (plotMST_Done _ _ _ _ Hplot) as (-> & _).
destruct (plotSP_result _ _ _ _ _ HplotSP)
  as (pl0 & pl3 & Hpl0 & Hd2 & Hsrc & _).
assert (DijksraSP.source d1 = (Atoi (Request.sourcevert r)).1) as Hsource.
{ apply findSP_Done in Hsp as [(err & [=] & _) | [_ Hsp]].
  by apply findSP_search_Done in Hsp as (_ & _ & -> & _). }
simpl in Hsrc. rewrite Hsource in Hsrc.
unfold handleDijkstraSP, primmst_of, dijkstrasp_of, PrimMST.findDistances in *.
cbv beta iota zeta in *. cbn [snd] in Hmst.
rewrite Hmst. cbn [mbind outcome_bind]. rewrite Hsp. cbn [mbind outcome_bind].
rewrite Hplot. cbn [mbind outcome_bind]. rewrite HplotSP. cbn [mbind outcome_bind].
rewrite Hd2. cbn [DijksraSP.plot DijksraSP.set_plot mbind outcome_bind].
eexists. split; [reflexivity |]. simpl. done.
Qed.
End plots.

(** ** The plots of the runs on two and on four vertices *)

Lemma plotMST_plot_witness :
  @None error = None ∧ PrimMST.graph pair_mid_plotted = PrimMST.graph pair_mid_prim ∧
  PrimMST.location pair_mid_plotted = PrimMST.location pair_mid_prim ∧
  PrimMST.mst pair_mid_plotted = PrimMST.mst pair_mid_prim ∧
  ∃ pl, PrimMST.plot pair_mid_plotted = Some pl ∧
        Grid.length (PlotT.Grid pl) = rows * columns ∧
        labelled mst_labels (PlotT.Grid pl) ∧
        length (PlotT.Xlabel pl) = 11%nat ∧ length (PlotT.Ylabel pl) = 11%nat ∧
        PlotT.Vertices pl = Itoa (len (PrimMST.location pair_mid_prim)) ∧
        PlotT.Source pl = "" ∧ PlotT.Target pl = "" ∧ PlotT.DistanceSP pl = "" ∧
        PlotT.Status pl = "".
Proof.
  apply (plotMST_plot (H := Q_float64) pair_mid_store pair_mid_prim pair_mid_plotted None).
  vm_compute. reflexivity.
Defined.

Lemma row4_32_plotSP_run :
  DijksraSP.plotSP (H := Q_float64) 20 row4_32_store
    (DijksraSP.set_plot (PrimMST.plot row4_32_prim) row4_32_dsp)
  = Done (None, row4_32_final.1, row4_32_final.2).
Proof. vm_compute. reflexivity. Qed.

Lemma plotSP_plot_witness :
  ¬ target_not_found (H := Q_float64)
      (DijksraSP.set_plot (PrimMST.plot row4_32_prim) row4_32_dsp) ∧
  ∃ pl0 pl,
    DijksraSP.plot (DijksraSP.set_plot (PrimMST.plot row4_32_prim) row4_32_dsp) = Some pl0 ∧
    row4_32_final.2
    = DijksraSP.set_plot (Some pl) (DijksraSP.set_plot (PrimMST.plot row4_32_prim) row4_32_dsp) ∧
    PlotT.Source pl
    = Itoa (DijksraSP.source (DijksraSP.set_plot (PrimMST.plot row4_32_prim) row4_32_dsp)) ∧
    Grid.length (PlotT.Grid pl) = Grid.length (PlotT.Grid pl0) ∧
    (∀ L, labelled L (PlotT.Grid pl0) → labelled (L ++ sp_labels) (PlotT.Grid pl)) ∧
    PlotT.Status pl = PlotT.Status pl0 ∧ PlotT.Distance pl = PlotT.Distance pl0 ∧
    PlotT.Vertices pl = PlotT.Vertices pl0 ∧
    PlotT.Xlabel pl = PlotT.Xlabel pl0 ∧ PlotT.Ylabel pl = PlotT.Ylabel pl0 ∧
    PlotT.StartLocation pl = PlotT.StartLocation pl0.
Proof.
  apply (plotSP_plot (H := Q_float64) 20 row4_32_store row4_32_final.1
           (DijksraSP.set_plot (PrimMST.plot row4_32_prim) row4_32_dsp) row4_32_final.2
           row4_32_plotSP_run).
Defined.

Lemma handler_grid_witness :
  Grid.length (PlotT.Grid row4_32_plot) = rows * columns ∧
  labelled (mst_labels ++ sp_labels) (PlotT.Grid row4_32_plot) ∧
  length (PlotT.Xlabel row4_32_plot) = 11%nat ∧
  length (PlotT.Ylabel row4_32_plot) = 11%nat ∧
  PlotT.Vertices row4_32_plot = Itoa (len row4).
Proof.
  apply (handler_grid (H := Q_float64) 20 row4 bounds299 row4_32 row4_32_plot).
  vm_compute. reflexivity.
Defined.

Lemma row4_32_plotMST_run :
  PrimMST.plotMST (H := Q_float64) row4_32_store row4_prim = Done (None, row4_32_prim).
Proof. vm_compute. reflexivity. Qed.

Lemma query_success_is_reported_witness :
  ∃ pl, handleDijkstraSP (H := Q_float64) 20 row4 bounds299 row4_32 = Done pl ∧
        PlotT.Status pl = "Enter Source and Target Vertices (0-V-1) for another SP" ∧
        PlotT.Source pl = Itoa (Atoi (Request.sourcevert row4_32)).1 ∧
        Some (PlotT.Grid pl) = PlotT.Grid <$> DijksraSP.plot row4_32_final.2.
Proof.
  apply (query_success_is_reported (H := Q_float64) 20 row4 bounds299 row4_32 None None
           row4_store row4_32_store row4_32_final.1 row4_prim row4_32_prim
           [0; 2; 3; 1] row4_32_dsp row4_32_final.2
           row4_run row4_32_run row4_32_plotMST_run row4_32_plotSP_run).
Defined.

(** ** The order of the heap *)

Lemma parent_spec (j : Z) :
  0 < j → 0 ≤ (j - 1) `quot` 2 < j ∧
          (j = 2 * ((j - 1) `quot` 2) + 1 ∨ j = 2 * ((j - 1) `quot` 2) + 2).
Proof.
  intros Hj. rewrite Z.quot_div_nonneg by lia.
  pose proof (Z.div_mod (j - 1) 2 ltac:(lia)) as Hdm.
  pose proof (Z.mod_pos_bound (j - 1) 2 ltac:(lia)) as Hm.
  lia.
Qed.

Section heap_order.
Context `{Float64}.
Variable ok : float64 → Prop.
Hypothesis Hstrict : lt_strict.
Hypothesis Hneg :
∀ x y z, ok y → f_lt x y = false → f_lt y z = false → f_lt x z = false.
Implicit Types pq : PriorityQueue.

Lemma lt_asym (a b : float64) : f_lt a b = true → f_lt b a = false.
Proof.
destruct Hstrict as [Hirr Htrans]. intros Hab.
destruct (f_lt b a) eqn:Hba; [| done].
by rewrite <- (Hirr a), (Htrans a b a).
Qed.

Lemma lt_mixed (a b c : float64) :
f_lt a b = true → f_lt c b = false → f_lt c a = false.
Proof.
destruct Hstrict as [Hirr Htrans]. intros Hab Hcb.
destruct (f_lt c a) eqn:Hca; [| done].
by rewrite <- Hcb, (Htrans c a b).
Qed.

Lemma Less_Done pq (i j : Z) (b : bool) :
heap.Less pq i j = Done b →
∃ x y, dist_at pq i = Some x ∧ dist_at pq j = Some y ∧ b = f_lt x y.
Proof.
intros Hl. change (heap.Less pq i j) with (PriorityQueue.Less pq i j) in Hl.
unfold PriorityQueue.Less in Hl. unfold dist_at.
destruct (pq !! i) as [a |]; [| done]. destruct (pq !! j) as [c |]; [| done].
injection Hl as <-. simpl. eauto.
Qed.

(** Swap exchanges the distances under the two keys. *)
Lemma Swap_dist pq pq' (i j k : Z) :
heap.Swap pq i j = Done pq' →
dist_at pq' k = if decide (k = j) then dist_at pq i
                else if decide (k = i) then dist_at pq j else dist_at pq k.
Proof.
intros Hs. change (heap.Swap pq i j) with (PriorityQueue.Swap pq i j) in Hs.
unfold PriorityQueue.Swap in Hs. unfold dist_at.
destruct (pq !! i) as [a |] eqn:Ha; [| done].
destruct (pq !! j) as [b |] eqn:Hb; [| done].
injection Hs as <-. rewrite !lookup_insert.
repeat case_decide; subst; simpl; try done; congruence.
Qed.

Lemma Swap_lookup pq pq' (i j k : Z) :
heap.Swap pq i j = Done pq' → k ≠ i → k ≠ j → pq' !! k = pq !! k.
Proof.
intros Hs Hi Hj. change (heap.Swap pq i j) with (PriorityQueue.Swap pq i j) in Hs.
unfold PriorityQueue.Swap in Hs.
destruct (pq !! i) as [a |]; [| done]. destruct (pq !! j) as [b |]; [| done].
injection Hs as <-. by rewrite !lookup_insert_ne.
Qed.

(** The items after a heap function were in the queue before it. *)
Lemma Swap_holds pq pq' (i j k : Z) (it : Item.t) :
heap.Swap pq i j = Done pq' → pq' !! k = Some it → holds pq it.
Proof.
intros Hs. change (heap.Swap pq i j) with (PriorityQueue.Swap pq i j) in Hs.
unfold PriorityQueue.Swap in Hs.
destruct (pq !! i) as [a |] eqn:Ha; [| done].
destruct (pq !! j) as [b |] eqn:Hb; [| done].
injection Hs as <-. rewrite !lookup_insert.
repeat case_decide; subst.
- intros [= <-]. by exists i, a.
- intros [= <-]. by exists j, b.
- intros Hk. by exists k, it.
Qed.

Lemma holds_trans pq pq' (it : Item.t) :
(∀ k it', pq' !! k = Some it' → holds pq it') → holds pq' it → holds pq it.
Proof.
intros Hall (k & it' & Hk & He & Hd).
destruct (Hall k it' Hk) as (k0 & it0 & Hk0 & He0 & Hd0).
exists k0, it0. split; [done |]. split; congruence.
Qed.

Lemma down_loop_holds (fuel : nat) pq pq' (i0 i n k : Z) (b : bool) (it : Item.t) :
heap.down_loop fuel pq i0 i n = Done (pq', b) → pq' !! k = Some it → holds pq it.
Proof.
revert pq i. induction fuel as [| fuel IH]; intros pq i Hrun Hk; [done |].
simpl in Hrun. case_decide; [injection Hrun as <- _; by exists k, it |].
apply bind_Done in Hrun as (right & _ & Hrun).
apply bind_Done in Hrun as (lt & _ & Hrun).
destruct lt; simpl in Hrun; [| injection Hrun as <- _; by exists k, it].
apply bind_Done in Hrun as (pq1 & Hswap & Hrun).
eapply holds_trans; [| by eapply IH].
intros k' it'. apply (Swap_holds _ _ _ _ _ _ Hswap).
Qed.

Lemma up_loop_holds (fuel : nat) pq pq' (j k : Z) (it : Item.t) :
heap.up_loop fuel pq j = Done pq' → pq' !! k = Some it → holds pq it.
Proof.
revert pq j. induction fuel as [| fuel IH]; intros pq j Hrun Hk; [done |].
simpl in Hrun. case_decide; [injection Hrun as <-; by exists k, it |].
apply bind_Done in Hrun as (lt & _ & Hrun).
destruct lt; simpl in Hrun; [| injection Hrun as <-; by exists k, it].
apply bind_Done in Hrun as (pq1 & Hswap & Hrun).
eapply holds_trans; [| by eapply IH].
intros k' it'. apply (Swap_holds _ _ _ _ _ _ Hswap).
Qed.

(** The distances of a queue whose items were in [pq]. *)
Lemma from_ok pq pq' :
(∀ k it, pq' !! k = Some it → holds pq it) →
distances_in ok pq → distances_in ok pq'.
Proof.
intros Hfrom Hok k it Hk. destruct (Hfrom k it Hk) as (k0 & it0 & Hk0 & _ & <-).
by apply (Hok k0).
Qed.

Lemma Swap_ok pq pq' (i j : Z) :
heap.Swap pq i j = Done pq' → distances_in ok pq → distances_in ok pq'.
Proof. intros Hs. apply from_ok. intros k it. apply (Swap_holds _ _ _ _ _ _ Hs). Qed.

Lemma dist_at_ok pq (i : Z) (x : float64) :
distances_in ok pq → dist_at pq i = Some x → ok x.
Proof.
unfold dist_at. intros Hok Hx. destruct (pq !! i) as [it |] eqn:Hit; [| done].
injection Hx as <-. by apply (Hok i).
Qed.

Lemma insert_ok pq (k : Z) (x : Item.t) :
distances_in ok pq → ok (Item.distance x) → distances_in ok (<[k := x]> pq).
Proof.
intros Hok Hx k' it. rewrite lookup_insert. case_decide.
- by intros [= <-].
- apply Hok.
Qed.

(** [heap.Push] and the method update keep the distances in [ok]. *)
Lemma push_ok pq pq' (x : Item.t) :
heap.push pq x = Done pq' → distances_in ok pq → ok (Item.distance x) →
distances_in ok pq'.
Proof.
intros Hrun Hok Hx. unfold heap.push in Hrun.
apply bind_Done in Hrun as (pq1 & Hpush & Hrun).
change (heap.Push pq x) with (PriorityQueue.Push pq x) in Hpush.
unfold PriorityQueue.Push in Hpush. injection Hpush as <-.
apply (from_ok (<[PriorityQueue.Len pq := Item.with_index x (PriorityQueue.Len pq)]> pq)).
- intros k it. apply (up_loop_holds _ _ _ _ _ _ Hrun).
- by apply insert_ok.
Qed.

Lemma update_ok pq pq' (k : Z) (d : float64) :
PriorityQueue.update pq k d = Done pq' → distances_in ok pq → ok d →
distances_in ok pq'.
Proof.
intros Hrun Hok Hd. unfold PriorityQueue.update in Hrun.
destruct (pq !! k) as [item |] eqn:Hitem; [| done].
unfold heap.Fix in Hrun.
apply bind_Done in Hrun as ([q1 moved] & Hdown & Hrun).
assert (distances_in ok q1) as Hok1.
{ apply (from_ok (<[k := Item.with_distance item d]> pq)).
  - intros k' it. apply (down_loop_holds _ _ _ _ _ _ _ _ _ Hdown).
  - by apply insert_ok. }
destruct moved; simpl in Hrun; [by injection Hrun as <- |].
apply (from_ok q1); [| exact Hok1].
intros k' it. apply (up_loop_holds _ _ _ _ _ _ Hrun).
Qed.

(** [up] restores the order when the only item that can be less than its
  parent is the one under [j], and the children of [j] are not less than
  the parent of [j]. *)
Lemma up_loop_order (fuel : nat) pq pq' (j m : Z) :
heap.up_loop fuel pq j = Done pq' → 0 ≤ j < m → distances_in ok pq →
(∀ i c, 0 ≤ i → child i c → c < m → c ≠ j → ord (dist_at pq) i c) →
(∀ p c, 0 ≤ p → child p j → child j c → c < m → ord (dist_at pq) p c) →
heap_ordered_below m pq'.
Proof.
revert pq j. induction fuel as [| fuel IH]; intros pq j Hrun Hj Hok HU1 HU2; [done |].
simpl in Hrun. case_decide as Hpar.
{ injection Hrun as <-. intros i c Hi Hc Hcm. apply HU1; try done.
  intros ->. destruct (decide (0 < j)) as [Hpos |].
  - destruct (parent_spec j Hpos). lia.
  - unfold child in Hc. lia. }
assert (0 < j) as Hpos.
{ destruct (decide (j = 0)) as [-> |]; [done | lia]. }
destruct (parent_spec j Hpos) as [Hrange Hchild].
set (i := (j - 1) `quot` 2) in *.
apply bind_Done in Hrun as (lt & Hless & Hrun).
apply Less_Done in Hless as (x & y & Hx & Hy & ->).
destruct (f_lt x y) eqn:Hlt; simpl in Hrun.
2: { injection Hrun as <-. intros i' c Hi' Hc Hcm.
     destruct (decide (c = j)) as [-> | Hne]; [| by apply HU1].
     assert (i' = i) as -> by (unfold child in *; lia).
     intros a b Ha Hb. congruence. }
apply bind_Done in Hrun as (pq1 & Hswap & Hrun).
apply (IH pq1 i Hrun); [lia | by eapply Swap_ok | |].
- intros i' c Hi' Hc Hcm Hci a b.
  rewrite !(Swap_dist _ _ _ _ _ Hswap).
  destruct (decide (c = j)) as [-> | Hcj].
  + assert (i' = i) as -> by (unfold child in *; lia).
    rewrite decide_False by lia. rewrite decide_True by done.
    intros Ha Hb. assert (a = y) as -> by congruence.
    assert (b = x) as -> by congruence. by apply lt_asym.
  + rewrite decide_False by done.
    destruct (decide (i' = j)) as [-> | Hij].
    * intros Ha Hb. apply (HU2 i c); try done; try lia.
    * destruct (decide (i' = i)) as [-> | Hii].
      -- intros Ha Hb. assert (b = x) as -> by congruence.
         apply (lt_mixed x y a Hlt). by apply (HU1 i c).
      -- intros Ha Hb. by apply (HU1 i' c).
- intros p c Hp Hpi Hic Hcm a b.
  rewrite !(Swap_dist _ _ _ _ _ Hswap).
  assert (p ≠ j ∧ p ≠ i) as [Hpj Hpi'] by (unfold child in *; lia).
  rewrite (decide_False (P := p = j)) by done.
  rewrite (decide_False (P := p = i)) by done.
  destruct (decide (c = j)) as [-> | Hcj].
  + intros Ha Hb. apply (HU1 p i); try done; try lia.
  + rewrite decide_False by (unfold child in *; lia).
    intros Ha Hb.
    apply (Hneg a y b).
    * by apply (dist_at_ok pq i).
    * apply (HU1 i c); try done; lia.
    * apply (HU1 p i); try done; lia.
Qed.

(** [down] restores the order when the item under [i] is the only one that
  can be greater than its children, and those are not less than the
  parent of [i]: either nothing moves and the children of [i] are not
  less than it, or the item moves down and the order holds everywhere. *)
Lemma down_loop_order (fuel : nat) pq pq' (i0 i n : Z) (b : bool) :
heap.down_loop fuel pq i0 i n = Done (pq', b) → 0 ≤ i0 ≤ i → distances_in ok pq →
(∀ i' c, 0 ≤ i' → child i' c → c < n → i' ≠ i → c ≠ i → ord (dist_at pq) i' c) →
(∀ p c, 0 ≤ p → child p i → child i c → c < n → ord (dist_at pq) p c) →
(pq' = pq ∧ b = bool_decide (i > i0) ∧
 ∀ c, child i c → c < n → ord (dist_at pq) i c) ∨
(b = true ∧ heap_ordered_below n pq').
Proof.
revert pq i. induction fuel as [| fuel IH]; intros pq i Hrun Hi Hok HE HG; [done |].
simpl in Hrun. case_decide as Hj1.
{ injection Hrun as <- <-. left. split; [done |]. split; [done |].
  intros c Hc Hcn. unfold child in Hc. lia. }
apply bind_Done in Hrun as (right & Hright & Hrun).
set (j := if right then 2 * i + 1 + 1 else 2 * i + 1) in *.
apply bind_Done in Hrun as (lt & Hless & Hrun).
apply Less_Done in Hless as (x & y & Hx & Hy & ->).
assert (i < j < n ∧ child i j) as [Hjn Hij].
{ subst j. unfold child. destruct right; [| lia].
  case_decide; [lia | discriminate]. }
assert (∀ s a, child i s → s < n → s ≠ j → dist_at pq s = Some a → f_lt a x = false)
  as Hsib.
{ intros s a Hs Hsn Hsj Ha. subst j. destruct right.
  - assert (s = 2 * i + 1) as -> by (unfold child in Hs; lia).
    case_decide; [| discriminate].
    apply Less_Done in Hright as (x2 & x1 & Hx2 & Hx1 & Hlt21).
    assert (x2 = x) as -> by congruence. assert (x1 = a) as -> by congruence.
    by apply lt_asym.
  - assert (s = 2 * i + 1 + 1) as -> by (unfold child in Hs; lia).
    rewrite decide_True in Hright by lia.
    apply Less_Done in Hright as (x2 & x1 & Hx2 & Hx1 & Hlt21).
    assert (x2 = a) as -> by congruence. assert (x1 = x) as -> by congruence.
    done. }
destruct (f_lt x y) eqn:Hlt; simpl in Hrun.
2: { injection Hrun as <- <-. left. split; [done |]. split; [done |].
     intros c Hc Hcn a b' Ha Hb. assert (b' = y) as -> by congruence.
     destruct (decide (c = j)) as [-> | Hcj]; [congruence |].
     apply (Hneg a x y); [by apply (dist_at_ok pq j) | by apply (Hsib c) | done]. }
apply bind_Done in Hrun as (pq1 & Hswap & Hrun).
assert (∀ i' c, 0 ≤ i' → child i' c → c < n → i' ≠ j → c ≠ j →
                ord (dist_at pq1) i' c) as HE1.
{ intros i' c Hi' Hc Hcn Hi'j Hcj a b'.
  rewrite !(Swap_dist _ _ _ _ _ Hswap).
  rewrite (decide_False (P := c = j)) by done.
  rewrite (decide_False (P := i' = j)) by done.
  destruct (decide (i' = i)) as [-> | Hi'i].
  - rewrite decide_False by (unfold child in *; lia).
    intros Ha Hb. assert (b' = x) as -> by congruence. by apply (Hsib c).
  - destruct (decide (c = i)) as [-> | Hci].
    + intros Ha Hb. apply (HG i' j); try done; lia.
    + intros Ha Hb. by apply (HE i' c). }
assert (ord (dist_at pq1) i j) as Hij1.
{ intros a b'. rewrite !(Swap_dist _ _ _ _ _ Hswap).
  rewrite decide_True by done. rewrite decide_False by lia.
  rewrite decide_True by done. intros Ha Hb.
  assert (a = y) as -> by congruence. assert (b' = x) as -> by congruence.
  by apply lt_asym. }
destruct (IH pq1 j Hrun) as [(-> & -> & Hkids) | [-> Hord]];
  [lia | by eapply Swap_ok | done | | |].
- intros p c Hp Hpj Hjc Hcn a b'.
  assert (p = i) as -> by (unfold child in *; lia).
  rewrite !(Swap_dist _ _ _ _ _ Hswap).
  rewrite (decide_False (P := c = j)) by (unfold child in *; lia).
  rewrite (decide_False (P := c = i)) by (unfold child in *; lia).
  rewrite (decide_False (P := i = j)) by lia. rewrite decide_True by done.
  intros Ha Hb. apply (HE j c); try done; try lia.
  unfold child in *; lia.
- right. split; [apply bool_decide_eq_true; lia |].
  intros i' c Hi' Hc Hcn.
  destruct (decide (i' = j)) as [-> | Hi'j]; [by apply Hkids |].
  destruct (decide (c = j)) as [-> | Hcj]; [| by apply HE1].
  by assert (i' = i) as -> by (unfold child in *; lia).
- right. done.
Qed.

(** [down] on the keys below [n] leaves the other keys alone. *)
Lemma down_loop_frame (fuel : nat) pq pq' (i0 i n k : Z) (b : bool) :
heap.down_loop fuel pq i0 i n = Done (pq', b) → 0 ≤ i < n → n ≤ k →
pq' !! k = pq !! k.
Proof.
revert pq i. induction fuel as [| fuel IH]; intros pq i Hrun Hi Hk; [done |].
simpl in Hrun. case_decide as Hj1; [by injection Hrun as <- _ |].
apply bind_Done in Hrun as (right & Hright & Hrun).
set (j := if right then 2 * i + 1 + 1 else 2 * i + 1) in *.
apply bind_Done in Hrun as (lt & _ & Hrun).
assert (i < j < n) as Hjn.
{ subst j. destruct right; [| lia]. case_decide; [lia | discriminate]. }
destruct lt; simpl in Hrun; [| by injection Hrun as <- _].
apply bind_Done in Hrun as (pq1 & Hswap & Hrun).
rewrite (IH pq1 j Hrun) by lia. apply (Swap_lookup _ _ _ _ _ Hswap); lia.
Qed.

(** In a queue in heap order the item under key 0 is least. *)
Lemma root_least (P : Z → Prop) pq (r : Item.t) :
pq_items P pq → distances_in ok pq → heap_ordered pq → pq !! 0 = Some r →
least r pq.
Proof.
intros [Hdom Hit] Hok Hord Hr.
assert (∀ m : nat, ∀ k it, 0 ≤ k < Z.of_nat m → pq !! k = Some it →
          f_lt (Item.distance it) (Item.distance r) = false) as Hind.
{ induction m as [| m IH]; intros k it Hk Hkit; [lia |].
  destruct (decide (k = 0)) as [-> | Hk0].
  - assert (it = r) as -> by congruence. apply (proj1 Hstrict).
  - destruct (parent_spec k ltac:(lia)) as [Hp Hc].
    set (p := (k - 1) `quot` 2) in *.
    assert (0 ≤ k < PriorityQueue.Len pq) as Hkr by (apply Hdom; eauto).
    destruct (proj2 (Hdom p)) as [itp Hitp]; [lia |].
    apply (Hneg _ (Item.distance itp)).
    + by apply (Hok p).
    + apply (Hord p k); [lia | done | lia | |]; unfold dist_at.
      * by rewrite Hkit.
      * by rewrite Hitp.
    + apply (IH p itp); [lia | done]. }
intros k it Hk.
assert (0 ≤ k < PriorityQueue.Len pq) as Hkr by (apply Hdom; eauto).
apply (Hind (Z.to_nat (PriorityQueue.Len pq)) k it); [lia | done].
Qed.

(** [heap.Push] keeps the heap order. *)
Lemma push_order (P : Z → Prop) pq pq' (x : Item.t) :
pq_items P pq → P (Item.w x) → distances_in ok pq → ok (Item.distance x) →
heap_ordered pq → heap.push pq x = Done pq' →
heap_ordered pq'.
Proof.
intros Hwf Hx Hok Hokx Hord Hrun.
destruct (push_wf P pq x Hwf Hx) as (pq'' & Hrun' & _ & Hlen).
rewrite Hrun in Hrun'. injection Hrun' as <-.
unfold heap_ordered. rewrite Hlen. unfold heap.push in Hrun.
apply bind_Done in Hrun as (pq1 & Hpush & Hrun).
change (heap.Push pq x) with (PriorityQueue.Push pq x) in Hpush.
unfold PriorityQueue.Push in Hpush. injection Hpush as <-.
assert (pq !! PriorityQueue.Len pq = None) as Hnew.
{ destruct Hwf as [Hdom _]. apply eq_None_not_Some. rewrite Hdom. lia. }
change (heap.Len ?q) with (PriorityQueue.Len q) in Hrun.
rewrite Len_insert_new in Hrun by done.
set (N := PriorityQueue.Len pq) in *.
assert (0 ≤ N) as HN by (subst N; unfold PriorityQueue.Len; lia).
replace (N + 1 - 1) with N in Hrun by lia.
apply (up_loop_order _ _ _ _ _ Hrun); [lia | by apply insert_ok | |].
- intros i c Hi Hc Hcm Hcn a b. unfold dist_at.
  rewrite !lookup_insert_ne by (unfold child in *; lia).
  apply (Hord i c); [done | done | lia].
- intros p c Hp HpN HNc Hcm. unfold child in *. lia.
Qed.

(** [heap.Pop] returns an item of the queue that is least, and keeps the
  heap order. *)
Lemma pop_order (P : Z → Prop) pq pq' (item : Item.t) :
pq_items P pq → distances_in ok pq → heap_ordered pq →
heap.pop pq = Done (item, pq') →
heap_ordered pq' ∧ least item pq ∧ holds pq item ∧
(∀ k it, pq' !! k = Some it → holds pq it).
Proof.
intros Hwf Hok Hord Hrun.
assert (PriorityQueue.Len pq > 0) as Hpos.
{ destruct (decide (PriorityQueue.Len pq > 0)) as [| Hle]; [done |]. exfalso.
  unfold heap.pop in Hrun. apply bind_Done in Hrun as (q1 & Hswap & _).
  change (heap.Swap pq 0 (heap.Len pq - 1))
    with (PriorityQueue.Swap pq 0 (PriorityQueue.Len pq - 1)) in Hswap.
  unfold PriorityQueue.Swap in Hswap.
  destruct Hwf as [Hdom _].
  destruct (pq !! 0) as [a |] eqn:Ha; [| done].
  assert (is_Some (pq !! 0)) as Hs by eauto. apply Hdom in Hs. lia. }
destruct (pop_wf P pq Hwf Hpos) as (item' & pq'' & Hrun' & Hwf' & Hlen' & _).
rewrite Hrun in Hrun'. injection Hrun' as <- <-.
pose proof Hwf as [Hdom Hit].
destruct (proj2 (Hdom 0)) as [r Hr]; [lia |].
pose proof (root_least P pq r Hwf Hok Hord Hr) as Hleast.
unfold heap.pop in Hrun.
change (heap.Len pq) with (PriorityQueue.Len pq) in Hrun.
set (N := PriorityQueue.Len pq) in *.
apply bind_Done in Hrun as (pq1 & Hswap & Hrun).
apply bind_Done in Hrun as ([pq2 moved] & Hdown & Hrun).
change (heap.Pop pq2) with (PriorityQueue.Pop pq2) in Hrun.
unfold PriorityQueue.Pop in Hrun.
destruct (pq2 !! (PriorityQueue.Len pq2 - 1)) as [last |] eqn:Hlast; [| done].
injection Hrun as <- <-.
destruct (Swap_wf P pq 0 (N - 1) Hwf) as (pq1' & Hswap' & Hwf1 & Hlen1); [lia | lia |].
rewrite Hswap in Hswap'. injection Hswap' as <-.
destruct (down_wf P pq1 0 (N - 1) Hwf1) as (pq2' & b' & Hdown' & Hwf2 & Hlen2);
  [lia | lia |].
rewrite Hdown in Hdown'. injection Hdown' as <- <-.
rewrite Hlen2, Hlen1 in Hlast, Hlen', Hwf' |- *. fold N in Hlast, Hlen', Hwf' |- *.
(* the item under the last key is the old root *)
assert (dist_at pq1 (N - 1) = Some (Item.distance r) ∧
        ∃ r1, pq1 !! (N - 1) = Some r1 ∧ Item.edge r1 = Item.edge r ∧
              Item.distance r1 = Item.distance r) as [Hd1 (r1 & Hr1 & He1 & Hdr1)].
{ pose proof (Swap_dist _ _ _ _ (N - 1) Hswap) as Hd. rewrite decide_True in Hd by done.
  unfold dist_at in Hd at 2. rewrite Hr in Hd. simpl in Hd. split; [done |].
  change (heap.Swap pq 0 (N - 1)) with (PriorityQueue.Swap pq 0 (N - 1)) in Hswap.
  unfold PriorityQueue.Swap in Hswap. rewrite Hr in Hswap.
  destruct (pq !! (N - 1)) as [b |]; [| done]. injection Hswap as <-.
  exists (Item.with_index r (N - 1)). rewrite lookup_insert_eq. done. }
assert (pq2 !! (N - 1) = pq1 !! (N - 1)) as Hframe.
{ destruct (decide (N - 1 = 0)) as [HN1 | HN1].
  - unfold heap.down in Hdown. destruct (Z.to_nat (N - 1)); simpl in Hdown.
    + rewrite decide_True in Hdown by lia. by injection Hdown as <- _.
    + rewrite decide_True in Hdown by lia. by injection Hdown as <- _.
  - apply (down_loop_frame _ _ _ _ _ _ _ _ Hdown); lia. }
assert (last = r1) as -> by congruence.
assert (∀ k it, delete (N - 1) pq2 !! k = Some it → holds pq it) as Hfrom.
{ intros k it Hk. rewrite lookup_delete in Hk. case_decide; [done |].
  eapply holds_trans; [| by eapply (down_loop_holds _ _ _ _ _ _ _ _ _ Hdown)].
  intros k' it'. apply (Swap_holds _ _ _ _ _ _ Hswap). }
split; [| split; [| split; [| done]]].
- (* the order of what is left *)
  unfold heap_ordered. rewrite Hlen'. fold N.
  assert (heap_ordered_below (N - 1) pq2) as Hord2.
  { assert (∀ i' c, 0 ≤ i' → child i' c → c < N - 1 → i' ≠ 0 → c ≠ 0 →
                    ord (dist_at pq1) i' c) as HE.
    { intros i' c Hi' Hc Hcn Hi0 Hc0 a b.
      rewrite !(Swap_dist _ _ _ _ _ Hswap).
      rewrite !decide_False by (unfold child in *; lia).
      apply (Hord i' c); [done | done | fold N; lia]. }
    destruct (down_loop_order _ _ _ _ _ _ _ Hdown) as [(-> & _ & Hkids) | [_ ?]];
      [lia | by eapply Swap_ok | done | | | done].
    - intros p c Hp Hp0. unfold child in Hp0. lia.
    - intros i' c Hi' Hc Hcn.
      destruct (decide (i' = 0)) as [-> | Hne]; [by apply Hkids |].
      apply HE; try done. unfold child in Hc. lia. }
  intros i c Hi Hc Hcn a b. unfold dist_at.
  rewrite !lookup_delete_ne by (unfold child in *; lia).
  by apply (Hord2 i c).
- intros k it Hk. simpl. rewrite Hdr1. by apply (Hleast k it).
- exists 0, r. simpl. done.
Qed.

(** The method update keeps the heap order. *)
Lemma update_order (P : Z → Prop) pq pq' (k : Z) (d : float64) :
pq_items P pq → distances_in ok pq → ok d → heap_ordered pq →
PriorityQueue.update pq k d = Done pq' →
heap_ordered pq'.
Proof.
intros Hwf Hok Hokd Hord Hrun. pose proof Hwf as [Hdom Hit].
unfold PriorityQueue.update in Hrun.
destruct (pq !! k) as [item |] eqn:Hitem; [| done].
destruct (update_wf P pq k d Hwf) as (pq'' & Hrun' & _ & Hlen); [by rewrite Hitem |].
unfold PriorityQueue.update in Hrun'. rewrite Hitem in Hrun'.
rewrite Hrun in Hrun'. injection Hrun' as <-.
destruct (Hit k item Hitem) as [Hidx _]. rewrite Hidx in Hrun.
assert (0 ≤ k < PriorityQueue.Len pq) as Hk by (apply Hdom; eauto).
set (pq1 := <[k:=Item.with_distance item d]> pq) in *.
assert (PriorityQueue.Len pq1 = PriorityQueue.Len pq) as Hlen1.
{ unfold PriorityQueue.Len. subst pq1. by rewrite map_size_insert_Some. }
set (N := PriorityQueue.Len pq) in *.
assert (∀ j, j ≠ k → dist_at pq1 j = dist_at pq j) as Hsame.
{ intros j Hj. unfold dist_at. subst pq1. by rewrite lookup_insert_ne. }
assert (∀ i' c, 0 ≤ i' → child i' c → c < N → i' ≠ k → c ≠ k →
                ord (dist_at pq1) i' c) as HE.
{ intros i' c Hi' Hc Hcn Hi'k Hck a b. rewrite !Hsame by done. by apply Hord. }
assert (∀ p c, 0 ≤ p → child p k → child k c → c < N → ord (dist_at pq1) p c) as HG.
{ intros p c Hp Hpk Hkc Hcn a b.
  rewrite !Hsame by (unfold child in *; lia). intros Ha Hb.
  apply (Hneg a (Item.distance item) b).
  - by apply (Hok k).
  - apply (Hord k c); [lia | done | done | done |]. unfold dist_at. by rewrite Hitem.
  - apply (Hord p k); [done | done | lia | | done]. unfold dist_at. by rewrite Hitem. }
unfold heap_ordered. rewrite Hlen. fold N.
unfold heap.Fix in Hrun.
change (heap.Len pq1) with (PriorityQueue.Len pq1) in Hrun. rewrite Hlen1 in Hrun.
apply bind_Done in Hrun as ([pq2 moved] & Hdown & Hrun).
assert (distances_in ok pq1) as Hok1 by (by apply insert_ok).
destruct (down_loop_order _ _ _ _ _ _ _ Hdown) as [(-> & -> & Hkids) | [-> Hord2]];
  [lia | done | done | done | |].
- rewrite bool_decide_eq_false_2 in Hrun by lia. simpl in Hrun.
  apply (up_loop_order _ _ _ _ _ Hrun); [lia | done | | done].
  intros i c Hi Hc Hcn Hck.
  destruct (decide (i = k)) as [-> | Hne]; [by apply Hkids | by apply HE].
- simpl in Hrun. by injection Hrun as <-.
Qed.
End heap_order.
(** ** The queue of findMST and of findSP is a heap *)

Section heap_pop.
Context `{Float64}.
Hypothesis Hweak : lt_weak.

(** X20. The queue is a heap: on a queue in heap order, with the items
  under the keys 0 .. Len-1 and at least one item, heap.Pop returns an
  item of the queue such that no item of the queue has a distance less
  than it, and leaves the queue in heap order, one item shorter; the
  order [<] on float64 is taken to be a strict weak order. *)
Theorem heap_pop_returns_least (n : Z) (pq : PriorityQueue) :
pq_wf n pq → heap_ordered pq → PriorityQueue.Len pq > 0 →
∃ item pq', heap.pop pq = Done (item, pq') ∧ holds pq item ∧ least item pq ∧
            pq_wf n pq' ∧ heap_ordered pq' ∧
            PriorityQueue.Len pq' = PriorityQueue.Len pq - 1.
Proof.
intros Hwf Hord Hlen.
destruct (pop_wf (λ w, 0 ≤ w < n) pq Hwf Hlen) as (item & pq' & Hpop & Hwf' & Hlen' & _).
destruct (pop_order (λ _, True) (proj1 Hweak) (λ x y z _, proj2 Hweak x y z)
            _ _ _ _ Hwf (λ _ _ _, I) Hord Hpop) as (Hord' & Hleast & Hholds & _).
exists item, pq'. done.
Qed.
End heap_pop.

Section heap_in_use.
Context `{Float64}.
Hypothesis Hieee : lt_ieee.

(** The update or the push of visit and of relax keeps the heap order and
  brings no NaN into the queue. *)
Lemma relax_queue_order (pq pq' : PriorityQueue) (x w : Z) (dist : float64) :
match pq !! w with
| Some _ => PriorityQueue.update pq w dist
| None => heap.push pq (Item.mk (Edge.mk x w) 0 dist)
end = Done pq' →
is_number dist → pq_items (λ _, True) pq → no_NaN pq → heap_ordered pq →
heap_ordered pq' ∧ no_NaN pq'.
Proof.
destruct Hieee as (Hstrict & _ & Hneg).
intros Hrun Hdist Hwf Hnum Hord. destruct (pq !! w) as [it |].
- split.
  + exact (update_order is_number Hstrict Hneg (λ _, True) pq pq' w dist
             Hwf Hnum Hdist Hord Hrun).
  + exact (update_ok is_number pq pq' w dist Hrun Hnum Hdist).
- split.
  + exact (push_order is_number Hstrict Hneg (λ _, True) pq pq'
             (Item.mk (Edge.mk x w) 0 dist) Hwf I Hnum Hdist Hord Hrun).
  + exact (push_ok is_number pq pq' (Item.mk (Edge.mk x w) 0 dist) Hrun Hnum Hdist).
Qed.

Lemma visit_range_order (x : Z) (row : list float64) (w : Z) (s s' : PrimMST.vars) :
PrimMST.visit_range x row w s = Done s' →
pq_items (λ _, True) (PrimMST.pq s) → no_NaN (PrimMST.pq s) →
heap_ordered (PrimMST.pq s) →
heap_ordered (PrimMST.pq s') ∧ no_NaN (PrimMST.pq s').
Proof.
revert w s. induction row as [| dist row IH]; intros w s Hrun Hwf Hnum Hord.
{ by injection Hrun as <-. }
simpl in Hrun. apply bind_Done in Hrun as (m & _ & Hrun).
destruct m; [by eapply IH |].
apply bind_Done in Hrun as (dw & _ & Hrun).
destruct (f_lt dist dw) eqn:Hlt; [| by eapply IH].
apply bind_Done in Hrun as (tree' & _ & Hrun).
apply bind_Done in Hrun as (distTo' & _ & Hrun).
apply bind_Done in Hrun as (pq' & Hq & Hrun).
destruct (relax_queue_items _ _ _ _ _ Hq Hwf) as (Hwf' & _).
destruct (relax_queue_order _ _ _ _ _ Hq) as [Hord' Hnum']; try done.
{ by apply (proj1 (proj2 Hieee) dist dw). }
by apply (IH _ _ Hrun Hwf').
Qed.

Lemma relax_range_order (g : list (list float64)) (v : Z) (es : list loc)
  (s s' : DijksraSP.vars) :
DijksraSP.relax_range g v es s = Done s' →
pq_items (λ _, True) (DijksraSP.pq s) → no_NaN (DijksraSP.pq s) →
heap_ordered (DijksraSP.pq s) →
pq_items (λ _, True) (DijksraSP.pq s') ∧ heap_ordered (DijksraSP.pq s') ∧
no_NaN (DijksraSP.pq s').
Proof.
revert s. induction es as [| l es IH]; intros s Hrun Hwf Hnum Hord; simpl in Hrun.
{ by injection Hrun as <-. }
apply bind_Done in Hrun as (e & _ & Hrun).
destruct (if decide (Edge.w e = v)
          then (Edge.v e, <[l:=Edge.swap e]> (DijksraSP.edges s))
          else (Edge.w e, DijksraSP.edges s)) as [w edges'].
apply bind_Done in Hrun as (dv & _ & Hrun).
apply bind_Done in Hrun as (gv & _ & Hrun).
apply bind_Done in Hrun as (gvw & _ & Hrun).
apply bind_Done in Hrun as (dw & _ & Hrun).
destruct (f_lt _ dw) eqn:Hlt; [| by apply (IH _ Hrun)].
apply bind_Done in Hrun as (edgeTo' & _ & Hrun).
apply bind_Done in Hrun as (dv' & _ & Hrun).
apply bind_Done in Hrun as (gv' & _ & Hrun).
apply bind_Done in Hrun as (gvw' & _ & Hrun).
apply bind_Done in Hrun as (distTo' & _ & Hrun).
apply bind_Done in Hrun as (pq' & Hq & Hrun).
destruct (relax_queue_items _ _ _ _ _ Hq Hwf) as (Hwf' & _).
destruct (relax_queue_order _ _ _ _ _ Hq) as [Hord' Hnum']; try done.
{ by apply (proj1 (proj2 Hieee) _ dw). }
by apply (IH _ Hrun Hwf').
Qed.

(** What one turn of the loop of findMST keeps. *)
Lemma turn_keeps_heap (g : list (list float64)) (n : nat) (s s' : PrimMST.vars)
  (item : Item.t) (pq' : PriorityQueue) :
vars_wf n s → heap_ordered (PrimMST.pq s) → no_NaN (PrimMST.pq s) →
heap.pop (PrimMST.pq s) = Done (item, pq') →
PrimMST.visit g (Item.w item)
  (PrimMST.mkvars (PrimMST.edges s) (PrimMST.tree s) (PrimMST.marked s)
     (PrimMST.distTo s) pq') = Done s' →
least item (PrimMST.pq s) ∧ holds (PrimMST.pq s) item ∧
pq_wf (Z.of_nat n) pq' ∧ 0 ≤ Item.w item < Z.of_nat n ∧
heap_ordered (PrimMST.pq s') ∧ no_NaN (PrimMST.pq s').
Proof.
destruct Hieee as (Hstrict & _ & Hneg).
intros (Hlm & Hld & Hlt' & Hpq) Hord Hnum Hpop Hvis.
assert (PriorityQueue.Len (PrimMST.pq s) > 0) as Hlen.
{ destruct (decide (PriorityQueue.Len (PrimMST.pq s) > 0)) as [| Hle]; [done |]. exfalso.
  unfold heap.pop in Hpop. apply bind_Done in Hpop as (q1 & Hswap & _).
  change (heap.Swap ?q 0 (heap.Len ?q - 1))
    with (PriorityQueue.Swap q 0 (PriorityQueue.Len q - 1)) in Hswap.
  unfold PriorityQueue.Swap in Hswap. destruct Hpq as [Hdom _].
  destruct (PrimMST.pq s !! 0) as [a |] eqn:Ha; [| done].
  assert (is_Some (PrimMST.pq s !! 0)) as Hs by eauto. apply Hdom in Hs. lia. }
destruct (pop_wf (λ w, 0 ≤ w < Z.of_nat n) (PrimMST.pq s) Hpq Hlen)
  as (item0 & pq0 & Hpop0 & Hpq' & _ & Hw).
rewrite Hpop in Hpop0. injection Hpop0 as <- <-.
destruct (pop_order is_number Hstrict Hneg _ _ _ _ Hpq Hnum Hord Hpop)
  as (Hord' & Hleast & Hholds & Hfrom).
split; [done |]. split; [done |]. split; [done |]. split; [done |].
unfold PrimMST.visit in Hvis.
apply bind_Done in Hvis as (marked' & _ & Hvis).
apply bind_Done in Hvis as (row & _ & Hvis).
apply (visit_range_order _ _ _ _ _ Hvis); simpl; [| | done].
- by eapply pq_items_weaken; [| exact Hpq'].
- by apply (from_ok is_number (PrimMST.pq s)).
Qed.

(** X21. One turn of the loop of findMST, for [<] as IEEE 754 has it (a
  strict order in which being not less is transitive through every value
  that is not NaN, and only a value that is not NaN is less than
  another).  When the variables have the sizes of the N vertices and the
  queue is in shape, in heap order, holds no NaN and is not empty,
  heap.Pop returns an item of the queue with a least distance, visit of
  its vertex returns, and the queue is in shape and in heap order and
  holds no NaN again: the pushes and the updates of visit, whatever item
  they reach, keep the heap. *)
Theorem findMST_turn_pops_least (g : list (list float64)) (n : nat)
  (s : PrimMST.vars) :
square n g → vars_wf n s → heap_ordered (PrimMST.pq s) → no_NaN (PrimMST.pq s) →
PriorityQueue.Len (PrimMST.pq s) > 0 →
∃ item pq' s',
  heap.pop (PrimMST.pq s) = Done (item, pq') ∧
  holds (PrimMST.pq s) item ∧ least item (PrimMST.pq s) ∧
  PrimMST.visit g (Item.w item)
    (PrimMST.mkvars (PrimMST.edges s) (PrimMST.tree s) (PrimMST.marked s)
       (PrimMST.distTo s) pq') = Done s' ∧
  vars_wf n s' ∧ heap_ordered (PrimMST.pq s') ∧ no_NaN (PrimMST.pq s').
Proof.
intros Hg Hwf Hord Hnum Hlen. pose proof Hwf as (Hlm & Hld & Hlt' & Hpq).
destruct (pop_wf (λ w, 0 ≤ w < Z.of_nat n) (PrimMST.pq s) Hpq Hlen)
  as (item & pq' & Hpop & Hpq' & _ & Hw).
set (s0 := PrimMST.mkvars (PrimMST.edges s) (PrimMST.tree s) (PrimMST.marked s)
             (PrimMST.distTo s) pq').
assert (vars_wf n s0) as Hwf0 by done.
destruct (visit_returns (proj1 Hieee) g n (Item.w item) s0 Hg Hw Hwf0)
  as (s' & Hvis & Hwf' & _).
destruct (turn_keeps_heap g n s s' item pq' Hwf Hord Hnum Hpop Hvis)
  as (Hleast & Hholds & _ & _ & Hord' & Hnum').
exists item, pq', s'. done.
Qed.

(** X22. The closure relax of findSP keeps the heap, for [<] as IEEE 754
  has it: when the queue is in shape and in heap order and holds no NaN,
  and relax returns, the queue is in shape and in heap order and holds
  no NaN again. *)
Theorem relax_keeps_heap (g : list (list float64)) (a : list (list loc)) (v : Z)
  (s s' : DijksraSP.vars) :
DijksraSP.relax g a v s = Done s' →
pq_items (λ _, True) (DijksraSP.pq s) → heap_ordered (DijksraSP.pq s) →
no_NaN (DijksraSP.pq s) →
pq_items (λ _, True) (DijksraSP.pq s') ∧ heap_ordered (DijksraSP.pq s') ∧
no_NaN (DijksraSP.pq s').
Proof.
intros Hrun Hwf Hord Hnum. unfold DijksraSP.relax in Hrun.
apply bind_Done in Hrun as (es & _ & Hrun).
by apply (relax_range_order _ _ _ _ _ Hrun).
Qed.
End heap_in_use.

(** The comparison of the exact arithmetic is a strict weak order. *)
Lemma Q_lt_weak : @lt_weak Q_float64.
Proof.
  split; [apply Q_lt_strict |]. intros x y z.
  change (QFloat.lt x y = false → QFloat.lt y z = false → QFloat.lt x z = false).
  unfold QFloat.lt. intros Hxy Hyz.
  destruct (Qcompare x z) eqn:Exz; try done.
  apply Qlt_alt in Exz. exfalso.
  assert (y <= x)%Q as Hyx.
  { destruct (Qcompare x y) eqn:Exy; [| discriminate |].
    - apply Qeq_alt in Exy. rewrite Exy. apply Qle_refl.
    - apply Qgt_alt in Exy. by apply Qlt_le_weak. }
  assert (z <= y)%Q as Hzy.
  { destruct (Qcompare y z) eqn:Eyz; [| discriminate |].
    - apply Qeq_alt in Eyz. rewrite Eyz. apply Qle_refl.
    - apply Qgt_alt in Eyz. by apply Qlt_le_weak. }
  apply (Qlt_irrefl x). eapply Qlt_le_trans; [exact Exz |].
  by eapply Qle_trans.
Qed.

(** Every value of the exact arithmetic is a number. *)
Lemma Q_is_number (x : Q) : is_number (H := Q_float64) x.
Proof.
  change (Qeq_bool x x = true). apply Qeq_bool_iff. reflexivity.
Qed.

Lemma Q_no_NaN (pq : gmap Z (Item.over Q)) : no_NaN (H := Q_float64) pq.
Proof. intros k it _. apply Q_is_number. Qed.

Lemma Q_lt_ieee : @lt_ieee Q_float64.
Proof.
  split; [apply Q_lt_strict |]. split.
  - intros x y _. apply Q_is_number.
  - intros x y z _. apply (proj2 Q_lt_weak).
Qed.

Lemma queue_01_12_ordered : heap_ordered (H := Q_float64) queue_01_12.
Proof.
  intros i c Hi Hc Hcn a b.
  change (PriorityQueue.Len (H := Q_float64) queue_01_12) with 2 in Hcn.
  assert (i = 0 ∧ c = 1) as [-> ->] by (unfold child in Hc; lia).
  intros [= <-] [= <-]. reflexivity.
Qed.

Lemma heap_pop_returns_least_witness :
  ∃ item pq', heap.pop (Interface0 := PriorityQueue.interface (H := Q_float64))
                queue_01_12 = Done (item, pq') ∧
              holds (H := Q_float64) queue_01_12 item ∧
              least (H := Q_float64) item queue_01_12 ∧
              pq_wf (H := Q_float64) 3 pq' ∧ heap_ordered (H := Q_float64) pq' ∧
              PriorityQueue.Len pq' = PriorityQueue.Len (H := Q_float64) queue_01_12 - 1.
Proof.
  apply (heap_pop_returns_least (H := Q_float64) Q_lt_weak 3 queue_01_12
           queue_01_12_wf queue_01_12_ordered).
  vm_compute. reflexivity.
Defined.

Lemma row4_first_wf : vars_wf (H := Q_float64) 4 row4_first.
Proof.
  split; [reflexivity |]. split; [reflexivity |]. split; [reflexivity |].
  apply (Init_singleton (H := Q_float64) (λ w, 0 ≤ w < Z.of_nat 4)
           (Item.mk (Edge.mk 0 0) 0 QFloat.MaxFloat64)); [reflexivity |].
  unfold Item.w. simpl. lia.
Qed.

Lemma row4_first_ordered : heap_ordered (H := Q_float64) (PrimMST.pq row4_first).
Proof.
  intros i c Hi Hc Hcn.
  change (PriorityQueue.Len (H := Q_float64) (PrimMST.pq row4_first)) with 1 in Hcn.
  unfold child in Hc. lia.
Qed.

(** The first turn of the loop of findMST on [row4] leaves the queue of
    [row4_second], three items in shape and in heap order. *)
Lemma row4_second_heap :
  PriorityQueue.Len (H := Q_float64) (PrimMST.pq row4_second) = 3 ∧
  vars_wf (H := Q_float64) 4 row4_second ∧
  heap_ordered (H := Q_float64) (PrimMST.pq row4_second).
Proof.
  split; [reflexivity |].
  destruct (visit_returns (H := Q_float64) Q_lt_strict (PrimMST.graph row4_start) 4 0
              (PrimMST.mkvars (PrimMST.edges row4_first) (PrimMST.tree row4_first)
                 (PrimMST.marked row4_first) (PrimMST.distTo row4_first) ∅) row4_square)
    as (s' & Hvis & Hwf' & _).
  { lia. }
  { split; [reflexivity |]. split; [reflexivity |]. split; [reflexivity |]. split.
    - intros k. simpl. change (PriorityQueue.Len (H := Q_float64) ∅) with 0.
      rewrite lookup_empty. split; [intros [? [=]] | lia].
    - intros k it. simpl. by rewrite lookup_empty. }
  assert (s' = row4_second) as ->.
  { assert (Done s' = Done row4_second) as [= ->]; [| done].
    rewrite <- Hvis. vm_compute. reflexivity. }
  split; [done |].
  apply (turn_keeps_heap (H := Q_float64) Q_lt_ieee (PrimMST.graph row4_start) 4
           row4_first row4_second (Item.mk (Edge.mk 0 0) (-1) QFloat.MaxFloat64) ∅
           row4_first_wf row4_first_ordered (Q_no_NaN _)).
  - vm_compute. reflexivity.
  - vm_compute. reflexivity.
Qed.

(** The second turn of the loop of findMST on [row4]: the queue holds the
    items of the vertices 2, 1 and 3; the item of vertex 2, at the distance
    20, is popped, and the visit of vertex 2 updates the item under the
    key 1. *)
Lemma findMST_turn_pops_least_witness :
  ∃ item pq' s',
    heap.pop (Interface0 := PriorityQueue.interface (H := Q_float64))
      (PrimMST.pq row4_second) = Done (item, pq') ∧
    holds (H := Q_float64) (PrimMST.pq row4_second) item ∧
    least (H := Q_float64) item (PrimMST.pq row4_second) ∧
    PrimMST.visit (H := Q_float64) (PrimMST.graph row4_start) (Item.w item)
      (PrimMST.mkvars (PrimMST.edges row4_second) (PrimMST.tree row4_second)
         (PrimMST.marked row4_second) (PrimMST.distTo row4_second) pq') = Done s' ∧
    vars_wf (H := Q_float64) 4 s' ∧ heap_ordered (H := Q_float64) (PrimMST.pq s') ∧
    no_NaN (H := Q_float64) (PrimMST.pq s').
Proof.
  apply (findMST_turn_pops_least (H := Q_float64) Q_lt_ieee (PrimMST.graph row4_start) 4
           row4_second row4_square (proj1 (proj2 row4_second_heap))
           (proj2 (proj2 row4_second_heap)) (Q_no_NaN _)).
  vm_compute. reflexivity.
Defined.

(** The queue of [fork5_popped]: the item of vertex 3 under the key 0 and
    the item of vertex 4 under the key 1. *)
Lemma fork5_popped_queue :
  DijksraSP.pq fork5_popped
  = <[0 := Item.mk (Edge.mk 0 3) 0 (inject_Z 30)]>
      (<[1 := Item.mk (Edge.mk 0 4) 1 (inject_Z 40)]> ∅).
Proof. vm_compute. reflexivity. Qed.

Lemma fork5_popped_wf :
  pq_items (H := Q_float64) (λ _, True) (DijksraSP.pq fork5_popped).
Proof.
  rewrite fork5_popped_queue. split.
  - intros k.
    change (PriorityQueue.Len (H := Q_float64)
              (<[0 := Item.mk (Edge.mk 0 3) 0 (inject_Z 30)]>
                 (<[1 := Item.mk (Edge.mk 0 4) 1 (inject_Z 40)]> ∅))) with 2.
    rewrite !lookup_insert, lookup_empty.
    repeat case_decide; subst; split; try lia; eauto; intros [? [=]].
  - intros k it. rewrite !lookup_insert, lookup_empty.
    repeat case_decide; subst; intros [= <-]; done.
Qed.

Lemma fork5_popped_ordered : heap_ordered (H := Q_float64) (DijksraSP.pq fork5_popped).
Proof.
  intros i c Hi Hc Hcn a b.
  change (PriorityQueue.Len (H := Q_float64) (DijksraSP.pq fork5_popped)) with 2 in Hcn.
  assert (i = 0 ∧ c = 1) as [-> ->] by (unfold child in Hc; lia).
  intros [= <-] [= <-]. reflexivity.
Qed.

(** relax of vertex 2 on [fork5], with the items of the vertices 3 and 4
    in the queue: the edge to vertex 1 finds the item under the key 1, the
    one of vertex 4, updates its distance from 40 to 18, and the item moves
    up to the key 0. *)
Lemma relax_keeps_heap_witness :
  (Item.distance <$> DijksraSP.pq fork5_popped !! 1 = Some (inject_Z 40) ∧
   Item.distance <$> DijksraSP.pq fork5_relaxed !! 0 = Some (inject_Z 18)) ∧
  pq_items (H := Q_float64) (λ _, True) (DijksraSP.pq fork5_relaxed) ∧
  heap_ordered (H := Q_float64) (DijksraSP.pq fork5_relaxed) ∧
  no_NaN (H := Q_float64) (DijksraSP.pq fork5_relaxed).
Proof.
  split; [split; reflexivity |].
  apply (relax_keeps_heap (H := Q_float64) Q_lt_ieee (DijksraSP.graph fork5_dsp)
           fork5_adj 2 fork5_popped fork5_relaxed).
  - vm_compute. reflexivity.
  - apply fork5_popped_wf.
  - apply fork5_popped_ordered.
  - apply Q_no_NaN.
Defined.

(** ** From the locations to the tree *)

Section pipeline.
Context `{Float64}.
Hypothesis Hlt : lt_strict.

Lemma primmst_of_graph (location : list complex128) (ep : Endpoints.t) :
PrimMST.graph (primmst_of location ep)
= tabulate (length location) (PrimMST.distance_entry location).
Proof. reflexivity. Qed.

(** X23. findDistances followed by findMST.  For N >= 1 locations such
  that the distance from vertex 0 to every other vertex is below
  MaxFloat64, and a bound on the loop from N*N + 2 on, findMST on the
  matrix of findDistances returns no error and a tree of N slots: slot 0
  holds no edge, and the slot of every vertex w >= 1 holds an edge to w
  from a vertex that was visited before w. *)
Theorem locations_to_tree (fuel : nat) (location : list complex128)
  (ep : Endpoints.t) (z0 : complex128) :
let n := length location in
location !! O = Some z0 →
(∀ j zj, (1 ≤ j)%nat → location !! j = Some zj →
         f_lt (c_abs (c_sub z0 zj)) MaxFloat64 = true) →
(n * n + 2 ≤ fuel)%nat →
∃ h' p' popped,
  PrimMST.findMST fuel [] (primmst_of location ep) = Done (None, h', p', popped) ∧
  length (PrimMST.mst p') = n ∧ PrimMST.mst p' !! O = Some None ∧
  ∀ i, (1 ≤ i < n)%nat →
    ∃ l ed, PrimMST.mst p' !! i = Some (Some l) ∧ h' !! l = Some ed ∧
            Edge.w ed = Z.of_nat i ∧
            Edge.v ed ∈ visited_before popped (Z.of_nat i).
Proof.
intros n Hz0 Hfin Hfuel.
assert (1 ≤ n)%nat as Hn.
{ apply lookup_lt_Some in Hz0. unfold n. lia. }
assert (square n (PrimMST.graph (primmst_of location ep))) as Hg.
{ rewrite primmst_of_graph. apply tabulate_square. }
assert (root_row_finite n (PrimMST.graph (primmst_of location ep))) as Hroot.
{ intros gv i d Hgv Hi Hd. rewrite primmst_of_graph in Hgv.
  rewrite lookup_tabulate in Hgv by done. injection Hgv as <-.
  rewrite list_lookup_fmap, lookup_seq_lt in Hd by (fold n; lia).
  simpl in Hd. injection Hd as <-.
  destruct (lookup_lt_is_Some_2 location i) as [zi Hzi]; [fold n; lia |].
  unfold PrimMST.distance_entry. rewrite decide_False by lia.
  rewrite decide_True by lia. rewrite Hz0, Hzi. apply (Hfin i); [lia | done]. }
destruct (findMST_returns Hlt fuel [] (primmst_of location ep) Hn Hg Hfuel)
  as (h' & p' & popped & Hrun & Hlen).
exists h', p', popped. split; [done |]. split; [done |].
destruct (findMST_spanning_slots Hlt _ _ _ _ _ _ _ Hrun Hn Hg Hroot) as [H0 Hslots].
split; [done |]. intros i Hi.
destruct (Hslots i Hi) as (l & ed0 & Hl & _).
destruct (findMST_slot Hlt _ _ _ _ _ _ _ i l Hrun Hg Hl)
  as (_ & ed & d & Hed & Hw & Hv & _).
exists l, ed. done.
Qed.
End pipeline.

Lemma locations_to_tree_witness :
  ∃ h' p' popped,
    PrimMST.findMST (H := Q_float64) 20 [] (primmst_of row4 bounds299)
    = Done (None, h', p', popped) ∧
    length (PrimMST.mst p') = length row4 ∧ PrimMST.mst p' !! O = Some None ∧
    ∀ i, (1 ≤ i < length row4)%nat →
      ∃ l ed, PrimMST.mst p' !! i = Some (Some l) ∧ h' !! l = Some ed ∧
              Edge.w ed = Z.of_nat i ∧
              Edge.v ed ∈ visited_before popped (Z.of_nat i).
Proof.
  apply (locations_to_tree (H := Q_float64) Q_lt_strict 20 row4 bounds299 (at_point 30 150)).
  - reflexivity.
  - intros j zj Hj Hzj.
    destruct j as [| [| [| [| j]]]]; try lia; try discriminate;
      injection Hzj as <-; reflexivity.
  - simpl. lia.
Defined.

(** ** The distances of findSP are lengths of walks in the tree *)

Section queue_from.
Context `{Float64}.
Implicit Types pq : PriorityQueue.

(** The items after a heap function are for vertices that had an item
  before it. *)
Lemma Swap_from pq pq' (i j k : Z) (it : Item.t) :
heap.Swap pq i j = Done pq' → pq' !! k = Some it → has_item pq (Item.w it).
Proof.
intros Hs. change (heap.Swap pq i j) with (PriorityQueue.Swap pq i j) in Hs.
unfold PriorityQueue.Swap in Hs.
destruct (pq !! i) as [a |] eqn:Ha; [| done].
destruct (pq !! j) as [b |] eqn:Hb; [| done].
injection Hs as <-. rewrite !lookup_insert.
repeat case_decide; subst.
- intros [= <-]. by exists i, a.
- intros [= <-]. by exists j, b.
- intros Hk. by exists k, it.
Qed.

Lemma from_trans pq pq' (w : Z) :
(∀ k it, pq' !! k = Some it → has_item pq (Item.w it)) →
has_item pq' w → has_item pq w.
Proof. intros Hall (k & it & Hk & <-). by apply (Hall k it). Qed.

Lemma up_loop_from (fuel : nat) pq pq' (j k : Z) (it : Item.t) :
heap.up_loop fuel pq j = Done pq' → pq' !! k = Some it → has_item pq (Item.w it).
Proof.
revert pq j. induction fuel as [| fuel IH]; intros pq j Hrun Hk; [done |].
simpl in Hrun. case_decide; [injection Hrun as <-; by exists k, it |].
apply bind_Done in Hrun as (lt & _ & Hrun).
destruct lt; simpl in Hrun; [| injection Hrun as <-; by exists k, it].
apply bind_Done in Hrun as (pq1 & Hswap & Hrun).
eapply from_trans; [| by eapply IH].
intros k' it'. apply (Swap_from _ _ _ _ _ _ Hswap).
Qed.

Lemma down_loop_from (fuel : nat) pq pq' (i0 i n k : Z) (b : bool) (it : Item.t) :
heap.down_loop fuel pq i0 i n = Done (pq', b) → pq' !! k = Some it →
has_item pq (Item.w it).
Proof.
revert pq i. induction fuel as [| fuel IH]; intros pq i Hrun Hk; [done |].
simpl in Hrun. case_decide; [injection Hrun as <- _; by exists k, it |].
apply bind_Done in Hrun as (right & _ & Hrun).
apply bind_Done in Hrun as (lt & _ & Hrun).
destruct lt; simpl in Hrun; [| injection Hrun as <- _; by exists k, it].
apply bind_Done in Hrun as (pq1 & Hswap & Hrun).
eapply from_trans; [| by eapply IH].
intros k' it'. apply (Swap_from _ _ _ _ _ _ Hswap).
Qed.

Lemma push_from pq pq' (x : Item.t) (k : Z) (it : Item.t) :
heap.push pq x = Done pq' → pq' !! k = Some it →
has_item pq (Item.w it) ∨ Item.w it = Item.w x.
Proof.
intros Hrun Hk. unfold heap.push in Hrun.
apply bind_Done in Hrun as (pq1 & Hpush & Hrun).
change (heap.Push pq x) with (PriorityQueue.Push pq x) in Hpush.
unfold PriorityQueue.Push in Hpush. injection Hpush as <-.
destruct (up_loop_from _ _ _ _ _ _ Hrun Hk) as (k1 & it1 & Hk1 & Hw).
rewrite lookup_insert in Hk1. case_decide.
- injection Hk1 as <-. right. by rewrite <- Hw.
- left. by exists k1, it1.
Qed.

Lemma pop_from pq pq' (item : Item.t) :
heap.pop pq = Done (item, pq') →
has_item pq (Item.w item) ∧ ∀ k it, pq' !! k = Some it → has_item pq (Item.w it).
Proof.
intros Hrun. unfold heap.pop in Hrun.
apply bind_Done in Hrun as (q1 & Hswap & Hrun).
apply bind_Done in Hrun as ([q2 moved] & Hdown & Hrun).
change (heap.Pop q2) with (PriorityQueue.Pop q2) in Hrun.
unfold PriorityQueue.Pop in Hrun.
destruct (q2 !! (PriorityQueue.Len q2 - 1)) as [last |] eqn:Hlast; [| done].
injection Hrun as <- <-.
assert (∀ k it, q2 !! k = Some it → has_item pq (Item.w it)) as Hfrom.
{ intros k it Hk. eapply from_trans; [| by eapply (down_loop_from _ _ _ _ _ _ _ _ _ Hdown)].
  intros k' it'. apply (Swap_from _ _ _ _ _ _ Hswap). }
split; [by apply (Hfrom (PriorityQueue.Len q2 - 1) last) |].
intros k it Hk. rewrite lookup_delete in Hk. case_decide; [done |]. by apply (Hfrom k).
Qed.

Lemma update_from pq pq' (k0 : Z) (d : float64) (k : Z) (it : Item.t) :
PriorityQueue.update pq k0 d = Done pq' → pq' !! k = Some it →
has_item pq (Item.w it).
Proof.
intros Hrun Hk. unfold PriorityQueue.update in Hrun.
destruct (pq !! k0) as [item |] eqn:Hitem; [| done].
unfold heap.Fix in Hrun.
apply bind_Done in Hrun as ([q1 moved] & Hdown & Hrun).
assert (∀ k it, q1 !! k = Some it → has_item pq (Item.w it)) as Hfrom.
{ intros k1 it1 Hk1.
  destruct (down_loop_from _ _ _ _ _ _ _ _ _ Hdown Hk1) as (k2 & it2 & Hk2 & Hw).
  rewrite lookup_insert in Hk2. case_decide.
  - injection Hk2 as <-. exists k0, item. by rewrite <- Hw.
  - by exists k2, it2. }
destruct moved; simpl in Hrun; [injection Hrun as <-; by apply (Hfrom k) |].
eapply from_trans; [exact Hfrom | by eapply up_loop_from].
Qed.
End queue_from.

Section findSP_walks.
Context `{Float64}.
Variables (g : list (list float64)) (h : store) (mst : list (option loc)) (source : Z).

(** A turn of the loop of [relax], and with it the closure, keeps
  [search_inv]. *)
Lemma relax_range_walks (v : Z) (es : list loc) (s s' : DijksraSP.vars) :
DijksraSP.relax_range g v es s = Done s' →
(∀ l, l ∈ es → tree_pointer mst l ∧ edge_touches h l v) →
search_inv g h mst source s →
(∃ dv, 0 ≤ v ∧ DijksraSP.vdistTo s !! Z.to_nat v = Some dv ∧
       walk_length g h mst source v dv) →
search_inv g h mst source s'.
Proof.
revert s. induction es as [| l0 es IH]; intros s Hrun Hes Hinv Hv; simpl in Hrun.
{ by injection Hrun as <-. }
destruct Hinv as (Hends & Hdist & Hitems).
apply bind_Done in Hrun as (e & He & Hrun).
apply deref_Done in He as (l' & [= <-] & Hl0).
set (w := if decide (Edge.w e = v) then Edge.v e else Edge.w e).
set (edges' := if decide (Edge.w e = v) then <[l0 := Edge.swap e]> (DijksraSP.edges s)
               else DijksraSP.edges s).
assert ((if decide (Edge.w e = v)
         then (Edge.v e, <[l0 := Edge.swap e]> (DijksraSP.edges s))
         else (Edge.w e, DijksraSP.edges s)) = (w, edges')) as Heq.
{ subst w edges'. by case_decide. }
rewrite Heq in Hrun. clear Heq.
assert (ends_kept h edges') as Hends'.
{ unfold edges'. destruct (decide (Edge.w e = v)); [| done].
  eapply ends_kept_trans; [exact Hends | by apply ends_kept_swap]. }
assert (tree_edge h mst v w) as Hvw.
{ destruct (Hes l0 (list_elem_of_here _ _)) as [Hptr (ed & Hed & Hin)].
  exists l0, ed. split; [done |]. split; [done |].
  destruct (Hends l0 ed Hed) as (e2 & He2 & Hsame).
  assert (e2 = e) as -> by congruence.
  unfold w. destruct ed as [a b]. simpl in Hin.
  destruct Hsame as [-> | ->]; simpl; destruct (decide _) as [Hd | Hd];
    simpl in Hd; destruct Hin; subst; auto; congruence. }
apply bind_Done in Hrun as (dv & Hdv & Hrun).
apply bind_Done in Hrun as (gv & Hgv & Hrun).
apply bind_Done in Hrun as (gvw & Hgvw & Hrun).
apply bind_Done in Hrun as (dw & Hdw & Hrun).
apply slice_get_Done in Hdv as [Hv0 Hdv], Hgv as [_ Hgv], Hgvw as [Hw0 Hgvw],
  Hdw as [_ Hdw].
assert (walk_length g h mst source w (f_add dv gvw)) as Hwalk.
{ destruct Hv as (dv0 & _ & Hdv0 & Hwv). assert (dv0 = dv) as -> by congruence.
  apply (walk_length_step g h mst source v w dv gvw); [done .. |].
  unfold entry. rewrite Hgv. exact Hgvw. }
destruct (f_lt _ dw).
- apply bind_Done in Hrun as (edgeTo' & HeT & Hrun).
  apply bind_Done in Hrun as (dv' & Hdv' & Hrun).
  apply bind_Done in Hrun as (gv' & Hgv' & Hrun).
  apply bind_Done in Hrun as (gvw' & Hgvw' & Hrun).
  apply bind_Done in Hrun as (distTo' & HdT & Hrun).
  apply bind_Done in Hrun as (pq' & Hpq & Hrun).
  apply slice_get_Done in Hdv' as [_ Hdv'], Hgv' as [_ Hgv'], Hgvw' as [_ Hgvw'].
  assert (dv' = dv) as -> by congruence.
  assert (gv' = gv) as -> by congruence.
  assert (gvw' = gvw) as -> by congruence.
  apply slice_set_Done in HdT as [HwT ->]. unfold len in HwT.
  assert (∀ u, (∃ d, 0 ≤ u ∧ DijksraSP.vdistTo s !! Z.to_nat u = Some d ∧
                     walk_length g h mst source u d) →
               ∃ d, 0 ≤ u ∧
                    <[Z.to_nat w := f_add dv gvw]> (DijksraSP.vdistTo s) !! Z.to_nat u
                    = Some d ∧ walk_length g h mst source u d) as Hkeep.
  { intros u (d & Hu0 & Hd & Hwu).
    destruct (decide (Z.to_nat u = Z.to_nat w)) as [Heq | Hne].
    - assert (u = w) as -> by lia. exists (f_add dv gvw).
      rewrite list_lookup_insert_eq by lia. done.
    - exists d. by rewrite list_lookup_insert_ne. }
  assert (∃ d, 0 ≤ w ∧
               <[Z.to_nat w := f_add dv gvw]> (DijksraSP.vdistTo s) !! Z.to_nat w
               = Some d ∧ walk_length g h mst source w d) as Hnew.
  { exists (f_add dv gvw). rewrite list_lookup_insert_eq by lia. done. }
  apply (IH _ Hrun).
  + intros l Hl. apply Hes. by apply list_elem_of_further.
  + split; [done |]. split; simpl.
    * intros w' d Hd. destruct (decide (w' = Z.to_nat w)) as [-> | Hne].
      -- rewrite list_lookup_insert_eq in Hd by lia. injection Hd as <-.
         right. by rewrite Z2Nat.id by lia.
      -- rewrite list_lookup_insert_ne in Hd by done. by apply Hdist.
    * intros k it Hk.
      assert (has_item (DijksraSP.pq s) (Item.w it) ∨ Item.w it = w) as [Hold | ->].
      { destruct (DijksraSP.pq s !! w).
        - left. by eapply update_from.
        - by eapply (push_from _ _ _ _ _ Hpq). }
      -- destruct Hold as (k0 & it0 & Hk0 & Hw). apply Hkeep.
         rewrite <- Hw. by apply (Hitems k0).
      -- exact Hnew.
  + simpl. by apply Hkeep.
- apply (IH _ Hrun).
  + intros l Hl. apply Hes. by apply list_elem_of_further.
  + done.
  + done.
Qed.

(** The loop of findSP leaves distances that are MaxFloat64 or lengths of
  walks. *)
Lemma findSP_loop_walks (fuel : nat) (a : list (list loc)) (tgt : Z)
  (s s' : DijksraSP.vars) :
DijksraSP.findSP_loop fuel g a tgt s = Done s' →
(∀ i ls l, a !! i = Some ls → l ∈ ls →
           tree_pointer mst l ∧ edge_touches h l (Z.of_nat i)) →
search_inv g h mst source s →
∀ w d, DijksraSP.vdistTo s' !! w = Some d →
  d = MaxFloat64 ∨ walk_length g h mst source (Z.of_nat w) d.
Proof.
revert s. induction fuel as [| fuel IH]; intros s Hrun Hadj Hinv; [discriminate |].
simpl in Hrun. destruct Hinv as (Hends & Hdist & Hitems).
case_decide; [| by injection Hrun as <-].
apply bind_Done in Hrun as ([item pq'] & Hpop & Hrun).
apply pop_from in Hpop as [(k0 & it0 & Hk0 & Hw0) Hfrom].
case_decide.
{ apply bind_Done in Hrun as (pq'' & _ & Hrun). by injection Hrun as <-. }
apply bind_Done in Hrun as (s1 & Hrelax & Hrun).
unfold DijksraSP.relax in Hrelax.
apply bind_Done in Hrelax as (es & Hes & Hrelax).
apply slice_get_Done in Hes as [Hv0 Hes].
apply (IH _ Hrun Hadj).
apply (relax_range_walks _ _ _ _ Hrelax).
- intros l Hl. destruct (Hadj _ _ l Hes Hl) as [Hptr Ht].
  by rewrite Z2Nat.id in Ht by lia.
- split; [done |]. split; [done |]. simpl. intros k it Hk.
  destruct (Hfrom k it Hk) as (k1 & it1 & Hk1 & <-). by apply (Hitems k1).
- simpl. rewrite <- Hw0. by apply (Hitems k0).
Qed.
End findSP_walks.

Section findSP_sound.
Context `{Float64}.

(** The lists of the adjacency list hold pointers of the tree only, each in
  the lists of the ends of its edge. *)
Lemma build_adj_tree (h : store) (mst es : list (option loc)) (n : nat)
  (a : list (list loc)) :
slice_from1 mst = Done es →
DijksraSP.build_adj h es (replicate n []) = Done a →
∀ i ls l, a !! i = Some ls → l ∈ ls →
  tree_pointer mst l ∧ edge_touches h l (Z.of_nat i).
Proof.
intros Hes Hadj i ls l Hi Hl.
destruct (build_adj_spec _ _ _ _ Hadj) as [_ Hspec].
destruct (Hspec i ls Hi) as (ls0 & Hls0 & Hmem).
apply lookup_replicate in Hls0 as [-> _]. apply Hmem in Hl.
destruct Hl as [?%elem_of_nil | (k & Hk & Ht)]; [done |].
split; [| done]. destruct mst as [| e0 mst']; [discriminate |].
injection Hes as <-. exists (S k). split; [lia | done].
Qed.

(** X24. findSP reports no distance that is not the length of a walk:
  when findSP returns no error, every entry of distTo is MaxFloat64, the
  value it started with, or the length of a walk from the source to that
  vertex along edges of the tree, the entries of the matrix of distances
  for the edges of the walk added up from 0 in the order of the walk. *)
Theorem findSP_distances_are_walks (fuel : nat) (h h' : store)
  (dsp dsp' : DijksraSP.t) (r : Request.t) :
DijksraSP.findSP fuel h dsp r = Done (None, h', dsp') →
∀ (w : nat) d, DijksraSP.distTo dsp' !! w = Some d →
  d = MaxFloat64 ∨
  walk_length (DijksraSP.graph dsp) h (DijksraSP.mst dsp)
    (Atoi (Request.sourcevert r)).1 (Z.of_nat w) d.
Proof.
intros Hrun. apply findSP_Done in Hrun as [(err & [=] & _) | [_ Hrun]].
unfold DijksraSP.findSP_search in Hrun. cbv zeta in Hrun. simpl in Hrun.
set (src := (Atoi (Request.sourcevert r)).1) in *.
apply bind_Done in Hrun as (es & Hes & Hrun).
apply bind_Done in Hrun as (a & Ha & Hrun).
apply bind_Done in Hrun as (distTo0 & Hd0 & Hrun).
apply bind_Done in Hrun as (pq0 & Hpq0 & Hrun).
apply bind_Done in Hrun as (s' & Hloop & Hrun).
injection Hrun as _ <-. simpl.
apply slice_set_Done in Hd0 as [Hsrc ->]. unfold len in Hsrc.
rewrite length_replicate in Hsrc.
set (x := Item.mk (Edge.mk src src) 0 (float_of_int 0)) in *.
destruct (Init_singleton (λ _, True) x eq_refl I) as (Hinit & _ & _).
rewrite Hinit in Hpq0. injection Hpq0 as <-.
apply (findSP_loop_walks _ _ _ src _ _ _ _ _ Hloop).
- exact (build_adj_tree h (DijksraSP.mst dsp) es _ a Hes Ha).
- split; [apply ends_kept_refl |]. split; simpl.
  + intros w d Hd. destruct (decide (w = Z.to_nat src)) as [-> | Hne].
    * rewrite list_lookup_insert_eq in Hd by (rewrite length_replicate; lia).
      injection Hd as <-. right. rewrite Z2Nat.id by lia. apply walk_length_source.
    * rewrite list_lookup_insert_ne in Hd by done.
      apply lookup_replicate in Hd as [-> _]. by left.
  + intros k it Hk. rewrite lookup_insert in Hk. case_decide; [| by rewrite lookup_empty in Hk].
    injection Hk as <-. unfold x. simpl. exists (float_of_int 0).
    split; [exact (proj1 Hsrc) |]. split; [| apply walk_length_source].
    apply list_lookup_insert_eq. rewrite length_replicate.
    fold src. clearbody src. lia.
Qed.
End findSP_sound.

Lemma findSP_distances_are_walks_witness :
  DijksraSP.distTo row4_32_dsp !! 2%nat = Some (40 # 1)%Q ∧
  ((40 # 1)%Q = @MaxFloat64 Q_float64 ∨
   walk_length (H := Q_float64) (DijksraSP.graph row4_dsp) row4_store
     (DijksraSP.mst row4_dsp) (Atoi (Request.sourcevert row4_32)).1 (Z.of_nat 2)
     (40 # 1)%Q).
Proof.
  split; [reflexivity |].
  apply (findSP_distances_are_walks (H := Q_float64) 20 row4_store row4_32_store
           row4_dsp row4_32_dsp row4_32 row4_32_run 2%nat (40 # 1)%Q).
  reflexivity.
Defined.
